(** * A shallow embedding of the sharded in-memory cache

    The Go packages [types], [expiration], [eviction], [shard],
    [writepolicy], [engine] and [cache] are embedded as Rocq modules of the
    same names.  Go maps are finite maps ([gmap]) and finite sets ([gset]),
    pointers into the LRU list are addresses into an explicit heap, a
    runtime panic is [None], and every call of [time.Now()] made by one
    operation is the parameter [now] of that operation. *)

From Stdlib Require Import ZArith Lia Ascii String.
From stdpp Require Import gmap strings list fin_maps.

Open Scope Z_scope.

Set Warnings "-clear-no-such-hyp".

(** ** Package [time] : the part of the Go library the cache uses *)

Module GoTime.

(** A [time.Time] is the number of nanoseconds since the zero Time; a
    [time.Duration] is a signed 64-bit count of nanoseconds. *)
Definition minDuration : Z := - 2 ^ 63.
Definition maxDuration : Z := 2 ^ 63 - 1.

Definition IsZero (t : Z) : bool := t =? 0.
Definition Add (t d : Z) : Z := t + d.
Definition After (t u : Z) : bool := u <? t.

(** [t.Sub(u)] saturates at the ends of the Duration range. *)
Definition Sub (t u : Z) : Z :=
  if t - u <? minDuration then minDuration
  else if maxDuration <? t - u then maxDuration
  else t - u.

(** [time.Until(t)] is [t.Sub(time.Now())]. *)
Definition Until (now t : Z) : Z := Sub t now.

End GoTime.

(** ** Package [types] *)

Module types.

(** Values of Go type [any] that the cache stores: the nil interface or
    a string or integer payload. *)
Inductive any : Type :=
| anil : any
| astring (s : string) : any
| aint (n : Z) : any.

Definition is_nil (v : any) : bool :=
  match v with anil => true | _ => false end.

(** A Go [error]: [None] is the nil error. *)
Definition error : Type := option string.

Record CacheEntry : Type := mkEntry {
  Key : string;
  Value : any;
  CreatedAt : Z;
  LastAccessedAt : Z;
  ExpireAt : Z  (* zero => no TTL *)
}.

Definition set_CreatedAt (t : Z) (e : CacheEntry) : CacheEntry :=
  mkEntry (Key e) (Value e) t (LastAccessedAt e) (ExpireAt e).
Definition set_LastAccessedAt (t : Z) (e : CacheEntry) : CacheEntry :=
  mkEntry (Key e) (Value e) (CreatedAt e) t (ExpireAt e).
Definition set_ExpireAt (t : Z) (e : CacheEntry) : CacheEntry :=
  mkEntry (Key e) (Value e) (CreatedAt e) (LastAccessedAt e) t.

(** The [Metrics] interface is a fire-and-forget sink; the sink used
    here records the events it receives, most recent first. *)
Inductive MetricEvent : Type := Hit | Miss | Eviction | Expire | Refresh.

(** The [Loader] interface, over the state [S] of the collaborator that
    implements it. *)
Record Loader (S : Type) : Type := mkLoader {
  Load : S -> string -> (any * error) * S;
  Put : S -> string -> any -> error * S
}.
Arguments Load {S} _ _ _.
Arguments Put {S} _ _ _ _.

(** The backing store of the test suite: a map guarded by a mutex. *)
Definition TestStore : Loader (gmap string any) :=
  {| Load := fun d key => ((default anil (d !! key), None), d);
     Put := fun d key value => (None, <[key := value]> d) |}.

End types.

Import types.

(** ** Package [expiration] *)

Module expiration.

(** The [Strategy] interface.  The hooks receive a pointer to the entry
    and mutate it; here they return the mutated entry. *)
Record Strategy : Type := mkStrategy {
  IsExpired : CacheEntry -> Z -> bool;
  OnAccess : CacheEntry -> Z -> CacheEntry;
  OnWrite : CacheEntry -> Z -> CacheEntry
}.

Module ExpireAfterAccess.
Definition IsExpired (TTL : Z) (ent : CacheEntry) (now : Z) : bool :=
  negb (GoTime.IsZero (ExpireAt ent)) && GoTime.After now (ExpireAt ent).

Definition OnAccess (TTL : Z) (ent : CacheEntry) (now : Z) : CacheEntry :=
  let ent := set_LastAccessedAt now ent in
  set_ExpireAt (GoTime.Add now TTL) ent.

Definition OnWrite (TTL : Z) (ent : CacheEntry) (now : Z) : CacheEntry :=
  let ent := set_CreatedAt now ent in
  let ent := set_LastAccessedAt now ent in
  if GoTime.IsZero (ExpireAt ent)
  then set_ExpireAt (GoTime.Add now TTL) ent
  else ent.
End ExpireAfterAccess.

(** [&ExpireAfterAccess{TTL: ttl}] as a [Strategy]. *)
Definition ExpireAfterAccess (TTL : Z) : Strategy :=
  {| IsExpired := ExpireAfterAccess.IsExpired TTL;
     OnAccess := ExpireAfterAccess.OnAccess TTL;
     OnWrite := ExpireAfterAccess.OnWrite TTL |}.

End expiration.

(** ** Package [eviction] *)

Module eviction.

(** *** LRU: a doubly-linked list of heap nodes and a key index *)
Module LRU.

Record lruNode : Type := mkNode {
  key : string;
  prev : option nat;
  next : option nat
}.

(** [heap] holds the nodes allocated so far and [brk] is the next free
    address; [nodes], [head] and [tail] are the fields of the Go
    struct. *)
Record lru : Type := mkLRU {
  heap : gmap nat lruNode;
  brk : nat;
  nodes : gmap string nat;
  head : option nat;
  tail : option nat
}.

Definition newLRU : lru := mkLRU ∅ 0%nat ∅ None None.

Definition with_heap (h : gmap nat lruNode) (l : lru) : lru :=
  mkLRU h (brk l) (nodes l) (head l) (tail l).
Definition with_nodes (m : gmap string nat) (l : lru) : lru :=
  mkLRU (heap l) (brk l) m (head l) (tail l).
Definition with_head (p : option nat) (l : lru) : lru :=
  mkLRU (heap l) (brk l) (nodes l) p (tail l).
Definition with_tail (p : option nat) (l : lru) : lru :=
  mkLRU (heap l) (brk l) (nodes l) (head l) p.

(** [p.next = v] and [p.prev = v] *)
Definition store_next (p : nat) (v : option nat) (h : gmap nat lruNode)
  : gmap nat lruNode :=
  alter (fun n => mkNode (key n) (prev n) v) p h.
Definition store_prev (p : nat) (v : option nat) (h : gmap nat lruNode)
  : gmap nat lruNode :=
  alter (fun n => mkNode (key n) v (next n)) p h.

Definition addFront (n : nat) (l : lru) : lru :=
  (* n.next = l.head *)
  let l := with_heap (store_next n (head l) (heap l)) l in
  (* if l.head != nil { l.head.prev = n } *)
  let l := match head l with
           | Some hd => with_heap (store_prev hd (Some n) (heap l)) l
           | None => l
           end in
  (* l.head = n *)
  let l := with_head (Some n) l in
  (* if l.tail == nil { l.tail = n } *)
  match tail l with
  | None => with_tail (Some n) l
  | Some _ => l
  end.

Definition remove (n : nat) (l : lru) : lru :=
  (* if n.prev != nil { n.prev.next = n.next } else { l.head = n.next } *)
  let l := match heap l !! n with
           | Some nd =>
               match prev nd with
               | Some p => with_heap (store_next p (next nd) (heap l)) l
               | None => with_head (next nd) l
               end
           | None => l
           end in
  (* if n.next != nil { n.next.prev = n.prev } else { l.tail = n.prev } *)
  match heap l !! n with
  | Some nd =>
      match next nd with
      | Some q => with_heap (store_prev q (prev nd) (heap l)) l
      | None => with_tail (prev nd) l
      end
  | None => l
  end.

Definition moveToFront (n : nat) (l : lru) : lru :=
  addFront n (remove n l).

Definition OnGet (k : string) (l : lru) : lru :=
  match nodes l !! k with
  | Some n => moveToFront n l
  | None => l
  end.

Definition OnPut (k : string) (l : lru) : lru :=
  match nodes l !! k with
  | Some _ => l
  | None =>
      (* n := &lruNode{key: k} *)
      let n := brk l in
      let l := mkLRU (<[n := mkNode k None None]> (heap l)) (S n)
                     (nodes l) (head l) (tail l) in
      let l := with_nodes (<[k := n]> (nodes l)) l in
      addFront n l
  end.

Definition Evict (l : lru) : string * lru :=
  match tail l with
  | None => (""%string, l)
  | Some t =>
      let k := match heap l !! t with
               | Some nd => key nd
               | None => ""%string
               end in
      let l := remove t l in
      (k, with_nodes (delete k (nodes l)) l)
  end.

Definition Remove (k : string) (l : lru) : lru :=
  match nodes l !! k with
  | Some n =>
      let l := remove n l in
      with_nodes (delete k (nodes l)) l
  | None => l
  end.

End LRU.

(** *** LFU: frequency buckets and a tracked minimum frequency *)
Module LFU.

(** [nodes] maps a key to the [freq] field of its node.  A bucket of
    [freqMap] is a Go map from keys to the very node pointers held in
    [nodes], so a bucket is its key set. *)
Record lfu : Type := mkLFU {
  nodes : gmap string Z;
  freqMap : gmap Z (gset string);
  minFreq : Z
}.

Definition newLFU : lfu := mkLFU ∅ ∅ 0.

(** [l.freqMap[f]]: a missing bucket reads as the nil map. *)
Definition bucket (fm : gmap Z (gset string)) (f : Z) : gset string :=
  default ∅ (fm !! f).

(** [delete(l.freqMap[f], k)]: a no-op on the nil map. *)
Definition bucket_delete (f : Z) (k : string) (fm : gmap Z (gset string))
  : gmap Z (gset string) :=
  match fm !! f with
  | Some b => <[f := b ∖ {[k]}]> fm
  | None => fm
  end.

(** [if l.freqMap[f] == nil { make }; l.freqMap[f][k] = n] *)
Definition bucket_add (f : Z) (k : string) (fm : gmap Z (gset string))
  : gmap Z (gset string) :=
  <[f := {[k]} ∪ bucket fm f]> fm.

Definition OnGet (k : string) (l : lfu) : lfu :=
  match nodes l !! k with
  | None => l
  | Some old =>
      let nodes' := <[k := old + 1]> (nodes l) in
      let fm := bucket_delete old k (freqMap l) in
      let '(fm, mf) :=
        if decide (size (bucket fm old) = 0%nat)
        then (delete old fm,
              if decide (minFreq l = old) then minFreq l + 1 else minFreq l)
        else (fm, minFreq l) in
      mkLFU nodes' (bucket_add (old + 1) k fm) mf
  end.

Definition OnPut (k : string) (l : lfu) : lfu :=
  match nodes l !! k with
  | Some _ => l
  | None => mkLFU (<[k := 1]> (nodes l)) (bucket_add 1 k (freqMap l)) 1
  end.

(** [for k := range l.freqMap[l.minFreq]] visits the keys of the bucket
    in an order the Go runtime chooses; [pick] selects the key visited
    first. *)
Definition Evict (pick : nat) (l : lfu) : string * lfu :=
  let ks := elements (bucket (freqMap l) (minFreq l)) in
  match ks !! (pick mod length ks)%nat with
  | Some k =>
      (k, mkLFU (delete k (nodes l))
                (bucket_delete (minFreq l) k (freqMap l))
                (minFreq l))
  | None => (""%string, l)
  end.

Definition Remove (k : string) (l : lfu) : lfu :=
  match nodes l !! k with
  | None => l
  | Some f =>
      mkLFU (delete k (nodes l)) (bucket_delete f k (freqMap l)) (minFreq l)
  end.

End LFU.

(** *** FIFO: a queue of keys and a membership set *)
Module FIFO.

Record fifo : Type := mkFIFO {
  queue : list string;
  set : gset string
}.

Definition newFIFO : fifo := mkFIFO [] ∅.

Definition OnGet (k : string) (f : fifo) : fifo := f.

Definition OnPut (k : string) (f : fifo) : fifo :=
  if decide (k ∈ set f) then f
  else mkFIFO (queue f ++ [k]) ({[k]} ∪ set f).

Definition Evict (f : fifo) : string * fifo :=
  match queue f with
  | [] => (""%string, f)
  | k :: q => (k, mkFIFO q (set f ∖ {[k]}))
  end.

(** The loop of [Remove]: drop the first element equal to [k]. *)
Fixpoint remove_first (k : string) (q : list string) : list string :=
  match q with
  | [] => []
  | v :: q' => if decide (v = k) then q' else v :: remove_first k q'
  end.

Definition Remove (k : string) (f : fifo) : fifo :=
  if decide (k ∈ set f)
  then mkFIFO (remove_first k (queue f)) (set f ∖ {[k]})
  else f.

End FIFO.

(** *** The [Policy] interface and its factory *)

Inductive Policy : Type :=
| PLRU (l : LRU.lru)
| PLFU (l : LFU.lfu)
| PFIFO (f : FIFO.fifo).

Definition OnGet (k : string) (p : Policy) : Policy :=
  match p with
  | PLRU l => PLRU (LRU.OnGet k l)
  | PLFU l => PLFU (LFU.OnGet k l)
  | PFIFO f => PFIFO (FIFO.OnGet k f)
  end.

Definition OnPut (k : string) (p : Policy) : Policy :=
  match p with
  | PLRU l => PLRU (LRU.OnPut k l)
  | PLFU l => PLFU (LFU.OnPut k l)
  | PFIFO f => PFIFO (FIFO.OnPut k f)
  end.

Definition Remove (k : string) (p : Policy) : Policy :=
  match p with
  | PLRU l => PLRU (LRU.Remove k l)
  | PLFU l => PLFU (LFU.Remove k l)
  | PFIFO f => PFIFO (FIFO.Remove k f)
  end.

Definition Evict (pick : nat) (p : Policy) : string * Policy :=
  match p with
  | PLRU l => let '(k, l) := LRU.Evict l in (k, PLRU l)
  | PLFU l => let '(k, l) := LFU.Evict pick l in (k, PLFU l)
  | PFIFO f => let '(k, f) := FIFO.Evict f in (k, PFIFO f)
  end.

(** [NewEvictionPolicy] panics on an unknown identifier. *)
Definition NewEvictionPolicy (t : string) : option Policy :=
  if decide (t = "LRU"%string) then Some (PLRU LRU.newLRU)
  else if decide (t = "LFU"%string) then Some (PLFU LFU.newLFU)
  else if decide (t = "FIFO"%string) then Some (PFIFO FIFO.newFIFO)
  else None.

End eviction.

(** ** Package [shard] *)

Module shard.

(** *** The copy-on-write store *)

(** [data] is the published snapshot and [size] the separately tracked
    counter.  The snapshot maps keys to entry pointers; an entry is
    reachable through its snapshot slot only, so the map holds the
    entry itself. *)
Record cowStore : Type := mkStore {
  data : gmap string CacheEntry;
  size : Z
}.

Definition NewCOWStore : cowStore := mkStore ∅ 0.

Definition Get (s : cowStore) (key : string) : option CacheEntry :=
  data s !! key.

Definition Put (s : cowStore) (key : string) (ent : CacheEntry) : cowStore :=
  let old := data s in
  (* for k, v := range old { n[k] = v } *)
  let n := map_fold (fun k v (n : gmap string CacheEntry) => <[k := v]> n)
                    ∅ old in
  (* n[key] = ent *)
  let n := <[key := ent]> n in
  mkStore n (Z.of_nat (base.size n)).

Definition Delete (s : cowStore) (key : string) : cowStore :=
  let old := data s in
  (* for k, v := range old { if k != key { n[k] = v } } *)
  let n := map_fold (fun k v (n : gmap string CacheEntry) =>
                       if decide (k ≠ key) then <[k := v]> n else n)
                    ∅ old in
  mkStore n (Z.of_nat (base.size n)).

Definition Size (s : cowStore) : Z := size s.

(** A write through an entry pointer obtained from [Get]: the entry
    changes in place, the snapshot and the counter are not republished. *)
Definition update_entry (s : cowStore) (key : string)
    (f : CacheEntry -> CacheEntry) : cowStore :=
  mkStore (alter f key (data s)) (size s).

(** *** Shards (the write mutex has no sequential content) *)

Record Shard : Type := mkShard {
  Store : cowStore;
  Eviction : eviction.Policy
}.

Definition NewShard (ev : eviction.Policy) : Shard :=
  mkShard NewCOWStore ev.

(** *** The selector *)

(** [fnv.New32a]: 32-bit FNV-1a over the bytes of the key. *)
Definition offset32 : Z := 2166136261.
Definition prime32 : Z := 16777619.

Definition hash (s : string) : Z :=
  fold_left
    (fun h c => (Z.lxor h (Z.of_N (N_of_ascii c)) * prime32) mod 2 ^ 32)
    (list_ascii_of_string s) offset32.

(** [Select] returns the index of the chosen shard; the remainder by
    zero panics. *)
Definition Select (key : string) (shards : list Shard) : option nat :=
  match shards with
  | [] => None
  | _ => Some (Z.to_nat (Z.rem (hash key) (Z.of_nat (length shards))))
  end.

End shard.

(** ** Package [writepolicy] *)

Module writepolicy.

(** A [writeReq] without its context. *)
Definition writeReq : Type := string * any.

Module WriteThrough.
Definition OnWrite {S : Type} (store : Loader S) (st : S)
    (key : string) (value : any) : S :=
  snd (Put store st key value).

Definition Close {S : Type} (st : S) : S := st.
End WriteThrough.

Module WriteBack.

(** Where the worker goroutine stands: about to receive, blocked in
    the receive on an empty open channel, holding a request it has
    received and not yet written, or returned. *)
Inductive worker : Type :=
| Running
| Parked
| Holding (r : writeReq)
| Exited.

(** The buffered channel [ch] is its queue, its capacity and its
    closed flag. *)
Record WriteBackPolicy : Type := mkWB {
  ch : list writeReq;
  cap : nat;
  closed : bool;
  wk : worker
}.

Definition with_wk (k : worker) (w : WriteBackPolicy) : WriteBackPolicy :=
  mkWB (ch w) (cap w) (closed w) k.

(** [make(chan writeReq, buffer)] panics on a negative size. *)
Definition NewWriteBackPolicy (buffer : Z) : option WriteBackPolicy :=
  if buffer <? 0 then None
  else Some (mkWB [] (Z.to_nat buffer) false Running).

(** The non-blocking send: a send on a closed channel panics, a send
    to a blocked receiver hands the request over, a send into a free
    buffer slot enqueues, and otherwise the [default] case drops. *)
Definition OnWrite (w : WriteBackPolicy) (key : string) (value : any)
  : option WriteBackPolicy :=
  if closed w then None
  else match wk w with
       | Parked => Some (with_wk (Holding (key, value)) w)
       | _ =>
           if (length (ch w) <? cap w)%nat
           then Some (mkWB (ch w ++ [(key, value)]) (cap w) (closed w) (wk w))
           else Some w
       end.

(** One step of [for req := range w.ch { _ = w.store.Put(...) }]. *)
Definition worker_step {S : Type} (store : Loader S)
    (ws : WriteBackPolicy * S) : WriteBackPolicy * S :=
  let '(w, st) := ws in
  match wk w with
  | Running =>
      match ch w with
      | r :: q => (mkWB q (cap w) (closed w) (Holding r), st)
      | [] => (with_wk (if closed w then Exited else Parked) w, st)
      end
  | Parked => (w, st)
  | Holding r => (with_wk Running w, snd (Put store st (fst r) (snd r)))
  | Exited => (w, st)
  end.

(** [close(w.ch)]: closing twice panics; a blocked receiver wakes up
    and finds the channel closed. *)
Definition close_ch (w : WriteBackPolicy) : option WriteBackPolicy :=
  if closed w then None
  else Some (mkWB (ch w) (cap w) true
                  (match wk w with Parked => Exited | k => k end)).

(** [Close]: close the channel, then [w.wg.Wait()]: the caller is
    blocked while the worker takes its remaining steps, at most two
    for each queued request, one for a held request and one to see
    the closed channel; [Close] returns once the worker has. *)
Definition Close {S : Type} (store : Loader S)
    (ws : WriteBackPolicy * S) : option (WriteBackPolicy * S) :=
  let '(w, st) := ws in
  w ← close_ch w;
  let ws' := Nat.iter (2 * length (ch w) + 2) (worker_step store) (w, st) in
  match wk (fst ws') with
  | Exited => Some ws'
  | _ => None
  end.

(** A schedule interleaves the writes of the producers with the steps
    of the worker. *)
Inductive event : Type :=
| EvWrite (key : string) (value : any)
| EvWorker.

Definition step {S : Type} (store : Loader S) (e : event)
    (ws : WriteBackPolicy * S) : option (WriteBackPolicy * S) :=
  match e with
  | EvWrite key value => w ← OnWrite (fst ws) key value; Some (w, snd ws)
  | EvWorker => Some (worker_step store ws)
  end.

Fixpoint run {S : Type} (store : Loader S) (evs : list event)
    (ws : WriteBackPolicy * S) : option (WriteBackPolicy * S) :=
  match evs with
  | [] => Some ws
  | e :: evs => ws ← step store e ws; run store evs ws
  end.

Definition writes_of (evs : list event) : list writeReq :=
  omap (fun e => match e with
                 | EvWrite k v => Some (k, v)
                 | EvWorker => None
                 end) evs.

(** The backing store after the requests [rs] have been forwarded to
    its [Put], in order. *)
Definition forward {S : Type} (store : Loader S) (rs : list writeReq)
    (st : S) : S :=
  fold_left (fun st r => snd (Put store st (fst r) (snd r))) rs st.

End WriteBack.

(** The [WritePolicy] interface over its two implementations. *)
Inductive WritePolicy : Type :=
| PWriteThrough
| PWriteBack (w : WriteBack.WriteBackPolicy).

Definition OnWrite {S : Type} (store : Loader S) (p : WritePolicy) (st : S)
    (key : string) (value : any) : option (WritePolicy * S) :=
  match p with
  | PWriteThrough => Some (p, WriteThrough.OnWrite store st key value)
  | PWriteBack w => w ← WriteBack.OnWrite w key value; Some (PWriteBack w, st)
  end.

Definition Close {S : Type} (store : Loader S) (p : WritePolicy) (st : S)
    : option (WritePolicy * S) :=
  match p with
  | PWriteThrough => Some (p, WriteThrough.Close st)
  | PWriteBack w =>
      '(w, st) ← WriteBack.Close store (w, st); Some (PWriteBack w, st)
  end.

End writepolicy.

(** ** Package [engine] *)

Module engine.

(** The engine holds a [Strategy], an optional refresh hook, the
    [Loader], an optional [WritePolicy] and the [Metrics] sink.
    [Backing] is the state of the collaborator behind [Loader], which is
    also the store the write policy was built with.  The refresh hook is
    an external observer: [Refresh] tells whether one is configured. *)
Record CacheEngine (S : Type) : Type := mkEngine {
  Expiration : option expiration.Strategy;
  Refresh : bool;
  Loader : types.Loader S;
  WritePolicy : option writepolicy.WritePolicy;
  Metrics : list MetricEvent;
  Backing : S
}.
Arguments mkEngine {S} _ _ _ _ _ _.
Arguments Expiration {S} _.
Arguments Refresh {S} _.
Arguments Loader {S} _.
Arguments WritePolicy {S} _.
Arguments Metrics {S} _.
Arguments Backing {S} _.

Section methods.
Context {S : Type}.

Definition NewCacheEngine (exp : option expiration.Strategy)
    (refresh : bool) (loader : types.Loader S) (store : S)
    (writePolicy : option writepolicy.WritePolicy) : CacheEngine S :=
  mkEngine exp refresh loader writePolicy [] store.

(** A call of a method of [e.Metrics]. *)
Definition emit (m : MetricEvent) (e : CacheEngine S) : CacheEngine S :=
  mkEngine (Expiration e) (Refresh e) (Loader e) (WritePolicy e)
           (m :: Metrics e) (Backing e).

Definition with_policy (p : writepolicy.WritePolicy) (st : S)
    (e : CacheEngine S) : CacheEngine S :=
  mkEngine (Expiration e) (Refresh e) (Loader e) (Some p) (Metrics e) st.

Definition with_backing (st : S) (e : CacheEngine S) : CacheEngine S :=
  mkEngine (Expiration e) (Refresh e) (Loader e) (WritePolicy e)
           (Metrics e) st.

Definition IsExpired (e : CacheEngine S) (ent : CacheEntry) (now : Z)
  : bool :=
  match Expiration e with
  | Some s => expiration.IsExpired s ent now
  | None => false
  end.

Definition OnRead (e : CacheEngine S) (key : string) (ent : CacheEntry)
    (now : Z) : CacheEntry * CacheEngine S :=
  let ent := match Expiration e with
             | Some s => expiration.OnAccess s ent now
             | None => ent
             end in
  (ent, if Refresh e then emit types.Refresh e else e).

Definition OnWrite (e : CacheEngine S) (ent : CacheEntry) (now : Z)
  : option (CacheEntry * CacheEngine S) :=
  let ent := match Expiration e with
             | Some s => expiration.OnWrite s ent now
             | None => ent
             end in
  if negb (GoTime.IsZero (ExpireAt ent)) then Some (ent, e)
  else match WritePolicy e with
       | Some p =>
           '(p, st) ← writepolicy.OnWrite (Loader e) p (Backing e)
                                           (Key ent) (Value ent);
           Some (ent, with_policy p st e)
       | None => Some (ent, e)
       end.

Definition Load (e : CacheEngine S) (key : string)
  : (any * error) * CacheEngine S :=
  let '(r, st) := types.Load (Loader e) (Backing e) key in
  (r, with_backing st e).

End methods.

End engine.

(** ** Package [cache] : the facade *)

Module cache.

Record ShardedCache (S : Type) : Type := mkCache {
  shards : list shard.Shard;
  engine : engine.CacheEngine S;
  capacity : Z
}.
Arguments mkCache {S} _ _ _.
Arguments shards {S} _.
Arguments engine {S} _.
Arguments capacity {S} _.

Section facade.
Context {S : Type}.

(** [make([]*Shard, n)] panics on a negative length; the factory is
    called once for each shard, so not at all when there is none. *)
Definition NewShardedCache (n : Z) (capacity : Z) (eviction : string)
    (e : engine.CacheEngine S) : option (ShardedCache S) :=
  if n <? 0 then None
  else if n =? 0 then Some (mkCache [] e capacity)
  else p ← eviction.NewEvictionPolicy eviction;
       Some (mkCache (replicate (Z.to_nat n) (shard.NewShard p)) e capacity).

Definition with_shard (i : nat) (sh : shard.Shard) (c : ShardedCache S)
  : ShardedCache S :=
  mkCache (<[i := sh]> (shards c)) (engine c) (capacity c).

Definition with_engine (e : engine.CacheEngine S) (c : ShardedCache S)
  : ShardedCache S :=
  mkCache (shards c) e (capacity c).

(** [c.capacity/len(c.shards)], truncated as Go divides. *)
Definition threshold (c : ShardedCache S) : Z :=
  Z.quot (capacity c) (Z.of_nat (length (shards c))).

Definition Remove (c : ShardedCache S) (key : string)
  : option (ShardedCache S) :=
  i ← shard.Select key (shards c);
  sh ← shards c !! i;
  let st := shard.Delete (shard.Store sh) key in
  let ev := eviction.Remove key (shard.Eviction sh) in
  Some (with_shard i (shard.mkShard st ev) c).

(** The capacity check of [PutWithTTL]: at or over the threshold the
    policy evicts one key, which leaves the store unless it is the
    empty string. *)
Definition make_room (c : ShardedCache S) (sh : shard.Shard) (pick : nat)
  : shard.Shard * engine.CacheEngine S :=
  if threshold c <=? shard.Size (shard.Store sh)
  then
    let '(evicted, ev) := eviction.Evict pick (shard.Eviction sh) in
    if decide (evicted ≠ ""%string)
    then (shard.mkShard (shard.Delete (shard.Store sh) evicted) ev,
          engine.emit types.Eviction (engine c))
    else (shard.mkShard (shard.Store sh) ev, engine c)
  else (sh, engine c).

(** The entry [PutWithTTL] builds before the engine sees it. *)
Definition new_entry (key : string) (value : any) (ttl : Z) (now : Z)
  : CacheEntry :=
  let ent := mkEntry key value now now 0 in
  if 0 <? ttl then set_ExpireAt (GoTime.Add now ttl) ent else ent.

Definition PutWithTTL (c : ShardedCache S) (key : string) (value : any)
    (ttl : Z) (now : Z) (pick : nat) : option (error * ShardedCache S) :=
  i ← shard.Select key (shards c);
  sh ← shards c !! i;
  let '(sh, e) := make_room c sh pick in
  let ent := new_entry key value ttl now in
  '(ent, e) ← engine.OnWrite e ent now;
  let st := shard.Put (shard.Store sh) key ent in
  let ev := eviction.OnPut key (shard.Eviction sh) in
  Some (None, with_engine e (with_shard i (shard.mkShard st ev) c)).

Definition Put (c : ShardedCache S) (key : string) (value : any)
    (now : Z) (pick : nat) : option (error * ShardedCache S) :=
  PutWithTTL c key value 0 now pick.

(** The miss path of [Get].  Without concurrent callers
    [c.sf.Do(key, fn)] is the call of [fn]. *)
Definition load_miss (c : ShardedCache S) (key : string) (now : Z)
    (pick : nat) : option ((any * error) * ShardedCache S) :=
  let c := with_engine (engine.emit types.Miss (engine c)) c in
  let '((val, err), e) := engine.Load (engine c) key in
  let c := with_engine e c in
  if bool_decide (err ≠ None) || is_nil val then Some ((anil, err), c)
  else '(_, c) ← Put c key val now pick; Some ((val, None), c).

Definition Get (c : ShardedCache S) (key : string) (now : Z) (pick : nat)
  : option ((any * error) * ShardedCache S) :=
  i ← shard.Select key (shards c);
  sh ← shards c !! i;
  match shard.Get (shard.Store sh) key with
  | Some ent =>
      if engine.IsExpired (engine c) ent now
      then
        let c := with_engine (engine.emit types.Expire (engine c)) c in
        c ← Remove c key;
        load_miss c key now pick
      else
        let e := engine.emit types.Hit (engine c) in
        let '(ent', e) := engine.OnRead e key ent now in
        let st := shard.update_entry (shard.Store sh) key (fun _ => ent') in
        let ev := eviction.OnGet key (shard.Eviction sh) in
        Some ((Value ent', None),
              with_engine e (with_shard i (shard.mkShard st ev) c))
  | None => load_miss c key now pick
  end.

Definition Expire (c : ShardedCache S) (key : string) (ttl : Z) (now : Z)
  : option (bool * ShardedCache S) :=
  i ← shard.Select key (shards c);
  sh ← shards c !! i;
  match shard.Get (shard.Store sh) key with
  | None => Some (false, c)
  | Some _ =>
      let st := shard.update_entry (shard.Store sh) key
                  (set_ExpireAt (GoTime.Add now ttl)) in
      Some (true, with_shard i (shard.mkShard st (shard.Eviction sh)) c)
  end.

Definition TTL (c : ShardedCache S) (key : string) (now : Z) : option Z :=
  i ← shard.Select key (shards c);
  sh ← shards c !! i;
  match shard.Get (shard.Store sh) key with
  | None => Some (-1)
  | Some ent =>
      if GoTime.IsZero (ExpireAt ent) then Some (-1)
      else
        let d := GoTime.Until now (ExpireAt ent) in
        if d <? 0 then Some (-2) else Some d
  end.

Definition Close (c : ShardedCache S) : option (ShardedCache S) :=
  match engine.WritePolicy (engine c) with
  | Some p =>
      '(p, st) ← writepolicy.Close (engine.Loader (engine c)) p
                                    (engine.Backing (engine c));
      Some (with_engine (engine.with_policy p st (engine c)) c)
  | None => Some c
  end.

End facade.

End cache.

(** ** Operation sequences and observers used by the statements *)

Module traces.

(** Writers of the copy-on-write store. *)
Inductive store_op : Type :=
| SPut (key : string) (ent : CacheEntry)
| SDelete (key : string).

Definition store_step (s : shard.cowStore) (o : store_op) : shard.cowStore :=
  match o with
  | SPut key ent => shard.Put s key ent
  | SDelete key => shard.Delete s key
  end.

Definition store_run (ops : list store_op) : shard.cowStore :=
  fold_left store_step ops shard.NewCOWStore.

(** A backing store that records the [Put] calls it receives, oldest
    first, and has nothing to load. *)
Definition PutLog : Loader (list (string * any)) :=
  {| Load := fun log key => ((anil, None), log);
     Put := fun log key value => (None, log ++ [(key, value)]) |}.

(** The counter of a store equals the cardinality of its snapshot. *)
Definition counted (s : shard.cowStore) : Prop :=
  shard.Size s = Z.of_nat (size (shard.data s)).

(** Calls of the four methods of an eviction policy; [PEvict] carries
    the choice the runtime makes when the policy ranges over a map. *)
Inductive policy_op : Type :=
| POnGet (k : string)
| POnPut (k : string)
| PRemove (k : string)
| PEvict (pick : nat).

(** One call: the key it returns, if it is an [Evict], and the policy
    after it. *)
Definition policy_step (o : policy_op) (p : eviction.Policy)
  : option string * eviction.Policy :=
  match o with
  | POnGet k => (None, eviction.OnGet k p)
  | POnPut k => (None, eviction.OnPut k p)
  | PRemove k => (None, eviction.Remove k p)
  | PEvict pick => let '(k, p) := eviction.Evict pick p in (Some k, p)
  end.

(** A sequence of calls: the keys returned by its [Evict] calls, in
    order, and the policy after it. *)
Fixpoint policy_run (ops : list policy_op) (p : eviction.Policy)
  : list string * eviction.Policy :=
  match ops with
  | [] => ([], p)
  | o :: ops =>
      let '(out, p) := policy_step o p in
      let '(outs, p) := policy_run ops p in
      (match out with Some k => k :: outs | None => outs end, p)
  end.

(** The keys a policy tracks: the domain of its key index. *)
Definition tracked (p : eviction.Policy) : gset string :=
  match p with
  | eviction.PLRU l => dom (eviction.LRU.nodes l)
  | eviction.PLFU l => dom (eviction.LFU.nodes l)
  | eviction.PFIFO f => eviction.FIFO.set f
  end.

(** An engine with no strategy, hook or write policy over the store of
    the test suite, and caches built on it. *)
Definition plain_engine : engine.CacheEngine (gmap string any) :=
  engine.NewCacheEngine None false TestStore ∅ None.

(** What the write-back worker has received or has in its queue and
    has not yet written, oldest first. *)
Definition pending (w : writepolicy.WriteBack.WriteBackPolicy)
  : list writepolicy.writeReq :=
  match writepolicy.WriteBack.wk w with
  | writepolicy.WriteBack.Holding r => r :: writepolicy.WriteBack.ch w
  | _ => writepolicy.WriteBack.ch w
  end.

(** A policy before [Close]: the channel is open, the worker has not
    returned, and it is blocked only on an empty queue. *)
Definition open_inv (w : writepolicy.WriteBack.WriteBackPolicy) : Prop :=
  writepolicy.WriteBack.closed w = false
  ∧ (writepolicy.WriteBack.wk w = writepolicy.WriteBack.Parked →
     writepolicy.WriteBack.ch w = [])
  ∧ writepolicy.WriteBack.wk w ≠ writepolicy.WriteBack.Exited.

(** The steps the worker still takes on a closed channel. *)
Definition drain_steps (w : writepolicy.WriteBack.WriteBackPolicy) : nat :=
  (2 * length (writepolicy.WriteBack.ch w)
   + match writepolicy.WriteBack.wk w with
     | writepolicy.WriteBack.Running => 1
     | writepolicy.WriteBack.Holding _ => 2
     | _ => 0
     end)%nat.

(** Between a write at [t1] and a read at [t2] the entry has not
    expired: there is no strategy, or the sliding window of the
    strategy reaches [t2]. *)
Definition still_fresh (exp : option expiration.Strategy) (t1 t2 : Z)
  : Prop :=
  match exp with
  | None => True
  | Some s => ∃ TTL, s = expiration.ExpireAfterAccess TTL ∧ t2 <= t1 + TTL
  end.

(** The engine of the test suite: a sliding window of ten seconds and
    a write-back policy with a buffer of 1024 over the test store. *)
Definition test_engine : engine.CacheEngine (gmap string any) :=
  engine.NewCacheEngine
    (Some (expiration.ExpireAfterAccess 10000000000)) false TestStore ∅
    (writepolicy.PWriteBack
       <$> writepolicy.WriteBack.NewWriteBackPolicy 1024).

(** A loader that fails on every key. *)
Definition FailingStore : Loader unit :=
  {| Load := fun st key => ((anil, Some "unavailable"%string), st);
     Put := fun st key value => (Some "unavailable"%string, st) |}.

(** [NewShardedCache(2, 10, LRU, engine)] of the test suite, and that
    cache after [Put("key1", "value1")] at time 100. *)
Definition test_cache : cache.ShardedCache (gmap string any) :=
  cache.mkCache
    (replicate 2 (shard.NewShard (eviction.PLRU eviction.LRU.newLRU)))
    test_engine 10.

Definition test_cache_put : cache.ShardedCache (gmap string any) :=
  match cache.Put test_cache "key1" (astring "value1") 100 0 with
  | Some (_, c) => c
  | None => test_cache
  end.

(** The cache of the test suite over a store that already holds [key1],
    and that cache once a miss is recorded and the store read. *)
Definition stocked_cache : cache.ShardedCache (gmap string any) :=
  cache.mkCache
    (replicate 2 (shard.NewShard (eviction.PLRU eviction.LRU.newLRU)))
    (engine.NewCacheEngine
       (Some (expiration.ExpireAfterAccess 10000000000)) false TestStore
       {["key1"%string := astring "value1"]}
       (writepolicy.PWriteBack
          <$> writepolicy.WriteBack.NewWriteBackPolicy 1024)) 10.

Definition stocked_cache_missed : cache.ShardedCache (gmap string any) :=
  cache.with_engine
    (engine.with_backing {["key1"%string := astring "value1"]}
       (engine.emit Miss (cache.engine stocked_cache)))
    stocked_cache.

(** Calls of the facade, and a step of the write-back worker in the
    background. *)
Inductive cache_op : Type :=
| OpGet (key : string) (now : Z) (pick : nat)
| OpPut (key : string) (value : any) (now : Z) (pick : nat)
| OpPutWithTTL (key : string) (value : any) (ttl : Z) (now : Z) (pick : nat)
| OpRemove (key : string)
| OpExpire (key : string) (ttl : Z) (now : Z)
| OpTTL (key : string) (now : Z)
| OpClose
| OpWorker.

Definition worker_tick {B : Type} (c : cache.ShardedCache B)
  : cache.ShardedCache B :=
  match engine.WritePolicy (cache.engine c) with
  | Some (writepolicy.PWriteBack w) =>
      let '(w, st) :=
        writepolicy.WriteBack.worker_step
          (engine.Loader (cache.engine c))
          (w, engine.Backing (cache.engine c)) in
      cache.with_engine
        (engine.with_policy (writepolicy.PWriteBack w) st (cache.engine c)) c
  | _ => c
  end.

Definition cache_step {B : Type} (o : cache_op) (c : cache.ShardedCache B)
  : option (cache.ShardedCache B) :=
  match o with
  | OpGet key now pick => snd <$> cache.Get c key now pick
  | OpPut key value now pick => snd <$> cache.Put c key value now pick
  | OpPutWithTTL key value ttl now pick =>
      snd <$> cache.PutWithTTL c key value ttl now pick
  | OpRemove key => cache.Remove c key
  | OpExpire key ttl now => snd <$> cache.Expire c key ttl now
  | OpTTL key now => (_ ← cache.TTL c key now; Some c)
  | OpClose => cache.Close c
  | OpWorker => Some (worker_tick c)
  end.

Fixpoint cache_run {B : Type} (ops : list cache_op)
    (c : cache.ShardedCache B) : option (cache.ShardedCache B) :=
  match ops with
  | [] => Some c
  | o :: ops => c ← cache_step o c; cache_run ops c
  end.

(** The calls that can store their key do not use the empty string,
    the value [Evict] returns for "nothing to evict". *)
Definition stores_named_key (o : cache_op) : Prop :=
  match o with
  | OpGet key _ _ | OpPut key _ _ _ | OpPutWithTTL key _ _ _ _ =>
      key ≠ ""%string
  | _ => True
  end.

(** No shard holds more than [bound] entries. *)
Definition within {B : Type} (bound : Z) (c : cache.ShardedCache B) : Prop :=
  Forall (fun sh => shard.Size (shard.Store sh) <= bound) (cache.shards c).

(** A shard under the FIFO policy: the policy tracks exactly the keys
    of the store, its queue lists them once each, none is the empty
    string, and the store holds at most [bound] of them. *)
Definition fifo_ok (bound : Z) (sh : shard.Shard) : Prop :=
  ∃ f, shard.Eviction sh = eviction.PFIFO f
       ∧ counted (shard.Store sh)
       ∧ eviction.FIFO.set f = dom (shard.data (shard.Store sh))
       ∧ (∀ k, k ∈ eviction.FIFO.queue f ↔ k ∈ eviction.FIFO.set f)
       ∧ NoDup (eviction.FIFO.queue f)
       ∧ (""%string ∉ eviction.FIFO.set f)
       ∧ shard.Size (shard.Store sh) <= bound.

(** The LFU index and its buckets agree, and no tracked key has a
    frequency below [minFreq] or below 1. *)
Definition lfu_inv (l : eviction.LFU.lfu) : Prop :=
  (∀ k f, eviction.LFU.nodes l !! k = Some f
          ↔ k ∈ eviction.LFU.bucket (eviction.LFU.freqMap l) f)
  ∧ (∀ k f, eviction.LFU.nodes l !! k = Some f →
            eviction.LFU.minFreq l <= f ∧ 1 <= f).

(** A shard under the LFU policy: the policy tracks exactly the keys of
    the store, none is the empty string, the index and the buckets
    agree, the store holds at most [bound] entries, and when it holds
    [bound] the bucket of [minFreq] is not empty. *)
Definition lfu_ok (bound : Z) (sh : shard.Shard) : Prop :=
  ∃ l, shard.Eviction sh = eviction.PLFU l
       ∧ counted (shard.Store sh)
       ∧ dom (eviction.LFU.nodes l) = dom (shard.data (shard.Store sh))
       ∧ lfu_inv l
       ∧ (""%string ∉ dom (eviction.LFU.nodes l))
       ∧ shard.Size (shard.Store sh) <= bound
       ∧ (shard.Size (shard.Store sh) = bound →
          ∃ k, eviction.LFU.nodes l !! k = Some (eviction.LFU.minFreq l)).

Definition shard_ok (bound : Z) (sh : shard.Shard) : Prop :=
  fifo_ok bound sh ∨ lfu_ok bound sh.

Definition cache_ok {B : Type} (c : cache.ShardedCache B) : Prop :=
  Forall (shard_ok (Z.max 1 (cache.threshold c))) (cache.shards c).

(** A cache of one shard and capacity 2 under FIFO, and the calls
    [Put(a); Put(b); Put(c)] on it. *)
Definition fifo_cache : cache.ShardedCache (gmap string any) :=
  cache.mkCache [shard.NewShard (eviction.PFIFO eviction.FIFO.newFIFO)]
                plain_engine 2.

Definition three_puts : list cache_op :=
  [OpPut "a" (aint 1) 1 0; OpPut "b" (aint 2) 2 0; OpPut "c" (aint 3) 3 0].

Definition fifo_cache_full : cache.ShardedCache (gmap string any) :=
  default fifo_cache (cache_run three_puts fifo_cache).

(** The full cache after a further [Put(d)]. *)
Definition fifo_cache_next : cache.ShardedCache (gmap string any) :=
  default fifo_cache_full
    (cache_run [OpPut "d" (aint 4) 4 0] fifo_cache_full).

(** Two shards share a capacity of one, so that each has a threshold
    of zero; the cache before and after [Put("k", 1)]. *)
Definition small_cache : cache.ShardedCache (gmap string any) :=
  cache.mkCache
    (replicate 2 (shard.NewShard (eviction.PFIFO eviction.FIFO.newFIFO)))
    plain_engine 1.

Definition small_cache_put : cache.ShardedCache (gmap string any) :=
  default small_cache (cache_run [OpPut "k" (aint 1) 0 0] small_cache).

(** A cache of one shard and capacity 2 under LRU, and calls that read
    [a] twice before two further inserts. *)
Definition lru_cache : cache.ShardedCache (gmap string any) :=
  cache.mkCache [shard.NewShard (eviction.PLRU eviction.LRU.newLRU)]
                plain_engine 2.

Definition reads_then_puts : list cache_op :=
  [OpPut "a" (aint 1) 1 0; OpPut "b" (aint 2) 2 0;
   OpGet "a" 3 0; OpGet "a" 4 0;
   OpPut "c" (aint 3) 5 0; OpPut "d" (aint 4) 6 0].

End traces.

Import traces.

(** ** Further observers, for the properties of the individual packages *)

Module coverage.

(** A policy of each of the three kinds, as the factory builds it. *)
Definition new_policies : list eviction.Policy :=
  [eviction.PLRU eviction.LRU.newLRU; eviction.PLFU eviction.LFU.newLFU;
   eviction.PFIFO eviction.FIFO.newFIFO].

(** The FIFO queue lists the keys of the membership set once each. *)
Definition fifo_wf (f : eviction.FIFO.fifo) : Prop :=
  NoDup (eviction.FIFO.queue f)
  ∧ ∀ k, k ∈ eviction.FIFO.queue f ↔ k ∈ eviction.FIFO.set f.

(** The entry the cache holds for a key: the lookup in the store of the
    shard the selector names. *)
Definition entry_of {B : Type} (c : cache.ShardedCache B) (key : string)
  : option CacheEntry :=
  i ← shard.Select key (cache.shards c);
  sh ← cache.shards c !! i;
  shard.Get (shard.Store sh) key.

(** The policy of a shard tracks exactly the keys of its store, the empty
    string is not one of them, and the size counter is their number. *)
Definition mirrored (sh : shard.Shard) : Prop :=
  counted (shard.Store sh)
  ∧ tracked (shard.Eviction sh) = dom (shard.data (shard.Store sh))
  ∧ (""%string ∉ tracked (shard.Eviction sh)).

(** Every key a shard holds is a key the selector sends to that shard. *)
Definition resident {B : Type} (c : cache.ShardedCache B) : Prop :=
  ∀ j sh k,
    cache.shards c !! j = Some sh →
    k ∈ dom (shard.data (shard.Store sh)) →
    shard.Select k (cache.shards c) = Some j.

(** What [TTL] answers, read off the entry the cache holds. *)
Definition ttl_answer (o : option CacheEntry) (now : Z) : Z :=
  match o with
  | None => -1
  | Some ent =>
      if GoTime.IsZero (ExpireAt ent) then -1
      else if GoTime.Until now (ExpireAt ent) <? 0 then -2
           else GoTime.Until now (ExpireAt ent)
  end.

(** The strategies the repository has: none, or expire-after-access. *)
Definition sliding_or_none (exp : option expiration.Strategy) : Prop :=
  exp = None ∨ ∃ TTL, exp = Some (expiration.ExpireAfterAccess TTL).

(** The number of hits and misses a metrics sink has recorded. *)
Definition hits_and_misses (m : list MetricEvent) : nat :=
  length (List.filter
            (fun ev => match ev with Hit | Miss => true | _ => false end) m).

(** The cache of the test suite after [PutWithTTL("x", "temp", 1s)] at
    time 100. *)
Definition test_cache_ttl : cache.ShardedCache (gmap string any) :=
  match cache.PutWithTTL test_cache "x" (astring "temp") 1000000000 100 0 with
  | Some (_, c) => c
  | None => test_cache
  end.

(** A cache of one shard and capacity 2 under FIFO with no strategy and a
    write-through policy over the store of the test suite, and that cache
    after [Put("k", "v")] at time 1. *)
Definition through_cache : cache.ShardedCache (gmap string any) :=
  cache.mkCache [shard.NewShard (eviction.PFIFO eviction.FIFO.newFIFO)]
    (engine.NewCacheEngine None false TestStore ∅
       (Some writepolicy.PWriteThrough)) 2.

Definition through_cache_put : cache.ShardedCache (gmap string any) :=
  match cache.Put through_cache "k" (astring "v") 1 0 with
  | Some (_, c) => c
  | None => through_cache
  end.

(** The FIFO cache without strategy after [PutWithTTL("x", "temp", 5ns)]
    at time 1. *)
Definition plain_cache_ttl : cache.ShardedCache (gmap string any) :=
  default fifo_cache
    (cache_run [OpPutWithTTL "x" (astring "temp") 5 1 0] fifo_cache).



(** The key a call of the facade names, if it names one. *)
Definition op_key (o : cache_op) : option string :=
  match o with
  | OpGet key _ _ | OpPut key _ _ _ | OpPutWithTTL key _ _ _ _
  | OpRemove key | OpExpire key _ _ | OpTTL key _ => Some key
  | OpClose | OpWorker => None
  end.

(** Whether a call can store its key: [Get] on a miss and the two puts. *)
Definition op_stores (o : cache_op) : bool :=
  match o with
  | OpGet _ _ _ | OpPut _ _ _ _ | OpPutWithTTL _ _ _ _ _ => true
  | _ => false
  end.

(** What the facade does to the shard of a key, one store and policy
    call pair at a time: the pair of [Remove], the write of [Expire]
    through the entry pointer, the read of a hit, the eviction of the
    capacity check with a key or with the empty string, and, for the
    calls that can store, the insertion of [PutWithTTL]. *)
Inductive shard_move (stores : bool) (key : string)
  : shard.Shard → shard.Shard → Prop :=
| mv_remove sh :
    shard_move stores key sh
      (shard.mkShard (shard.Delete (shard.Store sh) key)
                     (eviction.Remove key (shard.Eviction sh)))
| mv_expire sh g :
    shard_move stores key sh
      (shard.mkShard (shard.update_entry (shard.Store sh) key g)
                     (shard.Eviction sh))
| mv_read sh g :
    shard_move stores key sh
      (shard.mkShard (shard.update_entry (shard.Store sh) key g)
                     (eviction.OnGet key (shard.Eviction sh)))
| mv_evict sh pick :
    (eviction.Evict pick (shard.Eviction sh)).1 ≠ ""%string →
    shard_move stores key sh
      (shard.mkShard
         (shard.Delete (shard.Store sh)
                       (eviction.Evict pick (shard.Eviction sh)).1)
         (eviction.Evict pick (shard.Eviction sh)).2)
| mv_evict_none sh pick :
    (eviction.Evict pick (shard.Eviction sh)).1 = ""%string →
    shard_move stores key sh
      (shard.mkShard (shard.Store sh)
                     (eviction.Evict pick (shard.Eviction sh)).2)
| mv_put sh ent :
    stores = true →
    shard_move stores key sh
      (shard.mkShard (shard.Put (shard.Store sh) key ent)
                     (eviction.OnPut key (shard.Eviction sh))).

(** A call on [key] leaves the shards as they are or replaces the shard
    the selector names for [key] by one a few moves away. *)
Definition touches (stores : bool) (key : string)
    (l l' : list shard.Shard) : Prop :=
  l' = l
  ∨ ∃ i sh sh',
      shard.Select key l = Some i
      ∧ l !! i = Some sh
      ∧ rtc (shard_move stores key) sh sh'
      ∧ l' = <[i := sh']> l.

(** The LRU cache after the calls that read [a] twice. *)
Definition lru_cache_grown : cache.ShardedCache (gmap string any) :=
  default lru_cache (cache_run reads_then_puts lru_cache).

(** The doubly linked list of the LRU policy, read off the heap.  The
    cells are the addresses and keys of its nodes from the tail to the
    head.  [first_or] and [last_or] are the address of the first and of
    the last cell, or [e] when there is no cell. *)
Definition first_or (cells : list (nat * string)) (e : option nat)
  : option nat :=
  match cells with
  | [] => e
  | c :: _ => Some c.1
  end.

Fixpoint last_or (cells : list (nat * string)) (e : option nat)
  : option nat :=
  match cells with
  | [] => e
  | c :: rest => last_or rest (Some c.1)
  end.

(** The nodes at the addresses of [cells] are linked in this order: the
    [next] pointer of a node is the cell before it, [nx] for the first,
    and its [prev] pointer is the cell after it, [e] for the last. *)
Fixpoint chain (h : gmap nat eviction.LRU.lruNode) (nx : option nat)
    (cells : list (nat * string)) (e : option nat) : Prop :=
  match cells with
  | [] => True
  | c :: rest =>
      h !! c.1 = Some (eviction.LRU.mkNode c.2 (first_or rest e) nx)
      ∧ chain h (Some c.1) rest e
  end.

(** The LRU policy holds the list [cells]: the list runs from [tail] to
    [head], its nodes are allocated and distinct, and the key index maps
    each key of the list to its node and no other key. *)
Definition lru_cells (cells : list (nat * string)) (l : eviction.LRU.lru)
  : Prop :=
  chain (eviction.LRU.heap l) None cells None
  ∧ eviction.LRU.tail l = first_or cells None
  ∧ eviction.LRU.head l = last_or cells None
  ∧ NoDup cells.*1
  ∧ NoDup cells.*2
  ∧ (∀ c, c ∈ cells → (c.1 < eviction.LRU.brk l)%nat)
  ∧ (∀ k a, eviction.LRU.nodes l !! k = Some a ↔ (a, k) ∈ cells).

(** The heap after the node at the address between [c1] and [c2] is
    unlinked. *)
Definition unlinked (c1 c2 : list (nat * string)) (nx e : option nat)
    (h : gmap nat eviction.LRU.lruNode) : gmap nat eviction.LRU.lruNode :=
  let h := match c2 with
           | p :: _ => eviction.LRU.store_next p.1 (last_or c1 nx) h
           | [] => h
           end in
  match last_or c1 None with
  | Some q => eviction.LRU.store_prev q (first_or c2 e) h
  | None => h
  end.

(** A policy call that is not a read. *)
Definition not_a_read (o : policy_op) : Prop :=
  match o with
  | POnGet _ => False
  | _ => True
  end.

(** The LRU policy and the FIFO policy hold the same keys in the same
    order. *)
Definition lru_as_fifo (l : eviction.LRU.lru) (f : eviction.FIFO.fifo)
  : Prop :=
  ∃ cells, lru_cells cells l
           ∧ eviction.FIFO.queue f = cells.*2
           ∧ eviction.FIFO.set f = list_to_set cells.*2.

(** Inserts, a removal and evictions, with no read among them. *)
Definition writes_only : list policy_op :=
  [POnPut "a"; POnPut "b"; POnPut "c"; PRemove "b"; PEvict 0; POnPut "d";
   POnPut "a"; PEvict 0; PEvict 0; PEvict 0; PEvict 0].

End coverage.

Import coverage.

(** * The caches of the examples, as the constructor builds them *)

Lemma example_caches_are_new :
  cache.NewShardedCache 2 10 "LRU" test_engine = Some test_cache
  ∧ cache.NewShardedCache 1 2 "FIFO" plain_engine = Some fifo_cache
  ∧ cache.NewShardedCache 2 1 "FIFO" plain_engine = Some small_cache
  ∧ cache.NewShardedCache 1 2 "LRU" plain_engine = Some lru_cache.
Proof. repeat split. Qed.

(** * The copy-on-write store *)

Section cow_store.
Implicit Types (s : shard.cowStore) (m : gmap string CacheEntry).

Lemma copy_all m :
  map_fold (fun k v (n : gmap string CacheEntry) => <[k := v]> n) ∅ m = m.
Proof.
  apply (map_fold_weak_ind (fun r m => r = m)); [done|].
  by intros i x m' r _ ->.
Qed.

Lemma copy_except key m :
  map_fold (fun k v (n : gmap string CacheEntry) =>
              if decide (k ≠ key) then <[k := v]> n else n) ∅ m
  = delete key m.
Proof.
  apply (map_fold_weak_ind (fun r m => r = delete key m)).
  - by rewrite delete_empty.
  - intros i x m' r Hi ->. destruct (decide (i ≠ key)) as [Hne|Heq].
    + by rewrite delete_insert_ne.
    + apply dec_stable in Heq. subst i.
      rewrite delete_insert_eq. by rewrite (delete_id m').
Qed.

Lemma Put_data s key ent :
  shard.data (shard.Put s key ent) = <[key := ent]> (shard.data s).
Proof. unfold shard.Put. simpl. by rewrite copy_all. Qed.

Lemma Delete_data s key :
  shard.data (shard.Delete s key) = delete key (shard.data s).
Proof. unfold shard.Delete. simpl. by rewrite copy_except. Qed.

Lemma Put_Size s key ent :
  shard.Size (shard.Put s key ent)
  = Z.of_nat (size (<[key := ent]> (shard.data s))).
Proof. unfold shard.Put, shard.Size. simpl. by rewrite copy_all. Qed.

Lemma Delete_Size s key :
  shard.Size (shard.Delete s key) = Z.of_nat (size (delete key (shard.data s))).
Proof. unfold shard.Delete, shard.Size. simpl. by rewrite copy_except. Qed.

Lemma counted_new : counted shard.NewCOWStore.
Proof. done. Qed.

Lemma counted_Put s key ent : counted (shard.Put s key ent).
Proof. unfold counted. by rewrite Put_Size, Put_data. Qed.

Lemma counted_Delete s key : counted (shard.Delete s key).
Proof. unfold counted. by rewrite Delete_Size, Delete_data. Qed.

Lemma counted_run ops : counted (store_run ops).
Proof.
  unfold store_run. induction ops as [|o ops IH] using rev_ind.
  - apply counted_new.
  - rewrite fold_left_app. simpl. destruct o; simpl.
    + apply counted_Put.
    + apply counted_Delete.
Qed.

Lemma size_insert_dec m key ent :
  Z.of_nat (size (<[key := ent]> m))
  = Z.of_nat (size m) + (if decide (key ∈ dom m) then 0 else 1).
Proof.
  destruct (decide (key ∈ dom m)) as [Hin|Hout].
  - apply elem_of_dom in Hin as [x Hx].
    rewrite map_size_insert_Some by eauto. lia.
  - apply not_elem_of_dom in Hout.
    rewrite map_size_insert_None by done. lia.
Qed.

Lemma size_delete_dec m key :
  Z.of_nat (size (delete key m))
  = Z.of_nat (size m) - (if decide (key ∈ dom m) then 1 else 0).
Proof.
  destruct (decide (key ∈ dom m)) as [Hin|Hout].
  - apply elem_of_dom in Hin as [x Hx].
    rewrite map_size_delete_Some by eauto.
    assert (size m ≠ 0%nat).
    { intros Hz. apply map_size_empty_inv in Hz. subst m.
      by rewrite lookup_empty in Hx. }
    lia.
  - apply not_elem_of_dom in Hout.
    rewrite map_size_delete_None by done. lia.
Qed.

(** C10.  After any sequence of [Put] and [Delete] calls, [Size()] is
    the number of distinct keys of the published snapshot.  A further
    [Put] adds one to the size exactly when its key is new, so a [Put]
    of a key that is present leaves the size unchanged; a further
    [Delete] removes its key from the key set and takes one from the
    size exactly when the key was present, so a [Delete] of an absent
    key leaves the key set and the size unchanged. *)
Theorem cowStore_Size_counts_keys (ops : list store_op) (key : string)
    (ent : CacheEntry) :
  let s := store_run ops in
  shard.Size s = Z.of_nat (size (dom (shard.data s)))
  ∧ dom (shard.data (shard.Put s key ent)) = {[key]} ∪ dom (shard.data s)
  ∧ shard.Size (shard.Put s key ent)
    = shard.Size s + (if decide (key ∈ dom (shard.data s)) then 0 else 1)
  ∧ dom (shard.data (shard.Delete s key)) = dom (shard.data s) ∖ {[key]}
  ∧ shard.Size (shard.Delete s key)
    = shard.Size s - (if decide (key ∈ dom (shard.data s)) then 1 else 0)
  ∧ (if decide (key ∈ dom (shard.data s))
     then True
     else dom (shard.data (shard.Delete s key)) = dom (shard.data s)).
Proof.
  intros s. pose proof (counted_run ops : counted s) as Hs.
  unfold counted in Hs.
  split; [by rewrite size_dom|].
  split; [by rewrite Put_data, dom_insert_L|].
  split; [by rewrite Put_Size, size_insert_dec, Hs|].
  split; [by rewrite Delete_data, dom_delete_L|].
  split; [by rewrite Delete_Size, size_delete_dec, Hs|].
  destruct (decide (key ∈ dom (shard.data s))) as [|Hout]; [done|].
  rewrite Delete_data, dom_delete_L.
  by apply difference_disjoint_L, disjoint_singleton_r.
Qed.

End cow_store.

(** * The expire-after-access strategy *)

Section sliding_ttl.
Variable TTL : Z.
Let s := expiration.ExpireAfterAccess TTL.

Lemma IsExpired_iff ent now :
  expiration.IsExpired s ent now = true
  ↔ ExpireAt ent ≠ 0 ∧ ExpireAt ent < now.
Proof.
  simpl. unfold expiration.ExpireAfterAccess.IsExpired,
    GoTime.IsZero, GoTime.After.
  rewrite andb_true_iff, negb_true_iff, Z.eqb_neq, Z.ltb_lt. tauto.
Qed.

(** C3.  For the strategy with parameter [TTL]: [IsExpired] holds
    exactly when the expiry is set and [now] is past it; [OnWrite]
    stamps [CreatedAt] and [LastAccessedAt] with [now] and sets the
    expiry to [now + TTL] when none is set, keeping an expiry that is
    already set; [OnAccess] sets the expiry to [now + TTL] whatever it
    was.  Neither hook touches the key or the value. *)
Theorem ExpireAfterAccess_contract (ent : CacheEntry) (now : Z) :
  (expiration.IsExpired s ent now = true
     ↔ ExpireAt ent ≠ 0 ∧ ExpireAt ent < now)
  ∧ CreatedAt (expiration.OnWrite s ent now) = now
  ∧ LastAccessedAt (expiration.OnWrite s ent now) = now
  ∧ ExpireAt (expiration.OnWrite s ent now)
    = (if decide (ExpireAt ent = 0) then now + TTL else ExpireAt ent)
  ∧ ExpireAt (expiration.OnAccess s ent now) = now + TTL
  ∧ LastAccessedAt (expiration.OnAccess s ent now) = now
  ∧ Key (expiration.OnWrite s ent now) = Key ent
  ∧ Value (expiration.OnWrite s ent now) = Value ent
  ∧ Key (expiration.OnAccess s ent now) = Key ent
  ∧ Value (expiration.OnAccess s ent now) = Value ent.
Proof.
  split; [apply IsExpired_iff|].
  simpl. unfold expiration.ExpireAfterAccess.OnWrite,
    expiration.ExpireAfterAccess.OnAccess, GoTime.IsZero, GoTime.Add.
  simpl. destruct (decide (ExpireAt ent = 0)) as [Hz|Hnz].
  - rewrite Hz. simpl. repeat split.
  - apply Z.eqb_neq in Hnz. rewrite Hnz. simpl. repeat split.
Qed.

End sliding_ttl.

(** * The engine *)

Lemma app_singleton_neq {A : Type} (l : list A) (x : A) : l ++ [x] ≠ l.
Proof.
  intros Heq. apply (f_equal length) in Heq.
  rewrite length_app in Heq. simpl in Heq. lia.
Qed.

(** C2.  [OnWrite] runs the strategy's write hook first, and what happens
    next is decided by the expiry the hook left: with the expiry unset
    the write policy's [OnWrite] receives the key and the value of the
    entry, with the expiry set the engine is left as it was.  Seen from a
    write-through policy over a store that logs its [Put] calls: the log
    gains the pair of key and value exactly when the expiry is unset
    after the hook.  With the sliding strategy the hook sets the expiry
    to [now + TTL] on an entry that has none, so unless that instant is
    the zero time nothing is forwarded. *)
Theorem engine_OnWrite_forwards_iff_unset
    (exp : option expiration.Strategy) (refresh : bool)
    (p : writepolicy.WritePolicy) (log : list (string * any))
    (ent : CacheEntry) (now TTL : Z) :
  let hooked := match exp with
                | Some s => expiration.OnWrite s ent now
                | None => ent
                end in
  let e := engine.NewCacheEngine exp refresh PutLog log (Some p) in
  let through := engine.NewCacheEngine exp refresh PutLog log
                   (Some writepolicy.PWriteThrough) in
  let sliding := engine.NewCacheEngine
                   (Some (expiration.ExpireAfterAccess TTL)) refresh PutLog
                   log (Some writepolicy.PWriteThrough) in
  engine.OnWrite e ent now
  = (if GoTime.IsZero (ExpireAt hooked)
     then '(p', st) ← writepolicy.OnWrite PutLog p log
                                           (Key hooked) (Value hooked);
          Some (hooked, engine.with_policy p' st e)
     else Some (hooked, e))
  ∧ (∃ e', engine.OnWrite through ent now = Some (hooked, e')
           ∧ (engine.Backing e' = log ++ [(Key hooked, Value hooked)]
              ↔ ExpireAt hooked = 0)
           ∧ (engine.Backing e' = log ↔ ExpireAt hooked ≠ 0))
  ∧ (if decide (ExpireAt ent = 0 ∧ now + TTL = 0)
     then engine.OnWrite sliding ent now
          = Some (expiration.OnWrite (expiration.ExpireAfterAccess TTL) ent now,
                  engine.with_policy writepolicy.PWriteThrough
                    (log ++ [(Key ent, Value ent)]) sliding)
     else engine.OnWrite sliding ent now
          = Some (expiration.OnWrite (expiration.ExpireAfterAccess TTL) ent now,
                  sliding)).
Proof.
  intros hooked e through sliding. split; [|split].
  - unfold engine.OnWrite. simpl. fold hooked.
    by destruct (GoTime.IsZero (ExpireAt hooked)).
  - unfold engine.OnWrite. simpl. fold hooked.
    unfold GoTime.IsZero, writepolicy.WriteThrough.OnWrite. simpl.
    destruct (decide (ExpireAt hooked = 0)) as [Hz|Hnz].
    + rewrite Hz. simpl. eexists. split; [done|]. simpl.
      split; [done|]. split; [|done].
      intros Heq. by apply app_singleton_neq in Heq.
    + pose proof Hnz as Hb. apply Z.eqb_neq in Hb. rewrite Hb. simpl.
      eexists. split; [done|]. simpl. split; [|done].
      split; [|done]. intros Heq. symmetry in Heq.
      by apply app_singleton_neq in Heq.
  - unfold engine.OnWrite. simpl.
    unfold expiration.ExpireAfterAccess.OnWrite, GoTime.IsZero, GoTime.Add.
    simpl. destruct (decide (ExpireAt ent = 0 ∧ now + TTL = 0)) as [[Hz Hs]|Hn].
    + rewrite Hz. simpl. rewrite Hs. simpl. done.
    + destruct (decide (ExpireAt ent = 0)) as [Hz|Hnz].
      * rewrite Hz. simpl.
        assert (now + TTL ≠ 0) as Hb by tauto.
        apply Z.eqb_neq in Hb. by rewrite Hb.
      * apply Z.eqb_neq in Hnz. rewrite Hnz. simpl. by rewrite Hnz.
Qed.

(** * [TTL] *)

Section ttl.
Context {S : Type}.
Implicit Types (c : cache.ShardedCache S).

(** What [TTL] returns for a key held by its shard: [-1] without an
    expiry, [-2] with an expiry in the past, and otherwise the
    remaining time, positive when the expiry is in the future. *)
Lemma TTL_present c key now i sh ent :
  shard.Select key (cache.shards c) = Some i →
  cache.shards c !! i = Some sh →
  shard.Get (shard.Store sh) key = Some ent →
  (ExpireAt ent = 0 → cache.TTL c key now = Some (-1))
  ∧ (ExpireAt ent ≠ 0 → ExpireAt ent < now →
     cache.TTL c key now = Some (-2))
  ∧ (ExpireAt ent ≠ 0 → now < ExpireAt ent →
     ∃ d, cache.TTL c key now = Some d ∧ 0 < d
          ∧ d = Z.min (ExpireAt ent - now) GoTime.maxDuration).
Proof.
  intros Hi Hsh Hent. unfold cache.TTL. rewrite Hi. simpl.
  rewrite Hsh. simpl. rewrite Hent.
  unfold GoTime.IsZero, GoTime.Until, GoTime.Sub,
    GoTime.minDuration, GoTime.maxDuration.
  split; [|split].
  - intros ->. done.
  - intros Hnz Hlt. apply Z.eqb_neq in Hnz. rewrite Hnz.
    destruct (Z.ltb_spec (ExpireAt ent - now) (- 2 ^ 63)); [done|].
    destruct (Z.ltb_spec (2 ^ 63 - 1) (ExpireAt ent - now)); [lia|].
    destruct (Z.ltb_spec (ExpireAt ent - now) 0); [done|lia].
  - intros Hnz Hgt. apply Z.eqb_neq in Hnz. rewrite Hnz.
    destruct (Z.ltb_spec (ExpireAt ent - now) (- 2 ^ 63)); [lia|].
    destruct (Z.ltb_spec (2 ^ 63 - 1) (ExpireAt ent - now)).
    + eexists. split; [done|]. lia.
    + destruct (Z.ltb_spec (ExpireAt ent - now) 0); [lia|].
      eexists. split; [done|]. lia.
Qed.

(** For a key its shard does not hold, [TTL] returns [-1]. *)
Lemma TTL_absent c key now i sh :
  shard.Select key (cache.shards c) = Some i →
  cache.shards c !! i = Some sh →
  shard.Get (shard.Store sh) key = None →
  cache.TTL c key now = Some (-1).
Proof.
  intros Hi Hsh Hent. unfold cache.TTL. rewrite Hi. simpl.
  rewrite Hsh. simpl. by rewrite Hent.
Qed.

End ttl.

(** C1.  On a cache that was just built the key ["missing"] is in no
    shard, and [TTL] answers [-1], the value documented for a key that
    exists without an expiry, where the interface documents [-2]. *)
Theorem TTL_absent_key_returns_minus_one (now : Z) :
  (c ← cache.NewShardedCache 2 10 "LRU" plain_engine;
   cache.TTL c "missing" now) = Some (-1).
Proof. reflexivity. Qed.

(** * The eviction policies on concrete call sequences *)

Section lfu_buckets.
Import eviction.LFU.
Implicit Types (fm : gmap Z (gset string)) (l : lfu).

Lemma bucket_delete_elem fm f k f' k' :
  k' ∈ bucket (bucket_delete f k fm) f'
  ↔ k' ∈ bucket fm f' ∧ ¬ (f' = f ∧ k' = k).
Proof.
  unfold bucket_delete, bucket.
  destruct (fm !! f) as [b|] eqn:Hb.
  - destruct (decide (f' = f)) as [->|Hne].
    + rewrite lookup_insert_eq, Hb. simpl. set_solver.
    + rewrite lookup_insert_ne by done. tauto.
  - destruct (decide (f' = f)) as [->|Hne]; [|tauto].
    rewrite Hb. simpl. set_solver.
Qed.

Lemma bucket_add_elem fm f k f' k' :
  k' ∈ bucket (bucket_add f k fm) f'
  ↔ k' ∈ bucket fm f' ∨ (f' = f ∧ k' = k).
Proof.
  unfold bucket_add. unfold bucket at 1.
  destruct (decide (f' = f)) as [->|Hne].
  - rewrite lookup_insert_eq. simpl. set_solver.
  - rewrite lookup_insert_ne by done. fold (bucket fm f'). tauto.
Qed.

Lemma bucket_drop_empty fm f f' k' :
  bucket fm f = ∅ →
  k' ∈ bucket (delete f fm) f' ↔ k' ∈ bucket fm f'.
Proof.
  intros He. unfold bucket at 1.
  destruct (decide (f' = f)) as [->|Hne].
  - rewrite lookup_delete_eq, He. simpl. done.
  - rewrite lookup_delete_ne by done. done.
Qed.

Lemma lfu_inv_new : lfu_inv newLFU.
Proof.
  split; simpl.
  - intros k f. unfold bucket. rewrite !lookup_empty. simpl. set_solver.
  - intros k f. by rewrite lookup_empty.
Qed.

Lemma lfu_inv_OnPut k l : lfu_inv l → lfu_inv (OnPut k l).
Proof.
  intros [Hb Hm]. unfold OnPut.
  destruct (nodes l !! k) as [f0|] eqn:Hk; [done|].
  split; simpl.
  - intros k' f. rewrite bucket_add_elem, <- Hb.
    destruct (decide (k' = k)) as [->|Hne].
    + rewrite lookup_insert_eq, Hk. split.
      * intros [= <-]. by right.
      * intros [?|[-> _]]; done.
    + rewrite lookup_insert_ne by done. split; [by left|].
      intros [?|[_ ?]]; done.
  - intros k' f. destruct (decide (k' = k)) as [->|Hne].
    + rewrite lookup_insert_eq. intros [= <-]. lia.
    + rewrite lookup_insert_ne by done. intros Hf.
      apply Hm in Hf. lia.
Qed.

Lemma lfu_inv_Remove k l : lfu_inv l → lfu_inv (Remove k l).
Proof.
  intros [Hb Hm]. unfold Remove.
  destruct (nodes l !! k) as [f0|] eqn:Hk; [|done].
  split; simpl.
  - intros k' f. rewrite bucket_delete_elem, <- Hb.
    destruct (decide (k' = k)) as [->|Hne].
    + rewrite lookup_delete_eq, Hk. split; [done|].
      intros [[= ->] Hn]. by destruct Hn.
    + rewrite lookup_delete_ne by done. split; [|tauto].
      intros Hf. split; [done|]. by intros [_ ?].
  - intros k' f. destruct (decide (k' = k)) as [->|Hne].
    + by rewrite lookup_delete_eq.
    + rewrite lookup_delete_ne by done. apply Hm.
Qed.

Lemma lfu_inv_Evict pick l : lfu_inv l → lfu_inv (Evict pick l).2.
Proof.
  intros Hl. pose proof Hl as [Hb Hm]. unfold Evict.
  destruct (elements _ !! _) as [k|] eqn:Hk; [|done].
  apply list_elem_of_lookup_2, elem_of_elements, Hb in Hk.
  pose proof (lfu_inv_Remove k l Hl) as Hr.
  unfold Remove in Hr. by rewrite Hk in Hr.
Qed.

Lemma lfu_inv_OnGet k l : lfu_inv l → lfu_inv (OnGet k l).
Proof.
  intros [Hb Hm]. unfold OnGet.
  destruct (nodes l !! k) as [old|] eqn:Hk; [|done].
  set (fm1 := bucket_delete old k (freqMap l)).
  assert (∀ k' f, k' ∈ bucket fm1 f ↔ k' ≠ k ∧ nodes l !! k' = Some f)
    as H1.
  { intros k' f. unfold fm1. rewrite bucket_delete_elem, <- Hb.
    split.
    - intros [Hf Hn]. split; [|done]. intros ->.
      rewrite Hk in Hf. injection Hf as <-. by apply Hn.
    - intros [Hne Hf]. split; [done|]. by intros [_ ?]. }
  destruct (decide (size (bucket fm1 old) = 0%nat)) as [He|Hne].
  - apply size_empty_inv, leibniz_equiv in He.
    split; simpl.
    + intros k' f. rewrite bucket_add_elem, (bucket_drop_empty _ _ _ _ He), H1.
      destruct (decide (k' = k)) as [->|Hnk].
      * rewrite lookup_insert_eq. split.
        -- intros [= <-]. by right.
        -- intros [[? _]|[-> _]]; done.
      * rewrite lookup_insert_ne by done. split; [by left|].
        intros [[_ ?]|[_ ?]]; done.
    + intros k' f. destruct (decide (k' = k)) as [->|Hnk].
      * rewrite lookup_insert_eq. intros [= <-].
        apply Hm in Hk. case_decide; lia.
      * rewrite lookup_insert_ne by done. intros Hf.
        pose proof (Hm _ _ Hf) as [Hge H1f].
        assert (f ≠ old) as Hfo.
        { intros ->. assert (k' ∈ bucket fm1 old) as Hin by by apply H1.
          rewrite He in Hin. set_solver. }
        case_decide; lia.
  - split; simpl.
    + intros k' f. rewrite bucket_add_elem, H1.
      destruct (decide (k' = k)) as [->|Hnk].
      * rewrite lookup_insert_eq. split.
        -- intros [= <-]. by right.
        -- intros [[? _]|[-> _]]; done.
      * rewrite lookup_insert_ne by done. split; [by left|].
        intros [[_ ?]|[_ ?]]; done.
    + intros k' f. destruct (decide (k' = k)) as [->|Hnk].
      * rewrite lookup_insert_eq. intros [= <-]. apply Hm in Hk. lia.
      * rewrite lookup_insert_ne by done. apply Hm.
Qed.

(** Every LFU policy reached by calls of its four methods keeps its
    index and buckets in agreement. *)
Lemma lfu_inv_run ops : ∀ l outs p,
  lfu_inv l →
  policy_run ops (eviction.PLFU l) = (outs, p) →
  ∃ l', p = eviction.PLFU l' ∧ lfu_inv l'.
Proof.
  induction ops as [|o ops IH]; intros l outs p Hl; simpl.
  - intros [= _ <-]. eauto.
  - destruct o as [k|k|k|pick]; simpl.
    + destruct (policy_run ops _) as [outs' p'] eqn:E. intros [= _ <-].
      eapply IH; [|exact E]. by apply lfu_inv_OnGet.
    + destruct (policy_run ops _) as [outs' p'] eqn:E. intros [= _ <-].
      eapply IH; [|exact E]. by apply lfu_inv_OnPut.
    + destruct (policy_run ops _) as [outs' p'] eqn:E. intros [= _ <-].
      eapply IH; [|exact E]. by apply lfu_inv_Remove.
    + pose proof (lfu_inv_Evict pick l Hl) as He.
      destruct (Evict pick l) as [k l1]. simpl in *.
      destruct (policy_run ops _) as [outs' p'] eqn:E. intros [= _ <-].
      eapply IH; [|exact E]. done.
Qed.

(** X9.  After any sequence of calls, an [Evict] that finds the bucket
    of [minFreq] non-empty returns a tracked key of that bucket, and no
    tracked key has a lower frequency; on an empty bucket it returns the
    empty string and changes nothing. *)
Lemma LFU_Evict_minimal ops outs l pick :
  policy_run ops (eviction.PLFU newLFU) = (outs, eviction.PLFU l) →
  let b := bucket (freqMap l) (minFreq l) in
  (b ≠ ∅ →
   nodes l !! (Evict pick l).1 = Some (minFreq l)
   ∧ ∀ k' f', nodes l !! k' = Some f' → minFreq l <= f')
  ∧ (b = ∅ → Evict pick l = (""%string, l)).
Proof.
  intros Hrun b.
  destruct (lfu_inv_run ops newLFU outs _ lfu_inv_new Hrun)
    as (l' & [= <-] & [Hb Hm]).
  unfold Evict. fold b. split.
  - intros Hne.
    assert (pick mod length (elements b) < length (elements b))%nat as Hlt.
    { apply Nat.mod_upper_bound. intros Hz.
      apply length_zero_iff_nil, elements_empty_inv, leibniz_equiv in Hz.
      done. }
    destruct (lookup_lt_is_Some_2 _ _ Hlt) as [k Hk]. rewrite Hk. simpl.
    apply list_elem_of_lookup_2, elem_of_elements in Hk.
    split; [by apply Hb|]. intros k' f' Hf. by apply Hm in Hf as [? _].
  - intros He. by rewrite He, elements_empty.
Qed.

End lfu_buckets.

(** C4.  After [OnPut a; OnGet a; OnPut b] the first [Evict] returns [b],
    the only key of frequency 1, and leaves [minFreq] at 1 with an empty
    bucket; the second [Evict] returns the empty string although [a] is
    still tracked, whatever the runtime picks. *)
Theorem LFU_Evict_empty_while_key_tracked (pick1 pick2 : nat) :
  policy_run [POnPut "a"; POnGet "a"; POnPut "b"; PEvict pick1; PEvict pick2]
             (eviction.PLFU eviction.LFU.newLFU)
  = (["b"; ""]%string,
     eviction.PLFU
       (eviction.LFU.mkLFU {["a"%string := 2]} {[2 := {["a"%string]}; 1 := ∅]} 1))
  ∧ tracked (eviction.PLFU
      (eviction.LFU.mkLFU {["a"%string := 2]} {[2 := {["a"%string]}; 1 := ∅]} 1))
    = {["a"%string]}.
Proof. split; by vm_compute. Qed.

(** C5.  After [OnPut a; OnPut b; OnGet a; OnGet a] the second
    [moveToFront] of [a] follows the stale [prev] pointer the first one
    left behind and ties both nodes into self-loops.  The next [Evict]
    returns [b] and leaves [tail] on the node of [b]; the [Evict] after
    it returns [b] again, a key that is no longer tracked, while [a], the
    only tracked key, stays. *)
Theorem LRU_Evict_returns_untracked_key :
  let '(outs1, p1) :=
    policy_run [POnPut "a"; POnPut "b"; POnGet "a"; POnGet "a"; PEvict 0]
               (eviction.PLRU eviction.LRU.newLRU) in
  let '(outs2, p2) := policy_run [PEvict 0] p1 in
  outs1 = ["b"%string] ∧ tracked p1 = {["a"%string]}
  ∧ outs2 = ["b"%string] ∧ tracked p2 = {["a"%string]}.
Proof. by vm_compute. Qed.

(** [OnPut] of a key the LRU policy already tracks changes nothing, so
    it does not refresh the key's recency. *)
Lemma LRU_OnPut_tracked_is_noop (k : string) (l : eviction.LRU.lru) (n : nat) :
  eviction.LRU.nodes l !! k = Some n → eviction.LRU.OnPut k l = l.
Proof. intros Hk. unfold eviction.LRU.OnPut. by rewrite Hk. Qed.

(** Keys that were never read leave the LRU policy in the order of their
    insertion, and a key that was read once leaves after them. *)
Lemma LRU_evicts_in_insertion_order :
  (policy_run [POnPut "a"; POnPut "b"; POnPut "c"; POnPut "b";
               PEvict 0; PEvict 0; PEvict 0; PEvict 0]
              (eviction.PLRU eviction.LRU.newLRU)).1
  = ["a"; "b"; "c"; ""]%string
  ∧ (policy_run [POnPut "a"; POnPut "b"; POnPut "c"; POnGet "a";
                 PEvict 0; PEvict 0]
                (eviction.PLRU eviction.LRU.newLRU)).1
    = ["b"; "c"]%string.
Proof. split; by vm_compute. Qed.

(** * The write-back policy *)

Section write_back.
Import writepolicy.WriteBack.
Context {B : Type} (store : Loader B).
Implicit Types (w : WriteBackPolicy) (st : B) (evs : list event).

Lemma forward_app rs1 rs2 st :
  forward store (rs1 ++ rs2) st = forward store rs2 (forward store rs1 st).
Proof. unfold forward. by rewrite fold_left_app. Qed.

Lemma open_inv_write w key value :
  open_inv w →
  (length (ch w) < cap w)%nat →
  ∃ w', OnWrite w key value = Some w'
        ∧ open_inv w' ∧ cap w' = cap w
        ∧ pending w' = pending w ++ [(key, value)]
        ∧ (length (ch w') <= S (length (ch w)))%nat.
Proof.
  intros (Hopen & Hpark & Hex) Hlt. unfold OnWrite. rewrite Hopen.
  destruct (wk w) eqn:Hwk.
  - apply Nat.ltb_lt in Hlt. rewrite Hlt. eexists. split; [done|].
    unfold open_inv, pending. simpl. rewrite Hwk, length_app. simpl.
    repeat split; try done; lia.
  - eexists. split; [done|]. unfold open_inv, pending. simpl.
    rewrite Hwk, (Hpark eq_refl). repeat split; try done. lia.
  - apply Nat.ltb_lt in Hlt. rewrite Hlt. eexists. split; [done|].
    unfold open_inv, pending. simpl. rewrite Hwk, length_app. simpl.
    repeat split; try done; lia.
  - done.
Qed.

Lemma open_inv_worker w st :
  open_inv w →
  let '(w', st') := worker_step store (w, st) in
  open_inv w' ∧ cap w' = cap w
  ∧ forward store (pending w') st' = forward store (pending w) st
  ∧ (length (ch w') <= length (ch w))%nat.
Proof.
  intros (Hopen & Hpark & Hex). unfold worker_step, open_inv, pending.
  destruct (wk w) eqn:Hwk.
  - destruct (ch w) as [|r q] eqn:Hch; simpl.
    + rewrite Hopen, Hch. simpl. repeat split; try done.
    + repeat split; try done. lia.
  - rewrite Hwk. repeat split; try done.
  - simpl. repeat split; try done.
  - done.
Qed.

(** Any schedule whose writes fit into the free slots of the buffer
    runs without a panic and without a drop: what the worker has not
    yet written is still pending, in the order of the writes. *)
Lemma run_keeps_all evs : ∀ w st,
  open_inv w →
  (length (ch w) + length (writes_of evs) <= cap w)%nat →
  ∃ w' st', run store evs (w, st) = Some (w', st')
            ∧ open_inv w' ∧ cap w' = cap w
            ∧ forward store (pending w') st'
              = forward store (pending w ++ writes_of evs) st.
Proof.
  induction evs as [|e evs IH]; intros w st Hinv Hfit.
  - exists w, st. simpl. by rewrite app_nil_r.
  - destruct e as [key value|].
    + simpl in *. destruct (open_inv_write w key value Hinv) as (w1 & E & I1 & C1 & P1 & L1);
        [lia|].
      rewrite E. simpl.
      destruct (IH w1 st I1) as (w' & st' & R & I' & C' & F'); [lia|].
      exists w', st'. rewrite R, C', C1, F', P1, <- app_assoc. done.
    + change (run store (EvWorker :: evs) (w, st))
        with (run store evs (worker_step store (w, st))).
      change (writes_of (EvWorker :: evs)) with (writes_of evs) in *.
      pose proof (open_inv_worker w st Hinv) as Hw.
      destruct (worker_step store (w, st)) as [w1 st1].
      destruct Hw as (I1 & C1 & F1 & L1).
      destruct (IH w1 st1 I1) as (w' & st' & R & I' & C' & F'); [lia|].
      exists w', st'. rewrite R, C', C1, F'.
      by rewrite !forward_app, F1.
Qed.

(** Once the channel is closed the worker needs [drain_steps] steps to
    write what is pending and return. *)
Lemma drain n : ∀ w st,
  closed w = true → wk w ≠ Parked → (wk w = Exited → ch w = []) →
  (drain_steps w <= n)%nat →
  let '(w', st') := Nat.iter n (worker_step store) (w, st) in
  wk w' = Exited ∧ ch w' = [] ∧ closed w' = true ∧ cap w' = cap w
  ∧ st' = forward store (pending w) st.
Proof.
  induction n as [|n IH]; intros w st Hcl Hpk Hex Hn.
  - simpl. unfold drain_steps in Hn. unfold pending.
    destruct (wk w) eqn:Hwk; try lia; try done.
    rewrite (Hex eq_refl). done.
  - rewrite Nat.iter_succ_r. unfold drain_steps in Hn.
    unfold worker_step at 2. unfold pending.
    destruct (wk w) eqn:Hwk; [| done | |].
    + destruct (ch w) as [|r q] eqn:Hch.
      * rewrite Hcl.
        specialize (IH (with_wk Exited w) st).
        destruct (Nat.iter n _ _) as [w' st'].
        unfold pending, drain_steps in IH. simpl in IH. rewrite Hch in IH.
        apply IH; try done. simpl. lia.
      * specialize (IH (mkWB q (cap w) (closed w) (Holding r)) st).
        destruct (Nat.iter n _ _) as [w' st'].
        unfold pending, drain_steps in IH. simpl in IH.
        apply IH; try done. simpl in Hn. lia.
    + specialize (IH (with_wk Running w)
                     (snd (Put store st (fst r) (snd r)))).
      destruct (Nat.iter n _ _) as [w' st'].
      unfold pending, drain_steps in IH. simpl in IH.
      apply IH; try done. lia.
    + specialize (IH w st).
      destruct (Nat.iter n _ _) as [w' st'].
      unfold pending, drain_steps in IH. rewrite Hwk in IH.
      apply IH; try done. rewrite (Hex eq_refl). simpl. lia.
Qed.

Lemma Close_drains w st :
  open_inv w →
  ∃ w' st', Close store (w, st) = Some (w', st')
            ∧ wk w' = Exited ∧ ch w' = [] ∧ closed w' = true
            ∧ st' = forward store (pending w) st.
Proof.
  intros (Hopen & Hpark & Hex). unfold Close, close_ch. rewrite Hopen.
  simpl.
  set (w1 := mkWB (ch w) (cap w) true
                  (match wk w with Parked => Exited | k => k end)).
  assert (closed w1 = true) as H1 by done.
  assert (wk w1 ≠ Parked) as H2.
  { unfold w1. simpl. by destruct (wk w). }
  assert (wk w1 = Exited → ch w1 = []) as H3.
  { unfold w1. simpl. destruct (wk w) eqn:Hwk; try done; auto. }
  assert (drain_steps w1 <= 2 * length (ch w) + 2)%nat as H4.
  { unfold drain_steps, w1. simpl. destruct (wk w); lia. }
  assert (pending w1 = pending w) as H5.
  { unfold pending, w1. simpl. by destruct (wk w). }
  pose proof (drain (2 * length (ch w) + 2) w1 st H1 H2 H3 H4) as Hd.
  destruct (Nat.iter _ _ _) as [w' st']. simpl.
  destruct Hd as (Hx & Hch & Hcl & _ & Hst).
  rewrite Hx. exists w', st'. by rewrite Hst, H5.
Qed.

(** C9.  Start a write-back policy with a buffer of size [buffer] and
    let the producers issue their writes while the worker takes steps,
    in any interleaving.  If the writes are no more than [buffer], none
    is dropped and the run does not panic; [Close] then returns, with
    the worker exited, the queue empty and every write forwarded to the
    backing store's [Put], in the order of the writes.  After [Close]
    a write is not accepted: the send on the closed channel panics. *)
Theorem WriteBack_Close_forwards_all (st0 : B) (buffer : Z) evs :
  Z.of_nat (length (writes_of evs)) <= buffer →
  ∃ w0 w1 st1 w2 st2,
    NewWriteBackPolicy buffer = Some w0
    ∧ run store evs (w0, st0) = Some (w1, st1)
    ∧ Close store (w1, st1) = Some (w2, st2)
    ∧ st2 = forward store (writes_of evs) st0
    ∧ wk w2 = Exited ∧ ch w2 = []
    ∧ ∀ key value, OnWrite w2 key value = None.
Proof.
  intros HM. unfold NewWriteBackPolicy.
  destruct (Z.ltb_spec buffer 0) as [|Hb]; [lia|].
  set (w0 := mkWB [] (Z.to_nat buffer) false Running).
  assert (open_inv w0) as I0 by done.
  destruct (run_keeps_all evs w0 st0 I0) as (w1 & st1 & R & I1 & C1 & F1).
  { simpl. lia. }
  destruct (Close_drains w1 st1 I1) as (w2 & st2 & Cl & Hx & Hch & Hcl & Hst).
  exists w0, w1, st1, w2, st2. repeat split; try done.
  - by rewrite Hst, F1.
  - intros key value. unfold OnWrite. by rewrite Hcl.
Qed.

End write_back.

(** The policy of the test suite: a buffer of 1024 over a store that
    logs its [Put] calls, two writes and a worker step in between. *)
Lemma WriteBack_Close_forwards_all_witness :
  ∃ w0 w1 st1 w2 st2,
    writepolicy.WriteBack.NewWriteBackPolicy 1024 = Some w0
    ∧ writepolicy.WriteBack.run PutLog
        [writepolicy.WriteBack.EvWrite "k1" (aint 1);
         writepolicy.WriteBack.EvWorker;
         writepolicy.WriteBack.EvWrite "k2" (aint 2)] (w0, []) = Some (w1, st1)
    ∧ writepolicy.WriteBack.Close PutLog (w1, st1) = Some (w2, st2)
    ∧ st2 = writepolicy.WriteBack.forward PutLog
              (writepolicy.WriteBack.writes_of
                 [writepolicy.WriteBack.EvWrite "k1" (aint 1);
                  writepolicy.WriteBack.EvWorker;
                  writepolicy.WriteBack.EvWrite "k2" (aint 2)]) []
    ∧ writepolicy.WriteBack.wk w2 = writepolicy.WriteBack.Exited
    ∧ writepolicy.WriteBack.ch w2 = []
    ∧ ∀ key value, writepolicy.WriteBack.OnWrite w2 key value = None.
Proof.
  apply (WriteBack_Close_forwards_all PutLog [] 1024
           [writepolicy.WriteBack.EvWrite "k1" (aint 1);
            writepolicy.WriteBack.EvWorker;
            writepolicy.WriteBack.EvWrite "k2" (aint 2)]).
  simpl. lia.
Defined.

(** * The facade *)

Section selector.

Lemma hash_range key : 0 <= shard.hash key < 2 ^ 32.
Proof.
  unfold shard.hash.
  assert (0 <= shard.offset32 < 2 ^ 32) as H0 by (unfold shard.offset32; lia).
  revert H0. generalize shard.offset32.
  induction (list_ascii_of_string key) as [|a l IH]; intros h Hh; [done|].
  simpl. apply IH. apply Z.mod_pos_bound. lia.
Qed.

Lemma Select_lt key (l : list shard.Shard) i :
  shard.Select key l = Some i → (i < length l)%nat.
Proof.
  unfold shard.Select. destruct l as [|a l]; [done|].
  intros [= <-]. pose proof (hash_range key) as [Hh _].
  assert (0 < Z.of_nat (length (a :: l))) as Hn by (simpl; lia).
  pose proof (Z.rem_bound_pos (shard.hash key) _ Hh Hn) as Hr.
  change (length (a :: l)) with (S (length l)) in *.
  apply Nat2Z.inj_lt. rewrite Z2Nat.id; lia.
Qed.

Lemma Select_insert key (l : list shard.Shard) i sh :
  shard.Select key (<[i := sh]> l) = shard.Select key l.
Proof.
  unfold shard.Select. destruct l as [|a l]; [done|].
  destruct i; simpl; by rewrite ?length_insert.
Qed.

Lemma Select_is_Some key (l : list shard.Shard) :
  l ≠ [] → ∃ i sh, shard.Select key l = Some i ∧ l !! i = Some sh.
Proof.
  intros Hl. destruct (shard.Select key l) as [i|] eqn:E.
  - pose proof (Select_lt _ _ _ E) as Hlt.
    destruct (lookup_lt_is_Some_2 l i Hlt) as [sh Hsh]. eauto.
  - unfold shard.Select in E. by destruct l.
Qed.

End selector.

Section facade_facts.
Context {B : Type}.
Implicit Types (c : cache.ShardedCache B) (e : engine.CacheEngine B).

Lemma OnWrite_config e ent now ent' e' :
  engine.OnWrite e ent now = Some (ent', e') →
  engine.Expiration e' = engine.Expiration e
  ∧ engine.Refresh e' = engine.Refresh e
  ∧ engine.Loader e' = engine.Loader e
  ∧ engine.Metrics e' = engine.Metrics e
  ∧ ent' = match engine.Expiration e with
           | Some s => expiration.OnWrite s ent now
           | None => ent
           end.
Proof.
  unfold engine.OnWrite. intros H.
  destruct (negb _); [by inversion H|].
  destruct (engine.WritePolicy e) as [p|]; [|by inversion H].
  destruct (writepolicy.OnWrite _ _ _ _ _) as [[p' st]|];
    simpl in H; by inversion H.
Qed.

Lemma make_room_config c sh pick :
  engine.Expiration (cache.make_room c sh pick).2
  = engine.Expiration (cache.engine c)
  ∧ engine.Refresh (cache.make_room c sh pick).2
    = engine.Refresh (cache.engine c)
  ∧ engine.Loader (cache.make_room c sh pick).2
    = engine.Loader (cache.engine c).
Proof.
  unfold cache.make_room. destruct (_ <=? _); [|done].
  destruct (eviction.Evict _ _) as [k ev]. by destruct (decide _).
Qed.

(** What a [PutWithTTL] that returns has done. *)
Lemma PutWithTTL_inv c key value ttl now pick r :
  cache.PutWithTTL c key value ttl now pick = Some r →
  ∃ i sh ent e,
    shard.Select key (cache.shards c) = Some i
    ∧ cache.shards c !! i = Some sh
    ∧ engine.OnWrite (cache.make_room c sh pick).2
                     (cache.new_entry key value ttl now) now = Some (ent, e)
    ∧ r = (None,
           cache.with_engine e
             (cache.with_shard i
                (shard.mkShard
                   (shard.Put (shard.Store (cache.make_room c sh pick).1)
                              key ent)
                   (eviction.OnPut key
                      (shard.Eviction (cache.make_room c sh pick).1)))
                c)).
Proof.
  unfold cache.PutWithTTL. intros H.
  destruct (shard.Select key (cache.shards c)) as [i|]; [|done].
  simpl in H. destruct (cache.shards c !! i) as [sh|] eqn:Hsh; [|done].
  simpl in H. destruct (cache.make_room c sh pick) as [sh1 e1] eqn:M.
  destruct (engine.OnWrite e1 _ now) as [[ent e]|] eqn:E; [|done].
  simpl in H. inversion H. exists i, sh, ent, e. rewrite M. simpl.
  by rewrite E.
Qed.

(** The shard of a key right after a [PutWithTTL] of that key. *)
Lemma PutWithTTL_stored c key value ttl now pick err c' :
  cache.PutWithTTL c key value ttl now pick = Some (err, c') →
  err = None
  ∧ ∃ i sh ent,
      shard.Select key (cache.shards c') = Some i
      ∧ cache.shards c' !! i = Some sh
      ∧ shard.Get (shard.Store sh) key = Some ent
      ∧ ent = match engine.Expiration (cache.engine c) with
              | Some s => expiration.OnWrite s
                            (cache.new_entry key value ttl now) now
              | None => cache.new_entry key value ttl now
              end
      ∧ engine.Expiration (cache.engine c')
        = engine.Expiration (cache.engine c).
Proof.
  intros H. apply PutWithTTL_inv in H as (i & sh & ent & e & Hi & Hsh & Hw & Hr).
  inversion Hr. subst err c'. split; [done|].
  apply OnWrite_config in Hw as (Hexp & _ & _ & _ & Hent).
  destruct (make_room_config c sh pick) as (Hexp1 & _).
  eexists i, _, ent. simpl. rewrite Select_insert.
  split; [done|]. split.
  { apply list_lookup_insert_eq. by eapply Select_lt. }
  simpl. unfold shard.Get. rewrite Put_data, lookup_insert_eq.
  split; [done|]. rewrite <- Hexp1. split; [done|]. congruence.
Qed.

(** C6.  Let [Put(key, value)] return on a cache whose engine has no
    expiration strategy, or has the sliding strategy with a window
    [TTL] that has not run out between the two calls.  Then [Get(key)]
    on the resulting cache returns [value] and the nil error, whatever
    the eviction policy, the capacity and the other contents are. *)
Theorem Put_then_Get_returns_value c key value t1 t2 pick1 pick2 err c1 :
  cache.Put c key value t1 pick1 = Some (err, c1) →
  still_fresh (engine.Expiration (cache.engine c)) t1 t2 →
  err = None
  ∧ ∃ c2, cache.Get c1 key t2 pick2 = Some ((value, None), c2).
Proof.
  intros HP Hfresh. unfold cache.Put in HP.
  apply PutWithTTL_stored in HP as (-> & i & sh & ent & Hi & Hsh & Hg & Hent & Hexp).
  split; [done|]. unfold cache.Get. rewrite Hi. simpl. rewrite Hsh. simpl.
  rewrite Hg. unfold engine.IsExpired, engine.OnRead. simpl. rewrite Hexp.
  unfold still_fresh in Hfresh.
  destruct (engine.Expiration (cache.engine c)) as [s|].
  - destruct Hfresh as (TTL & -> & Hle). subst ent. simpl.
    unfold expiration.ExpireAfterAccess.IsExpired,
      expiration.ExpireAfterAccess.OnWrite, cache.new_entry,
      GoTime.IsZero, GoTime.After, GoTime.Add. simpl.
    assert ((t1 + TTL <? t2) = false) as -> by (apply Z.ltb_ge; lia).
    rewrite andb_false_r. eexists. done.
  - subst ent. eexists. done.
Qed.

(** A read of a key whose entry has expired removes the entry and
    goes on as a miss. *)
Lemma Get_expired c key now pick i sh ent :
  shard.Select key (cache.shards c) = Some i →
  cache.shards c !! i = Some sh →
  shard.Get (shard.Store sh) key = Some ent →
  engine.IsExpired (cache.engine c) ent now = true →
  cache.Get c key now pick
  = (c1 ← cache.Remove
            (cache.with_engine (engine.emit Expire (cache.engine c)) c) key;
     cache.load_miss c1 key now pick).
Proof.
  intros Hi Hsh Hg Hx. unfold cache.Get. rewrite Hi. simpl.
  rewrite Hsh. simpl. by rewrite Hg, Hx.
Qed.

(** A metric recorded before the write hook runs changes neither the
    entry the hook returns nor whether the write policy panics. *)
Lemma OnWrite_emit m e ent now :
  engine.OnWrite (engine.emit m e) ent now
  = (λ r, (r.1, engine.emit m r.2)) <$> engine.OnWrite e ent now.
Proof.
  unfold engine.OnWrite. simpl.
  destruct (negb _); [done|].
  destruct (engine.WritePolicy e) as [p|]; [|done].
  by destruct (writepolicy.OnWrite _ _ _ _ _) as [[p' st]|].
Qed.

(** [PutWithTTL] panics exactly when the write hook and policy do; when
    it returns, the shard of the key holds the entry the hook returned. *)
Lemma PutWithTTL_after_OnWrite c key value ttl now pick i sh :
  shard.Select key (cache.shards c) = Some i →
  cache.shards c !! i = Some sh →
  match engine.OnWrite (cache.engine c) (cache.new_entry key value ttl now)
                       now with
  | None => cache.PutWithTTL c key value ttl now pick = None
  | Some (ent, _) =>
      ∃ c' sh',
        cache.PutWithTTL c key value ttl now pick = Some (None, c')
        ∧ cache.shards c' !! i = Some sh'
        ∧ shard.Get (shard.Store sh') key = Some ent
  end.
Proof.
  intros Hi Hsh. pose proof (Select_lt _ _ _ Hi) as Hlt.
  unfold cache.PutWithTTL. rewrite Hi. simpl. rewrite Hsh. simpl.
  assert (∃ sh1 e1, cache.make_room c sh pick = (sh1, e1)
                    ∧ (e1 = cache.engine c
                       ∨ e1 = engine.emit Eviction (cache.engine c)))
    as (sh1 & e1 & -> & He1).
  { unfold cache.make_room. destruct (_ <=? _); [|eauto].
    destruct (eviction.Evict _ _) as [k ev]. destruct (decide _); eauto. }
  assert (engine.OnWrite e1 (cache.new_entry key value ttl now) now
          = (λ r, (r.1, r.2)) <$>
              engine.OnWrite e1 (cache.new_entry key value ttl now) now) as _.
  { by destruct (engine.OnWrite e1 _ now) as [[? ?]|]. }
  destruct He1 as [->| ->]; [|rewrite OnWrite_emit];
    destruct (engine.OnWrite (cache.engine c) _ now) as [[ent e]|];
    simpl; try done;
    (eexists _, _; split; [done|]; simpl; split;
     [by apply list_lookup_insert_eq|];
     unfold shard.Get; simpl; by rewrite copy_all, lookup_insert_eq).
Qed.

(** C7.  On a miss, that is when the shard of the key does not hold
    it, [Get] records the miss and calls the loader.  If the loader
    returns an error, [Get] returns nil and that error; if it returns
    nil without an error, [Get] returns nil and no error; in both
    cases the shards are those of before.  Only when the loader
    returns a value that is not nil and no error does [Get] go through
    [Put] with that value: it returns the value, and the shard of the
    key then holds the entry the write hook made of the key, the value
    and the time of the call.  [Get] fails to return in that case only
    where the write panics, on the closed channel of a write-back
    policy. *)
Theorem Get_miss_follows_loader c key now pick i sh :
  shard.Select key (cache.shards c) = Some i →
  cache.shards c !! i = Some sh →
  shard.Get (shard.Store sh) key = None →
  let '((val, err), st) :=
    Load (engine.Loader (cache.engine c))
         (engine.Backing (cache.engine c)) key in
  let c' :=
    cache.with_engine
      (engine.with_backing st (engine.emit Miss (cache.engine c))) c in
  cache.shards c' = cache.shards c
  ∧ match err, val with
    | Some msg, _ => cache.Get c key now pick = Some ((anil, Some msg), c')
    | None, anil => cache.Get c key now pick = Some ((anil, None), c')
    | None, _ =>
        match engine.OnWrite (cache.engine c')
                             (cache.new_entry key val 0 now) now with
        | None => cache.Get c key now pick = None
        | Some (ent, _) =>
            ∃ c'' sh'',
              cache.Get c key now pick = Some ((val, None), c'')
              ∧ cache.Put c' key val now pick = Some (None, c'')
              ∧ cache.shards c'' !! i = Some sh''
              ∧ shard.Get (shard.Store sh'') key = Some ent
              ∧ ent = match engine.Expiration (cache.engine c) with
                      | Some s =>
                          expiration.OnWrite s (mkEntry key val now now 0) now
                      | None => mkEntry key val now now 0
                      end
        end
    end.
Proof.
  intros Hi Hsh Hg. unfold cache.Get. rewrite Hi. simpl.
  rewrite Hsh. simpl. rewrite Hg.
  unfold cache.load_miss, engine.Load. simpl.
  destruct (Load _ _ key) as [[val err] st]. simpl. split; [done|].
  destruct err as [msg|]; [done|].
  set (c' := cache.with_engine
               (engine.with_backing st (engine.emit Miss (cache.engine c))) c).
  assert (match engine.OnWrite (cache.engine c')
                  (cache.new_entry key val 0 now) now with
          | None => cache.Put c' key val now pick = None
          | Some (ent, _) =>
              ∃ c'' sh'',
                cache.Put c' key val now pick = Some (None, c'')
                ∧ cache.shards c'' !! i = Some sh''
                ∧ shard.Get (shard.Store sh'') key = Some ent
                ∧ ent = match engine.Expiration (cache.engine c) with
                        | Some s =>
                            expiration.OnWrite s (mkEntry key val now now 0)
                                               now
                        | None => mkEntry key val now now 0
                        end
          end) as HP.
  { pose proof (PutWithTTL_after_OnWrite c' key val 0 now pick i sh Hi Hsh)
      as H.
    destruct (engine.OnWrite (cache.engine c') _ now) as [[ent e]|] eqn:E;
      [|done].
    destruct H as (c'' & sh'' & HP & Hl & Hget). exists c'', sh''.
    repeat (split; [done|]).
    by apply OnWrite_config in E as (_ & _ & _ & _ & ->). }
  destruct val; [done|..];
    rewrite bool_decide_eq_false_2 by (by intros H); cbn [is_nil orb];
    change (cache.with_engine
              (engine.with_backing st (engine.emit Miss (cache.engine c)))
              (cache.with_engine (engine.emit Miss (cache.engine c)) c))
      with c';
    change (engine.with_backing st (engine.emit Miss (cache.engine c)))
      with (cache.engine c');
    (destruct (engine.OnWrite (cache.engine c') _ now) as [[ent e]|];
     [destruct HP as (c'' & sh'' & HP & Hl & Hget & Hent);
      exists c'', sh''; by rewrite HP
     |by rewrite HP]).
Qed.

End facade_facts.

(** The cache of the test suite: [Put("key1", "value1")] at time 100 and
    [Get("key1")] at time 105. *)
Lemma Put_then_Get_returns_value_witness :
  @None string = None
  ∧ ∃ c2, cache.Get test_cache_put "key1" 105 0
          = Some ((astring "value1", None), c2).
Proof.
  apply (Put_then_Get_returns_value test_cache "key1" (astring "value1")
           100 105 0 0 None test_cache_put).
  - vm_compute. reflexivity.
  - exists 10000000000. split; [reflexivity|lia].
Defined.

(** The cache of the test suite over a store that holds [key1]: a [Get]
    of [key1] at time 100 misses, loads the value and stores it under the
    sliding window of ten seconds. *)
Lemma Get_miss_follows_loader_witness :
  cache.shards stocked_cache_missed = cache.shards stocked_cache
  ∧ ∃ c'' sh'',
      cache.Get stocked_cache "key1" 100 0
      = Some ((astring "value1", None), c'')
      ∧ cache.Put stocked_cache_missed "key1" (astring "value1") 100 0
        = Some (None, c'')
      ∧ cache.shards c'' !! 1%nat = Some sh''
      ∧ shard.Get (shard.Store sh'') "key1"
        = Some (mkEntry "key1" (astring "value1") 100 100 10000000100)
      ∧ mkEntry "key1" (astring "value1") 100 100 10000000100
        = expiration.OnWrite (expiration.ExpireAfterAccess 10000000000)
            (mkEntry "key1" (astring "value1") 100 100 0) 100.
Proof.
  apply (Get_miss_follows_loader stocked_cache "key1" 100 0 1%nat
           (shard.NewShard (eviction.PLRU eviction.LRU.newLRU)));
    vm_compute; reflexivity.
Defined.

(** * Shard occupancy *)

Arguments shard.Put : simpl never.
Arguments shard.Delete : simpl never.
Arguments shard.update_entry : simpl never.

Section fifo_shards.
Implicit Types (sh : shard.Shard) (f : eviction.FIFO.fifo).

Ltac red_shard :=
  cbn [shard.Store shard.Eviction shard.data shard.size eviction.Remove
       eviction.OnPut eviction.OnGet eviction.FIFO.OnGet eviction.FIFO.set
       eviction.FIFO.queue].

Lemma remove_first_elem k (q : list string) :
  NoDup q → ∀ k', k' ∈ eviction.FIFO.remove_first k q ↔ k' ∈ q ∧ k' ≠ k.
Proof.
  induction q as [|v q IH]; intros Hnd k'; simpl.
  - set_solver.
  - apply NoDup_cons in Hnd as [Hv Hnd].
    destruct (decide (v = k)) as [->|Hne].
    + rewrite elem_of_cons. split.
      * intros Hin. split; [by right|]. by intros ->.
      * intros [[?|?] ?]; done.
    + rewrite !elem_of_cons, (IH Hnd). split.
      * intros [->|[? ?]]; auto.
      * intros [[->|?] ?]; auto.
Qed.

Lemma remove_first_NoDup k (q : list string) :
  NoDup q → NoDup (eviction.FIFO.remove_first k q).
Proof.
  induction q as [|v q IH]; intros Hnd; simpl; [done|].
  apply NoDup_cons in Hnd as [Hv Hnd].
  destruct (decide (v = k)); [done|].
  apply NoDup_cons. split; [|by apply IH].
  rewrite (remove_first_elem k q Hnd). tauto.
Qed.

Lemma fifo_ok_new bound :
  0 <= bound → fifo_ok bound (shard.NewShard (eviction.PFIFO eviction.FIFO.newFIFO)).
Proof.
  intros Hb. exists eviction.FIFO.newFIFO. simpl.
  repeat split; try done; try set_solver. constructor.
Qed.

Lemma fifo_ok_Remove bound sh key :
  fifo_ok bound sh →
  fifo_ok bound
    (shard.mkShard (shard.Delete (shard.Store sh) key)
                   (eviction.Remove key (shard.Eviction sh))).
Proof.
  intros (f & Hev & Hc & Hset & Hq & Hnd & Hempty & Hsz).
  rewrite Hev. red_shard. unfold eviction.FIFO.Remove, fifo_ok. red_shard.
  unfold counted in Hc.
  destruct (decide (key ∈ eviction.FIFO.set f)) as [Hin|Hout].
  - eexists. split; [done|]. red_shard.
    split; [apply counted_Delete|]. 
    split; [by rewrite Delete_data, dom_delete_L, Hset|].
    split.
    { intros k. rewrite (remove_first_elem key _ Hnd), Hq. set_solver. }
    split; [by apply remove_first_NoDup|].
    split; [set_solver|].
    rewrite Delete_Size, size_delete_dec. case_decide; lia.
  - exists f. split; [done|]. split; [apply counted_Delete|].
    split.
    { rewrite Delete_data, dom_delete_L, <- Hset.
      symmetry. by apply difference_disjoint_L, disjoint_singleton_r. }
    repeat split; try done; try apply Hq.
    rewrite Delete_Size, size_delete_dec. case_decide; lia.
Qed.

Lemma fifo_ok_update bound sh key g :
  fifo_ok bound sh →
  fifo_ok bound
    (shard.mkShard (shard.update_entry (shard.Store sh) key g)
                   (shard.Eviction sh)).
Proof.
  intros (f & Hev & Hc & Hset & Hq & Hnd & Hempty & Hsz).
  exists f. unfold counted, shard.update_entry, shard.Size in *. red_shard.
  repeat split; try done; try apply Hq.
  - by rewrite <- size_dom, dom_alter_L, size_dom.
  - by rewrite dom_alter_L.
Qed.

Lemma fifo_ok_OnGet bound sh key :
  fifo_ok bound sh →
  fifo_ok bound (shard.mkShard (shard.Store sh)
                               (eviction.OnGet key (shard.Eviction sh))).
Proof.
  intros (f & Hev & H). exists f. rewrite Hev. red_shard. by split.
Qed.

(** Putting a named key into a shard that holds less than [bound]
    entries keeps the shard within [bound]. *)
Lemma fifo_ok_Put bound sh key ent :
  fifo_ok bound sh →
  shard.Size (shard.Store sh) <= bound - 1 →
  key ≠ ""%string →
  fifo_ok bound
    (shard.mkShard (shard.Put (shard.Store sh) key ent)
                   (eviction.OnPut key (shard.Eviction sh))).
Proof.
  intros (f & Hev & Hc & Hset & Hq & Hnd & Hempty & Hsz) Hroom Hkey.
  rewrite Hev. red_shard. unfold eviction.FIFO.OnPut, fifo_ok. red_shard.
  unfold counted in Hc.
  destruct (decide (key ∈ eviction.FIFO.set f)) as [Hin|Hout].
  - exists f. split; [done|]. split; [apply counted_Put|].
    split; [rewrite Put_data, dom_insert_L; set_solver|].
    repeat split; try done; try apply Hq.
    rewrite Put_Size, size_insert_dec, <- Hset.
    rewrite decide_True by done. lia.
  - eexists. split; [done|]. red_shard. split; [apply counted_Put|].
    split; [by rewrite Put_data, dom_insert_L, Hset|].
    split.
    { intros k. rewrite elem_of_app, list_elem_of_singleton, Hq. set_solver. }
    split.
    { apply NoDup_app. split; [done|]. split; [|apply NoDup_singleton].
      intros k Hk ->%list_elem_of_singleton. by apply Hout, Hq. }
    split; [set_solver|].
    rewrite Put_Size, size_insert_dec. case_decide; lia.
Qed.

End fifo_shards.

Section lfu_shards.
Import eviction.LFU.
Implicit Types (sh : shard.Shard) (l : lfu).

Ltac red_shard :=
  cbn [shard.Store shard.Eviction shard.data shard.size eviction.Remove
       eviction.OnPut eviction.OnGet nodes freqMap minFreq].

Lemma bucket_delete_tracked l k old :
  lfu_inv l → nodes l !! k = Some old →
  ∀ k' f, k' ∈ bucket (bucket_delete old k (freqMap l)) f
          ↔ k' ≠ k ∧ nodes l !! k' = Some f.
Proof.
  intros [Hb Hm] Hk k' f. rewrite bucket_delete_elem, <- Hb. split.
  - intros [Hf Hn]. split; [|done]. intros ->.
    rewrite Hk in Hf. injection Hf as <-. by apply Hn.
  - intros [Hne Hf]. split; [done|]. by intros [_ ?].
Qed.

Lemma OnGet_dom k l : dom (nodes (OnGet k l)) = dom (nodes l).
Proof.
  unfold OnGet. destruct (nodes l !! k) as [old|] eqn:Hk; [|done].
  destruct (decide (size _ = 0%nat)); simpl;
    rewrite dom_insert_L; apply elem_of_dom_2 in Hk; set_solver.
Qed.

(** A read keeps a key in the bucket of [minFreq] if there was one. *)
Lemma OnGet_min k l :
  lfu_inv l →
  (∃ k0, nodes l !! k0 = Some (minFreq l)) →
  ∃ k1, nodes (OnGet k l) !! k1 = Some (minFreq (OnGet k l)).
Proof.
  intros Hl (k0 & Hk0). unfold OnGet.
  destruct (nodes l !! k) as [old|] eqn:Hk; [|by exists k0].
  pose proof (bucket_delete_tracked l k old Hl Hk) as H1.
  destruct (decide (size (bucket (bucket_delete old k (freqMap l)) old)
                    = 0%nat)) as [He|Hne]; simpl.
  - apply size_empty_inv, leibniz_equiv in He.
    destruct (decide (k0 = k)) as [->|Hnk].
    + rewrite Hk in Hk0. injection Hk0 as ->.
      rewrite decide_True by done. exists k. by rewrite lookup_insert_eq.
    + rewrite decide_False.
      * exists k0. by rewrite lookup_insert_ne.
      * intros Heq. rewrite Heq in Hk0.
        assert (k0 ∈ bucket (bucket_delete old k (freqMap l)) old) as Hin
          by by apply H1.
        rewrite He in Hin. set_solver.
  - destruct (decide (k0 = k)) as [->|Hnk].
    + rewrite Hk in Hk0. injection Hk0 as ->.
      apply size_non_empty_iff, set_choose in Hne as (k1 & Hin).
      apply H1 in Hin as [Hn1 Hf1].
      exists k1. rewrite lookup_insert_ne by done. by rewrite Hf1.
    + exists k0. by rewrite lookup_insert_ne.
Qed.

Lemma lfu_ok_new bound :
  0 < bound → lfu_ok bound (shard.NewShard (eviction.PLFU newLFU)).
Proof.
  intros Hb. exists newLFU. simpl.
  split; [done|]. split; [done|]. split; [by rewrite !dom_empty_L|].
  split; [apply lfu_inv_new|]. split; [set_solver|].
  unfold shard.Size. simpl. split; lia.
Qed.

Lemma lfu_ok_Remove bound sh key :
  lfu_ok bound sh →
  lfu_ok bound
    (shard.mkShard (shard.Delete (shard.Store sh) key)
                   (eviction.Remove key (shard.Eviction sh))).
Proof.
  intros (l & Hev & Hc & Hdom & Hinv & Hempty & Hsz & Hfull).
  rewrite Hev. red_shard. exists (Remove key l).
  split; [done|]. red_shard. split; [apply counted_Delete|].
  unfold counted in Hc.
  assert (dom (nodes (Remove key l)) = dom (nodes l) ∖ {[key]}) as Hd.
  { unfold Remove. destruct (nodes l !! key) as [f|] eqn:Hk; simpl.
    - by rewrite dom_delete_L.
    - apply not_elem_of_dom in Hk. set_solver. }
  split; [by rewrite Hd, Delete_data, dom_delete_L, Hdom|].
  split; [by apply lfu_inv_Remove|].
  split; [rewrite Hd; set_solver|].
  rewrite Delete_Size, size_delete_dec, <- Hc, <- Hdom.
  destruct (decide (key ∈ dom (nodes l))) as [Hin|Hout].
  - split; [lia|]. intros ?. lia.
  - rewrite Z.sub_0_r. split; [done|]. intros Hb.
    unfold Remove. apply not_elem_of_dom in Hout. rewrite Hout. auto.
Qed.

Lemma lfu_ok_update bound sh key g :
  lfu_ok bound sh →
  lfu_ok bound
    (shard.mkShard (shard.update_entry (shard.Store sh) key g)
                   (shard.Eviction sh)).
Proof.
  intros (l & Hev & Hc & Hdom & Hinv & Hempty & Hsz & Hfull).
  exists l. unfold counted, shard.update_entry, shard.Size in *. red_shard.
  split; [done|].
  split; [by rewrite <- size_dom, dom_alter_L, size_dom|].
  split; [by rewrite dom_alter_L|]. done.
Qed.

Lemma lfu_ok_OnGet bound sh key :
  lfu_ok bound sh →
  lfu_ok bound (shard.mkShard (shard.Store sh)
                              (eviction.OnGet key (shard.Eviction sh))).
Proof.
  intros (l & Hev & Hc & Hdom & Hinv & Hempty & Hsz & Hfull).
  rewrite Hev. red_shard. exists (OnGet key l).
  split; [done|]. split; [done|]. split; [by rewrite OnGet_dom|].
  split; [by apply lfu_inv_OnGet|]. split; [by rewrite OnGet_dom|].
  split; [done|]. intros Hb. apply OnGet_min; auto.
Qed.

Lemma lfu_ok_Put bound sh key ent :
  lfu_ok bound sh →
  shard.Size (shard.Store sh) <= bound - 1 →
  key ≠ ""%string →
  lfu_ok bound
    (shard.mkShard (shard.Put (shard.Store sh) key ent)
                   (eviction.OnPut key (shard.Eviction sh))).
Proof.
  intros (l & Hev & Hc & Hdom & Hinv & Hempty & Hsz & Hfull) Hroom Hkey.
  rewrite Hev. red_shard. exists (OnPut key l).
  split; [done|]. red_shard. split; [apply counted_Put|].
  unfold counted in Hc.
  rewrite Put_Size, size_insert_dec, <- Hc, <- Hdom, Put_data, dom_insert_L.
  unfold OnPut. destruct (nodes l !! key) as [f|] eqn:Hk.
  - apply elem_of_dom_2 in Hk as Hin. rewrite decide_True by done.
    split; [set_solver|]. split; [done|]. split; [done|].
    split; [lia|]. intros ?. lia.
  - apply not_elem_of_dom in Hk as Hout. rewrite decide_False by done.
    red_shard. split; [by rewrite dom_insert_L, Hdom|].
    split.
    { pose proof (lfu_inv_OnPut key l Hinv) as H. unfold OnPut in H.
      by rewrite Hk in H. }
    split; [rewrite dom_insert_L; set_solver|].
    split; [lia|]. intros _. exists key. by rewrite lookup_insert_eq.
Qed.

(** [Evict] on a policy with a key in the bucket of [minFreq]. *)
Lemma lfu_Evict_some l pick :
  lfu_inv l →
  (∃ k0, nodes l !! k0 = Some (minFreq l)) →
  ∃ k, Evict pick l = (k, Remove k l) ∧ k ∈ dom (nodes l).
Proof.
  intros [Hb Hm] (k0 & Hk0). unfold Evict.
  set (b := bucket (freqMap l) (minFreq l)).
  assert (k0 ∈ b) as Hin by by apply Hb.
  assert (pick mod length (elements b) < length (elements b))%nat as Hlt.
  { apply Nat.mod_upper_bound. intros Hz.
    apply length_zero_iff_nil, elements_empty_inv, leibniz_equiv in Hz.
    rewrite Hz in Hin. set_solver. }
  destruct (lookup_lt_is_Some_2 _ _ Hlt) as [k Hk]. rewrite Hk.
  apply list_elem_of_lookup_2, elem_of_elements, Hb in Hk.
  exists k. unfold Remove. rewrite Hk. split; [done|].
  by apply elem_of_dom_2 in Hk.
Qed.

(** [Evict] on a policy that tracks nothing. *)
Lemma lfu_Evict_none l pick :
  lfu_inv l → dom (nodes l) = ∅ → Evict pick l = (""%string, l).
Proof.
  intros [Hb Hm] Hd. unfold Evict.
  assert (bucket (freqMap l) (minFreq l) = ∅) as ->.
  { apply set_eq. intros k. rewrite <- Hb. split; [|set_solver].
    intros Hk%elem_of_dom_2. rewrite Hd in Hk. set_solver. }
  by rewrite elements_empty.
Qed.

End lfu_shards.

Section capacity.
Context {B : Type}.
Implicit Types (c : cache.ShardedCache B) (sh : shard.Shard).

Lemma threshold_with_shard i sh c :
  cache.threshold (cache.with_shard i sh c) = cache.threshold c.
Proof. unfold cache.threshold. simpl. by rewrite length_insert. Qed.

Lemma cache_ok_with_engine e c :
  cache_ok c → cache_ok (cache.with_engine e c).
Proof. done. Qed.

Lemma cache_ok_with_shard i sh c :
  cache_ok c → shard_ok (Z.max 1 (cache.threshold c)) sh →
  cache_ok (cache.with_shard i sh c).
Proof.
  unfold cache_ok. intros Hc Hsh.
  rewrite (threshold_with_shard i sh c).
  by apply Forall_insert.
Qed.

Lemma cache_ok_lookup i sh c :
  cache_ok c → cache.shards c !! i = Some sh →
  shard_ok (Z.max 1 (cache.threshold c)) sh.
Proof. intros Hc Hi. by eapply Forall_lookup_1. Qed.

(** After the capacity check the shard has room for one entry. *)
Lemma fifo_ok_make_room c sh pick :
  fifo_ok (Z.max 1 (cache.threshold c)) sh →
  fifo_ok (Z.max 1 (cache.threshold c)) (cache.make_room c sh pick).1
  ∧ shard.Size (shard.Store (cache.make_room c sh pick).1)
    <= Z.max 1 (cache.threshold c) - 1.
Proof.
  intros Hok. pose proof Hok as (f & Hev & Hc & Hset & Hq & Hnd & Hempty & Hsz).
  unfold cache.make_room.
  destruct (Z.leb_spec (cache.threshold c) (shard.Size (shard.Store sh)))
    as [Hfull|Hfree]; [|simpl; split; [done|lia]].
  rewrite Hev. cbn [eviction.Evict]. unfold eviction.FIFO.Evict.
  destruct (eviction.FIFO.queue f) as [|k q] eqn:Hqe.
  - rewrite decide_False by (intros Hne; by apply Hne).
    cbn [fst shard.Store]. split.
    + exists f. cbn [shard.Store shard.Eviction]. rewrite Hqe.
      repeat split; try done; apply Hq.
    + assert (dom (shard.data (shard.Store sh)) = ∅) as Hd.
      { rewrite <- Hset. apply set_eq. intros k. rewrite <- Hq.
        split; [by intros ?%elem_of_nil|set_solver]. }
      unfold counted in Hc. rewrite Hc, <- size_dom, Hd, size_empty. lia.
  - assert (k ∈ eviction.FIFO.set f) as Hk by (apply Hq; left).
    assert (k ≠ ""%string) as Hne by (by intros ->).
    rewrite decide_True by done. cbn [fst shard.Store].
    apply NoDup_cons in Hnd as [Hkq Hnq].
    unfold counted in Hc. split.
    + eexists. split; [done|].
      cbn [eviction.FIFO.set eviction.FIFO.queue shard.Store shard.Eviction].
      split; [apply counted_Delete|].
      split; [by rewrite Delete_data, dom_delete_L, Hset|].
      split.
      { intros k'. rewrite elem_of_difference, <- Hq, elem_of_cons,
          elem_of_singleton. split.
        - intros Hin. split; [by right|]. by intros ->.
        - intros [[->|?] ?]; done. }
      split; [done|]. split; [set_solver|].
      rewrite Delete_Size, size_delete_dec. case_decide; lia.
    + rewrite Delete_Size, size_delete_dec, <- Hset.
      rewrite decide_True by done. lia.
Qed.

Lemma lfu_ok_make_room c sh pick :
  lfu_ok (Z.max 1 (cache.threshold c)) sh →
  lfu_ok (Z.max 1 (cache.threshold c)) (cache.make_room c sh pick).1
  ∧ shard.Size (shard.Store (cache.make_room c sh pick).1)
    <= Z.max 1 (cache.threshold c) - 1.
Proof.
  intros Hok.
  pose proof Hok as (l & Hev & Hc & Hdom & Hinv & Hempty & Hsz & Hfull).
  unfold cache.make_room.
  destruct (Z.leb_spec (cache.threshold c) (shard.Size (shard.Store sh)))
    as [Hat|Hfree]; [|simpl; split; [done|lia]].
  rewrite Hev. cbn [eviction.Evict].
  destruct (decide (shard.Size (shard.Store sh)
                    = Z.max 1 (cache.threshold c))) as [Hb|Hnb].
  - destruct (lfu_Evict_some l pick Hinv (Hfull Hb)) as (k & -> & Hk).
    assert (k ≠ ""%string) as Hne by (by intros ->).
    rewrite decide_True by done. cbn [fst shard.Store].
    pose proof (lfu_ok_Remove _ sh k Hok) as Hr.
    rewrite Hev in Hr. cbn [eviction.Remove] in Hr. split; [done|].
    unfold counted in Hc.
    rewrite Delete_Size, size_delete_dec, <- Hc, <- Hdom.
    rewrite decide_True by done. lia.
  - unfold counted in Hc.
    assert (shard.Size (shard.Store sh) = 0) as Hz by lia.
    assert (dom (eviction.LFU.nodes l) = ∅) as Hd.
    { rewrite Hdom. apply leibniz_equiv, size_empty_inv.
      rewrite size_dom. lia. }
    rewrite (lfu_Evict_none l pick Hinv Hd).
    rewrite decide_False by (intros Hne; by apply Hne).
    cbn [fst shard.Store]. split; [|lia].
    exists l. by cbn [shard.Store shard.Eviction].
Qed.

Lemma shard_ok_make_room c sh pick :
  shard_ok (Z.max 1 (cache.threshold c)) sh →
  shard_ok (Z.max 1 (cache.threshold c)) (cache.make_room c sh pick).1
  ∧ shard.Size (shard.Store (cache.make_room c sh pick).1)
    <= Z.max 1 (cache.threshold c) - 1.
Proof.
  intros [Hf|Hl].
  - destruct (fifo_ok_make_room c sh pick Hf). split; [by left|done].
  - destruct (lfu_ok_make_room c sh pick Hl). split; [by right|done].
Qed.

Lemma shard_ok_Remove bound sh key :
  shard_ok bound sh →
  shard_ok bound
    (shard.mkShard (shard.Delete (shard.Store sh) key)
                   (eviction.Remove key (shard.Eviction sh))).
Proof.
  intros [?|?]; [left; by apply fifo_ok_Remove|right; by apply lfu_ok_Remove].
Qed.

Lemma shard_ok_update bound sh key g :
  shard_ok bound sh →
  shard_ok bound
    (shard.mkShard (shard.update_entry (shard.Store sh) key g)
                   (shard.Eviction sh)).
Proof.
  intros [?|?]; [left; by apply fifo_ok_update|right; by apply lfu_ok_update].
Qed.

Lemma shard_ok_OnGet bound sh key :
  shard_ok bound sh →
  shard_ok bound (shard.mkShard (shard.Store sh)
                                (eviction.OnGet key (shard.Eviction sh))).
Proof.
  intros [?|?]; [left; by apply fifo_ok_OnGet|right; by apply lfu_ok_OnGet].
Qed.

Lemma shard_ok_Put bound sh key ent :
  shard_ok bound sh →
  shard.Size (shard.Store sh) <= bound - 1 →
  key ≠ ""%string →
  shard_ok bound
    (shard.mkShard (shard.Put (shard.Store sh) key ent)
                   (eviction.OnPut key (shard.Eviction sh))).
Proof.
  intros [?|?] ? ?; [left; by apply fifo_ok_Put|right; by apply lfu_ok_Put].
Qed.

Lemma cache_ok_Remove c key c' :
  cache_ok c → cache.Remove c key = Some c' → cache_ok c'.
Proof.
  intros Hc. unfold cache.Remove.
  destruct (shard.Select key (cache.shards c)) as [i|]; [|done]. simpl.
  destruct (cache.shards c !! i) as [sh|] eqn:Hsh; [|done]. simpl.
  intros [= <-]. apply cache_ok_with_shard; [done|].
  by apply shard_ok_Remove, (cache_ok_lookup i).
Qed.

Lemma cache_ok_PutWithTTL c key value ttl now pick r :
  cache_ok c → key ≠ ""%string →
  cache.PutWithTTL c key value ttl now pick = Some r → cache_ok r.2.
Proof.
  intros Hc Hkey H.
  apply PutWithTTL_inv in H as (i & sh & ent & e & Hi & Hsh & Hw & ->).
  cbn [snd]. apply cache_ok_with_engine, cache_ok_with_shard; [done|].
  destruct (shard_ok_make_room c sh pick) as [Hok Hroom];
    [by apply (cache_ok_lookup i)|].
  by apply shard_ok_Put.
Qed.

Lemma cache_ok_load_miss c key now pick r :
  cache_ok c → key ≠ ""%string →
  cache.load_miss c key now pick = Some r → cache_ok r.2.
Proof.
  intros Hc Hkey. unfold cache.load_miss.
  destruct (engine.Load _ key) as [[val err] e].
  destruct (bool_decide (err ≠ None) || is_nil val).
  - by intros [= <-].
  - unfold cache.Put.
    destruct (cache.PutWithTTL _ key val 0 now pick) as [[err' c']|] eqn:E;
      [|done].
    simpl. intros [= <-].
    apply (cache_ok_PutWithTTL _ key val 0 now pick (err', c'))
      in E; [done| |done].
    by do 2 apply cache_ok_with_engine.
Qed.

Lemma cache_ok_Get c key now pick r :
  cache_ok c → key ≠ ""%string →
  cache.Get c key now pick = Some r → cache_ok r.2.
Proof.
  intros Hc Hkey. unfold cache.Get.
  destruct (shard.Select key (cache.shards c)) as [i|]; [|done]. simpl.
  destruct (cache.shards c !! i) as [sh|] eqn:Hsh; [|done]. simpl.
  destruct (shard.Get (shard.Store sh) key) as [ent|];
    [|by apply cache_ok_load_miss].
  destruct (engine.IsExpired (cache.engine c) ent now).
  - destruct (cache.Remove _ key) as [c1|] eqn:E; [|done]. simpl.
    apply cache_ok_load_miss; [|done].
    by apply (cache_ok_Remove _ key c1) in E.
  - destruct (engine.OnRead (engine.emit Hit (cache.engine c)) key ent now)
      as [ent' e].
    intros [= <-]. cbn [snd].
    apply cache_ok_with_engine, cache_ok_with_shard; [done|].
    apply (shard_ok_OnGet _
             (shard.mkShard (shard.update_entry (shard.Store sh) key _)
                            (shard.Eviction sh))).
    by apply shard_ok_update, (cache_ok_lookup i).
Qed.

Lemma cache_ok_Expire c key ttl now r :
  cache_ok c → cache.Expire c key ttl now = Some r → cache_ok r.2.
Proof.
  intros Hc. unfold cache.Expire.
  destruct (shard.Select key (cache.shards c)) as [i|]; [|done]. simpl.
  destruct (cache.shards c !! i) as [sh|] eqn:Hsh; [|done]. simpl.
  destruct (shard.Get (shard.Store sh) key) as [ent|]; [|by intros [= <-]].
  intros [= <-]. cbn [snd]. apply cache_ok_with_shard; [done|].
  by apply shard_ok_update, (cache_ok_lookup i).
Qed.

Lemma cache_ok_step o c c' :
  cache_ok c → stores_named_key o → cache_step o c = Some c' → cache_ok c'.
Proof.
  intros Hc Hkey. destruct o; simpl in *.
  - destruct (cache.Get c key now pick) as [r|] eqn:E; [|done].
    intros [= <-]. by eapply cache_ok_Get.
  - unfold cache.Put.
    destruct (cache.PutWithTTL c key value 0 now pick) as [r|] eqn:E; [|done].
    intros [= <-]. by eapply cache_ok_PutWithTTL.
  - destruct (cache.PutWithTTL c key value ttl now pick) as [r|] eqn:E;
      [|done].
    intros [= <-]. by eapply cache_ok_PutWithTTL.
  - by apply cache_ok_Remove.
  - destruct (cache.Expire c key ttl now) as [r|] eqn:E; [|done].
    intros [= <-]. by eapply cache_ok_Expire.
  - destruct (cache.TTL c key now); [|done]. by intros [= <-].
  - unfold cache.Close.
    destruct (engine.WritePolicy (cache.engine c)) as [p|];
      [|by intros [= <-]].
    destruct (writepolicy.Close _ p _) as [[p' st]|]; [|done].
    by intros [= <-].
  - intros [= <-]. unfold worker_tick.
    destruct (engine.WritePolicy (cache.engine c)) as [[|w]|]; try done.
    by destruct (writepolicy.WriteBack.worker_step _ _).
Qed.

Lemma cache_ok_run ops : ∀ c c',
  cache_ok c → Forall stores_named_key ops →
  cache_run ops c = Some c' → cache_ok c'.
Proof.
  induction ops as [|o ops IH]; intros c c' Hc Hkeys; simpl.
  - by intros [= <-].
  - apply Forall_cons in Hkeys as [Hkey Hkeys].
    destruct (cache_step o c) as [c1|] eqn:E; [|done]. simpl.
    apply IH; [|done]. by eapply cache_ok_step.
Qed.

Lemma cache_ok_New n capacity policy e c :
  policy ≠ "LRU"%string →
  cache.NewShardedCache n capacity policy e = Some c → cache_ok c.
Proof.
  intros Hpol. unfold cache.NewShardedCache, eviction.NewEvictionPolicy.
  destruct (n <? 0); [done|]. destruct (n =? 0).
  - intros [= <-]. constructor.
  - rewrite decide_False by done.
    destruct (decide (policy = "LFU"%string)); simpl.
    + intros [= <-]. unfold cache_ok. simpl.
      apply Forall_replicate. right. apply lfu_ok_new. lia.
    + destruct (decide (policy = "FIFO"%string)); [|done]. simpl.
      intros [= <-]. unfold cache_ok. simpl.
      apply Forall_replicate. left. apply fifo_ok_new. lia.
Qed.

Lemma cache_ok_within c : cache_ok c → within (Z.max 1 (cache.threshold c)) c.
Proof.
  unfold cache_ok, within. intros Hc. eapply Forall_impl; [exact Hc|].
  intros sh [(f & _ & _ & _ & _ & _ & _ & Hsz)|(l & _ & _ & _ & _ & _ & Hsz & _)];
    done.
Qed.

Lemma shard_ok_no_empty_key bound sh :
  shard_ok bound sh → ""%string ∉ dom (shard.data (shard.Store sh)).
Proof.
  intros [(f & _ & _ & <- & _ & _ & He & _)|(l & _ & _ & <- & _ & He & _)];
    done.
Qed.

Lemma shard_ok_counted bound sh : shard_ok bound sh → counted (shard.Store sh).
Proof. intros [(f & _ & Hc & _)|(l & _ & Hc & _)]; done. Qed.

(** What the capacity check leaves of a shard that holds no empty key. *)
Lemma make_room_shard c sh pick :
  ""%string ∉ dom (shard.data (shard.Store sh)) →
  shard.Eviction (cache.make_room c sh pick).1
  = (if cache.threshold c <=? shard.Size (shard.Store sh)
     then (eviction.Evict pick (shard.Eviction sh)).2
     else shard.Eviction sh)
  ∧ shard.data (shard.Store (cache.make_room c sh pick).1)
    = (if cache.threshold c <=? shard.Size (shard.Store sh)
       then delete (eviction.Evict pick (shard.Eviction sh)).1
                   (shard.data (shard.Store sh))
       else shard.data (shard.Store sh)).
Proof.
  intros He. unfold cache.make_room. destruct (_ <=? _); [|done].
  destruct (eviction.Evict pick (shard.Eviction sh)) as [k ev].
  destruct (decide (k ≠ ""%string)) as [Hk|Hk];
    cbn [fst snd shard.Store shard.Eviction].
  - by rewrite Delete_data.
  - split; [done|]. apply dec_stable in Hk. subst k.
    rewrite delete_id; [done|]. by apply not_elem_of_dom.
Qed.

(** C8, amended.  Build a cache with the FIFO or the LFU policy and run
    any sequence of facade calls on it, interleaved with steps of the
    write-back worker, whose [Get], [Put] and [PutWithTTL] calls name a
    key other than the empty string.  After every call, so immediately
    after every insert, each shard's store holds at most
    [max 1 (capacity / shardCount)] entries.  An insert into a shard at
    or over [capacity / shardCount] is preceded by one [Evict] of the
    shard's policy, an insert into a shard below it by none: the policy
    of the key's shard after [PutWithTTL] is the policy of before after
    that [Evict], if any, and the [OnPut] of the key, and the store holds
    the new entry on top of what it held, less the evicted key, which is
    a key the store held when the shard was full. *)
Theorem shard_within_capacity (n capacity : Z) (policy : string)
    (e : engine.CacheEngine B) (ops : list cache_op) c0 c :
  policy ≠ "LRU"%string →
  cache.NewShardedCache n capacity policy e = Some c0 →
  Forall stores_named_key ops →
  cache_run ops c0 = Some c →
  within (Z.max 1 (cache.threshold c)) c
  ∧ ∀ key value ttl now pick err c',
      cache.PutWithTTL c key value ttl now pick = Some (err, c') →
      ∃ i sh sh' ent,
        shard.Select key (cache.shards c) = Some i
        ∧ cache.shards c !! i = Some sh
        ∧ cache.shards c' !! i = Some sh'
        ∧ shard.Eviction sh'
          = eviction.OnPut key
              (if cache.threshold c <=? shard.Size (shard.Store sh)
               then (eviction.Evict pick (shard.Eviction sh)).2
               else shard.Eviction sh)
        ∧ shard.data (shard.Store sh')
          = <[key := ent]>
              (if cache.threshold c <=? shard.Size (shard.Store sh)
               then delete (eviction.Evict pick (shard.Eviction sh)).1
                           (shard.data (shard.Store sh))
               else shard.data (shard.Store sh))
        ∧ (Z.max 1 (cache.threshold c) <= shard.Size (shard.Store sh) →
           (eviction.Evict pick (shard.Eviction sh)).1
           ∈ dom (shard.data (shard.Store sh))).
Proof.
  intros Hpol Hnew Hkeys Hrun.
  assert (cache_ok c) as Hok.
  { eapply cache_ok_run; [|done..]. by eapply cache_ok_New. }
  split; [by apply cache_ok_within|].
  intros key value ttl now pick err c' HP.
  apply PutWithTTL_inv in HP as (i & sh & ent & e' & Hi & Hsh & Hw & Hr).
  injection Hr as _ ->.
  pose proof (Select_lt _ _ _ Hi) as Hlt.
  pose proof (cache_ok_lookup i sh c Hok Hsh) as Hsok.
  destruct (make_room_shard c sh pick) as [Hev Hdata].
  { by eapply shard_ok_no_empty_key. }
  eexists i, sh, _, ent. split; [done|]. split; [done|].
  split; [by apply list_lookup_insert_eq|].
  cbn [shard.Store shard.Eviction]. rewrite Hev, Put_data, Hdata.
  split; [done|]. split; [done|].
  intros Hfull. destruct (shard_ok_make_room c sh pick Hsok) as [Hok1 Hroom].
  apply shard_ok_counted in Hok1. apply shard_ok_counted in Hsok.
  unfold counted in *. rewrite Hok1, Hdata, Hsok in Hroom.
  rewrite Hsok in Hfull.
  destruct (Z.leb_spec (cache.threshold c)
              (Z.of_nat (size (shard.data (shard.Store sh))))); [|lia].
  destruct (decide ((eviction.Evict pick (shard.Eviction sh)).1
                    ∈ dom (shard.data (shard.Store sh)))) as [|Hout];
    [done|].
  rewrite delete_id in Hroom by by apply not_elem_of_dom. lia.
Qed.

End capacity.

(** One shard of capacity 2 under FIFO after [Put(a); Put(b); Put(c)],
    and the insert of [d] into that full shard. *)
Lemma shard_within_capacity_witness :
  within (Z.max 1 (cache.threshold fifo_cache_full)) fifo_cache_full
  ∧ ∃ i sh sh' ent,
      shard.Select "d" (cache.shards fifo_cache_full) = Some i
      ∧ cache.shards fifo_cache_full !! i = Some sh
      ∧ cache.shards fifo_cache_next !! i = Some sh'
      ∧ shard.Eviction sh'
        = eviction.OnPut "d"
            (if cache.threshold fifo_cache_full <=? shard.Size (shard.Store sh)
             then (eviction.Evict 0 (shard.Eviction sh)).2
             else shard.Eviction sh)
      ∧ shard.data (shard.Store sh')
        = <["d"%string := ent]>
            (if cache.threshold fifo_cache_full <=? shard.Size (shard.Store sh)
             then delete (eviction.Evict 0 (shard.Eviction sh)).1
                         (shard.data (shard.Store sh))
             else shard.data (shard.Store sh))
      ∧ (Z.max 1 (cache.threshold fifo_cache_full)
         <= shard.Size (shard.Store sh) →
         (eviction.Evict 0 (shard.Eviction sh)).1
         ∈ dom (shard.data (shard.Store sh))).
Proof.
  destruct (shard_within_capacity 1 2 "FIFO" plain_engine three_puts
              fifo_cache fifo_cache_full) as [H1 H2].
  - done.
  - reflexivity.
  - unfold three_puts. repeat constructor; done.
  - vm_compute. reflexivity.
  - split; [exact H1|].
    apply (H2 "d" (aint 4) 0 4 0%nat None fifo_cache_next). by vm_compute.
Defined.

(** C8 as stated fails where the threshold is zero: two shards share a
    capacity of one, and after the first [Put] the shard of the key holds
    one entry. *)
Lemma insert_exceeds_zero_threshold :
  cache.NewShardedCache 2 1 "FIFO" plain_engine = Some small_cache
  ∧ cache_run [OpPut "k" (aint 1) 0 0] small_cache = Some small_cache_put
  ∧ cache.threshold small_cache_put = 0
  ∧ ¬ within (cache.threshold small_cache_put) small_cache_put.
Proof.
  split; [reflexivity|]. split; [by vm_compute|]. split; [reflexivity|].
  unfold within. apply (proj1 (bool_decide_eq_false _)).
  by vm_compute.
Qed.

(** Under LRU the stale [prev] pointer of C5 reaches the facade: after
    two reads of [a] the policy keeps returning the key [b], which the
    store no longer holds, and the shard grows past its capacity of 2. *)
Lemma LRU_shard_outgrows_capacity :
  (c ← cache_run reads_then_puts lru_cache;
   sh ← cache.shards c !! 0%nat;
   Some (shard.Size (shard.Store sh), cache.threshold c)) = Some (3, 2).
Proof. by vm_compute. Qed.

(** A loader that fails: [Get] hands its error to the caller and the
    shards stay as they were. *)
Lemma Get_miss_returns_loader_error :
  let e := engine.NewCacheEngine None false FailingStore tt None in
  let c := cache.mkCache
             [shard.NewShard (eviction.PFIFO eviction.FIFO.newFIFO)] e 4 in
  ∃ c', cache.Get c "x" 0 0 = Some ((anil, Some "unavailable"%string), c')
        ∧ cache.shards c' = cache.shards c.
Proof. eexists. split; by vm_compute. Qed.

(** * Further properties: the store, the selector and the constructors *)

(** X1.  A lookup after [Put] finds the entry that was put under that key
    and what was there before under every other key; a lookup after
    [Delete] finds nothing under that key and what was there before under
    every other key; a new store is empty. *)
Theorem cowStore_Get_after_write (s : shard.cowStore) (key k : string)
    (ent : CacheEntry) :
  shard.Get (shard.Put s key ent) k
  = (if decide (k = key) then Some ent else shard.Get s k)
  ∧ shard.Get (shard.Delete s key) k
    = (if decide (k = key) then None else shard.Get s k)
  ∧ shard.Get shard.NewCOWStore k = None
  ∧ shard.Size shard.NewCOWStore = 0.
Proof.
  unfold shard.Get. rewrite Put_data, Delete_data.
  destruct (decide (k = key)) as [->|Hne].
  - by rewrite lookup_insert_eq, lookup_delete_eq.
  - by rewrite lookup_insert_ne, lookup_delete_ne.
Qed.



(** X3.  [Select] panics exactly when there is no shard.  Otherwise it
    returns the hash of the key modulo the number of shards, which is the
    index of a shard, and it looks at nothing but the key and that
    number. *)
Theorem Select_is_hash_mod_count (key : string) (shards : list shard.Shard) :
  match shard.Select key shards with
  | None => shards = []
  | Some i =>
      shards ≠ []
      ∧ Z.of_nat i = shard.hash key mod Z.of_nat (length shards)
      ∧ is_Some (shards !! i)
  end
  ∧ ∀ shards' : list shard.Shard,
      length shards' = length shards →
      shard.Select key shards' = shard.Select key shards.
Proof.
  split.
  - destruct (shard.Select key shards) as [i|] eqn:E.
    + pose proof (Select_lt _ _ _ E) as Hlt.
      split; [by destruct shards|]. split; [|by apply lookup_lt_is_Some_2].
      unfold shard.Select in E. destruct shards as [|a l]; [done|].
      injection E as <-. pose proof (hash_range key) as [Hh _].
      rewrite Z2Nat.id.
      * apply Z.rem_mod_nonneg; [done|]. simpl. lia.
      * apply Z.rem_nonneg; [|done]. simpl. lia.
    + unfold shard.Select in E. by destruct shards.
  - intros shards' Hlen. unfold shard.Select.
    destruct shards' as [|a' l'], shards as [|a l]; try done.
    by rewrite Hlen.
Qed.

(** The policy factory panics exactly on an identifier other than
    [LRU], [LFU] and [FIFO], and the policy it returns tracks no key. *)
Lemma NewEvictionPolicy_known_or_panics (t : string) :
  match eviction.NewEvictionPolicy t with
  | None => t ≠ "LRU"%string ∧ t ≠ "LFU"%string ∧ t ≠ "FIFO"%string
  | Some p =>
      (t = "LRU"%string ∨ t = "LFU"%string ∨ t = "FIFO"%string)
      ∧ p ∈ new_policies ∧ tracked p = ∅
      ∧ ∀ pick, eviction.Evict pick p = (""%string, p)
  end.
Proof.
  unfold eviction.NewEvictionPolicy, new_policies.
  destruct (decide (t = "LRU"%string)) as [->|H1].
  { split; [by left|]. split; [set_solver|]. by split. }
  destruct (decide (t = "LFU"%string)) as [->|H2].
  { split; [by right; left|]. split; [set_solver|]. by split. }
  destruct (decide (t = "FIFO"%string)) as [->|H3]; [|done].
  split; [by right; right|]. split; [set_solver|]. by split.
Qed.

(** X4.  [NewShardedCache] panics exactly on a negative shard count or,
    with at least one shard, on an unknown policy.  The cache it returns
    has that many shards, each with an empty store of size 0 and a policy
    that tracks nothing, and the capacity and engine it was given. *)
Theorem NewShardedCache_builds_empty_shards {B : Type} (n capacity : Z)
    (policy : string) (e : engine.CacheEngine B) :
  match cache.NewShardedCache n capacity policy e with
  | None => n < 0 ∨ (0 < n ∧ eviction.NewEvictionPolicy policy = None)
  | Some c =>
      0 <= n
      ∧ Z.of_nat (length (cache.shards c)) = n
      ∧ cache.capacity c = capacity
      ∧ cache.engine c = e
      ∧ Forall (fun sh => shard.data (shard.Store sh) = ∅
                          ∧ shard.Size (shard.Store sh) = 0
                          ∧ tracked (shard.Eviction sh) = ∅)
               (cache.shards c)
  end.
Proof.
  unfold cache.NewShardedCache.
  destruct (Z.ltb_spec n 0) as [|Hn]; [by left|].
  destruct (Z.eqb_spec n 0) as [->|Hz].
  { simpl. repeat split; try done. }
  pose proof (NewEvictionPolicy_known_or_panics policy) as Hp.
  destruct (eviction.NewEvictionPolicy policy) as [p|]; simpl.
  - destruct Hp as (_ & _ & Ht & _).
    rewrite length_replicate, Z2Nat.id by done.
    repeat split; try done. by apply Forall_replicate.
  - right. split; [lia|done].
Qed.

(** A cache built with no shard is returned whatever the policy
    identifier is, and every operation on it panics in the selector. *)
Lemma zero_shards_panic {B : Type} (capacity : Z) (policy : string)
    (e : engine.CacheEngine B) (key : string) (value : any) (ttl now : Z)
    (pick : nat) :
  cache.NewShardedCache 0 capacity policy e = Some (cache.mkCache [] e capacity)
  ∧ cache.Get (cache.mkCache [] e capacity) key now pick = None
  ∧ cache.PutWithTTL (cache.mkCache [] e capacity) key value ttl now pick = None
  ∧ cache.Remove (cache.mkCache [] e capacity) key = None
  ∧ cache.Expire (cache.mkCache [] e capacity) key ttl now = None
  ∧ cache.TTL (cache.mkCache [] e capacity) key now = None.
Proof. done. Qed.

(** * Further properties: the eviction policies *)

Section policy_index.
Implicit Types (p : eviction.Policy) (k : string).

Lemma LRU_addFront_nodes n l :
  eviction.LRU.nodes (eviction.LRU.addFront n l) = eviction.LRU.nodes l.
Proof.
  unfold eviction.LRU.addFront.
  destruct l as [h b m [hd|] [tl|]]; done.
Qed.

Lemma LRU_remove_nodes n l :
  eviction.LRU.nodes (eviction.LRU.remove n l) = eviction.LRU.nodes l.
Proof.
  unfold eviction.LRU.remove.
  destruct (eviction.LRU.heap l !! n) as [nd|] eqn:E.
  - destruct (eviction.LRU.prev nd) as [q|]; simpl.
    + destruct (eviction.LRU.store_next _ _ _ !! n) as [nd'|]; [|done].
      by destruct (eviction.LRU.next nd').
    + rewrite E. by destruct (eviction.LRU.next nd).
  - by rewrite E.
Qed.

Lemma tracked_after_call p k (pick : nat) :
  tracked (eviction.OnPut k p) = {[k]} ∪ tracked p
  ∧ tracked (eviction.OnGet k p) = tracked p
  ∧ tracked (eviction.Remove k p) = tracked p ∖ {[k]}
  ∧ (tracked (eviction.Evict pick p).2
     = tracked p ∖ {[(eviction.Evict pick p).1]}
     ∨ eviction.Evict pick p = (""%string, p)).
Proof.
  destruct p as [l|l|f]; simpl.
  - (* LRU *)
    split; [|split; [|split]].
    + unfold eviction.LRU.OnPut.
      destruct (eviction.LRU.nodes l !! k) as [n|] eqn:Hk.
      * apply elem_of_dom_2 in Hk. set_solver.
      * rewrite LRU_addFront_nodes. simpl. by rewrite dom_insert_L.
    + unfold eviction.LRU.OnGet, eviction.LRU.moveToFront.
      destruct (eviction.LRU.nodes l !! k); [|done].
      by rewrite LRU_addFront_nodes, LRU_remove_nodes.
    + unfold eviction.LRU.Remove.
      destruct (eviction.LRU.nodes l !! k) as [n|] eqn:Hk; simpl.
      * by rewrite dom_delete_L, LRU_remove_nodes.
      * apply not_elem_of_dom in Hk. set_solver.
    + unfold eviction.LRU.Evict.
      destruct (eviction.LRU.tail l) as [t|]; [|by right].
      left. simpl. by rewrite dom_delete_L, LRU_remove_nodes.
  - (* LFU *)
    split; [|split; [|split]].
    + unfold eviction.LFU.OnPut.
      destruct (eviction.LFU.nodes l !! k) as [n|] eqn:Hk; simpl.
      * apply elem_of_dom_2 in Hk. set_solver.
      * by rewrite dom_insert_L.
    + apply OnGet_dom.
    + unfold eviction.LFU.Remove.
      destruct (eviction.LFU.nodes l !! k) as [n|] eqn:Hk; simpl.
      * by rewrite dom_delete_L.
      * apply not_elem_of_dom in Hk. set_solver.
    + unfold eviction.LFU.Evict.
      destruct (elements _ !! _) as [k'|]; [|by right].
      left. simpl. by rewrite dom_delete_L.
  - (* FIFO *)
    split; [|split; [|split]].
    + unfold eviction.FIFO.OnPut.
      destruct (decide (k ∈ eviction.FIFO.set f)); simpl; set_solver.
    + done.
    + unfold eviction.FIFO.Remove.
      destruct (decide (k ∈ eviction.FIFO.set f)); simpl; set_solver.
    + unfold eviction.FIFO.Evict.
      destruct (eviction.FIFO.queue f) as [|k' q]; [by right|by left].
Qed.

(** X5.  The key index of each of the three policies follows the calls:
    [OnPut] adds its key, [OnGet] changes nothing, [Remove] takes its key
    out, and [Evict] either takes out the key it returns or returns the
    empty string and leaves the policy as it was. *)
Theorem policy_index_follows_calls p k (pick : nat) :
  tracked (eviction.OnPut k p) = {[k]} ∪ tracked p
  ∧ tracked (eviction.OnGet k p) = tracked p
  ∧ tracked (eviction.Remove k p) = tracked p ∖ {[k]}
  ∧ (tracked (eviction.Evict pick p).2
     = tracked p ∖ {[(eviction.Evict pick p).1]}
     ∨ eviction.Evict pick p = (""%string, p)).
Proof. apply tracked_after_call. Qed.

End policy_index.

Section fifo_order.
Import eviction.FIFO.
Implicit Types (f : fifo) (k : string).

Lemma fifo_wf_step o f :
  fifo_wf f →
  ∃ f', (policy_step o (eviction.PFIFO f)).2 = eviction.PFIFO f' ∧ fifo_wf f'.
Proof.
  intros [Hnd Hq]. destruct o as [k|k|k|pick]; simpl.
  - by exists f.
  - unfold OnPut. destruct (decide (k ∈ set f)) as [Hin|Hout].
    + by exists f.
    + eexists. split; [done|]. split; simpl.
      * apply NoDup_app. split; [done|]. split; [|apply NoDup_singleton].
        intros k' Hk' ->%list_elem_of_singleton. by apply Hout, Hq.
      * intros k'. rewrite elem_of_app, list_elem_of_singleton, Hq. set_solver.
  - unfold Remove. destruct (decide (k ∈ set f)) as [Hin|Hout].
    + eexists. split; [done|]. split; simpl.
      * by apply remove_first_NoDup.
      * intros k'. rewrite (remove_first_elem k _ Hnd), Hq. set_solver.
    + by exists f.
  - unfold Evict. destruct (queue f) as [|k q] eqn:Hqe; simpl.
    + exists f. split; [done|]. unfold fifo_wf. rewrite Hqe. by split.
    + apply NoDup_cons in Hnd as [Hk Hnd].
      eexists. split; [done|]. split; [done|]. simpl.
      intros k'. rewrite elem_of_difference, <- Hq, elem_of_cons,
        elem_of_singleton. split.
      * intros Hin. split; [by right|]. by intros ->.
      * intros [[->|?] ?]; done.
Qed.

Lemma fifo_wf_run ops : ∀ f,
  fifo_wf f →
  ∃ f', (policy_run ops (eviction.PFIFO f)).2 = eviction.PFIFO f' ∧ fifo_wf f'.
Proof.
  induction ops as [|o ops IH]; intros f Hf; simpl; [by exists f|].
  destruct (fifo_wf_step o f Hf) as (f1 & E1 & H1).
  destruct (policy_step o (eviction.PFIFO f)) as [out p1]. simpl in E1.
  subst p1. destruct (IH f1 H1) as (f2 & E2 & H2).
  destruct (policy_run ops (eviction.PFIFO f1)) as [outs p2]. simpl in *.
  eauto.
Qed.

(** X6.  After any sequence of calls the FIFO queue lists exactly the
    keys of the membership set, each once. *)
Theorem FIFO_queue_lists_tracked_once (ops : list policy_op) :
  match (policy_run ops (eviction.PFIFO newFIFO)).2 with
  | eviction.PFIFO f => NoDup (queue f) ∧ ∀ k, k ∈ queue f ↔ k ∈ set f
  | _ => False
  end.
Proof.
  destruct (fifo_wf_run ops newFIFO) as (f & -> & Hf); [|done].
  split; [constructor|]. intros k. simpl. set_solver.
Qed.

Lemma filter_other_keys k (q : list string) :
  k ∉ q → filter (fun v => v ≠ k) q = q.
Proof.
  induction q as [|v q IH]; intros Hk; [done|].
  apply not_elem_of_cons in Hk as [Hne Hk].
  rewrite filter_cons_True by done. by rewrite IH.
Qed.

Lemma remove_first_filter k (q : list string) :
  NoDup q → remove_first k q = filter (fun v => v ≠ k) q.
Proof.
  induction q as [|v q IH]; intros Hnd; simpl; [done|].
  apply NoDup_cons in Hnd as [Hv Hnd].
  destruct (decide (v = k)) as [->|Hne].
  - rewrite filter_cons_False by (by intros ?).
    by rewrite filter_other_keys.
  - rewrite filter_cons_True by done. by rewrite IH.
Qed.

Lemma fifo_drain (q : list string) : ∀ (s : gset string) (pick : nat),
  NoDup q → (∀ k, k ∈ q ↔ k ∈ s) →
  policy_run (replicate (length q) (PEvict pick)) (eviction.PFIFO (mkFIFO q s))
  = (q, eviction.PFIFO newFIFO).
Proof.
  induction q as [|k q IH]; intros s pick Hnd Hq; simpl.
  - assert (s = ∅) as -> by set_solver. done.
  - apply NoDup_cons in Hnd as [Hk Hnd].
    rewrite (IH (s ∖ {[k]}) pick); [done|done|].
    intros k'. rewrite elem_of_difference, <- Hq, elem_of_cons,
      elem_of_singleton. split.
    + intros Hin. split; [by right|]. by intros ->.
    + intros [[->|?] ?]; done.
Qed.

(** X7.  First in, first out.  In the state after any sequence of calls:
    [OnPut] of an untracked key appends it to the queue and [OnPut] of a
    tracked key changes nothing; [Remove] of a key drops that key and
    keeps the order of the others; and as many [Evict] calls as the queue
    is long return its keys from the oldest to the newest and leave the
    policy as new, after which [Evict] returns the empty string. *)
Theorem FIFO_evicts_in_insertion_order (ops : list policy_op) (k : string)
    (pick : nat) :
  match (policy_run ops (eviction.PFIFO newFIFO)).2 with
  | eviction.PFIFO f =>
      queue (OnPut k f) = (if decide (k ∈ queue f) then queue f
                           else queue f ++ [k])
      ∧ queue (Remove k f) = filter (fun v => v ≠ k) (queue f)
      ∧ policy_run (replicate (length (queue f)) (PEvict pick))
                   (eviction.PFIFO f)
        = (queue f, eviction.PFIFO newFIFO)
      ∧ Evict newFIFO = (""%string, newFIFO)
  | _ => False
  end.
Proof.
  destruct (fifo_wf_run ops newFIFO) as (f & -> & [Hnd Hq]).
  { split; [constructor|]. intros k'. simpl. set_solver. }
  split; [|split; [|split; [|done]]].
  - unfold OnPut.
    destruct (decide (k ∈ set f)) as [Hin|Hout].
    + rewrite decide_True by by apply Hq. done.
    + rewrite decide_False by (by rewrite Hq). done.
  - unfold Remove. destruct (decide (k ∈ set f)) as [Hin|Hout]; simpl.
    + by apply remove_first_filter.
    + rewrite filter_other_keys; [done|]. by rewrite Hq.
  - destruct f as [q s]. by apply fifo_drain.
Qed.

End fifo_order.

Section lfu_reachable.
Import eviction.LFU.

(** X8.  After any sequence of calls on the LFU policy, a key is in the
    bucket of a frequency exactly when the index records that frequency
    for it, every recorded frequency is at least 1, and [minFreq] is at
    most every recorded frequency. *)
Theorem LFU_buckets_partition_index (ops : list policy_op) :
  match (policy_run ops (eviction.PLFU newLFU)).2 with
  | eviction.PLFU l =>
      (∀ k f, nodes l !! k = Some f ↔ k ∈ bucket (freqMap l) f)
      ∧ (∀ k f, nodes l !! k = Some f → 1 <= f ∧ minFreq l <= f)
  | _ => False
  end.
Proof.
  destruct (policy_run ops (eviction.PLFU newLFU)) as [outs p] eqn:E.
  destruct (lfu_inv_run ops newLFU outs p lfu_inv_new E) as (l & -> & [Hb Hm]).
  simpl. split; [done|]. intros k f Hk. apply Hm in Hk. lia.
Qed.

End lfu_reachable.

(** The policy after [OnPut a; OnGet a; OnPut b]: [Evict] returns [b],
    the key of frequency 1. *)
Lemma LFU_Evict_minimal_witness :
  let l := eviction.LFU.mkLFU {["a"%string := 2; "b"%string := 1]}
             {[2 := {["a"%string]}; 1 := {["b"%string]}]} 1 in
  let b := eviction.LFU.bucket (eviction.LFU.freqMap l) (eviction.LFU.minFreq l) in
  (b ≠ ∅ →
   eviction.LFU.nodes l !! (eviction.LFU.Evict 0 l).1
   = Some (eviction.LFU.minFreq l)
   ∧ ∀ k' f', eviction.LFU.nodes l !! k' = Some f' →
              eviction.LFU.minFreq l <= f')
  ∧ (b = ∅ → eviction.LFU.Evict 0 l = (""%string, l)).
Proof.
  apply (LFU_Evict_minimal [POnPut "a"; POnGet "a"; POnPut "b"] []).
  by vm_compute.
Defined.

(** * Further properties: the write-back policy under pressure *)

Section write_back_drops.
Import writepolicy.WriteBack.
Context {B : Type} (store : Loader B).
Implicit Types (w : WriteBackPolicy) (st : B) (evs : list event).

Lemma open_write_any w key value :
  open_inv w →
  ∃ w', OnWrite w key value = Some w'
        ∧ open_inv w' ∧ cap w' = cap w
        ∧ (pending w' = pending w ++ [(key, value)] ∨ pending w' = pending w)
        ∧ ((length (ch w) <= cap w)%nat → (length (ch w') <= cap w)%nat).
Proof.
  intros Hinv. destruct (Nat.ltb_spec (length (ch w)) (cap w)) as [Hlt|Hge].
  - destruct (open_inv_write w key value Hinv Hlt) as (w' & E & I & C & P & L).
    exists w'. split; [done|]. split; [done|]. split; [done|].
    split; [by left|]. lia.
  - pose proof Hinv as (Hopen & Hpark & Hex). unfold OnWrite. rewrite Hopen.
    destruct (wk w) eqn:Hwk.
    + apply Nat.ltb_ge in Hge. rewrite Hge. exists w.
      split; [done|]. split; [done|]. split; [done|]. split; [by right|done].
    + eexists. split; [done|]. unfold open_inv, pending. simpl.
      rewrite Hwk, (Hpark eq_refl). split; [done|]. split; [done|].
      split; [by left|done].
    + apply Nat.ltb_ge in Hge. rewrite Hge. exists w.
      split; [done|]. split; [done|]. split; [done|]. split; [by right|done].
    + done.
Qed.

Lemma run_keeps_some evs : ∀ w st,
  open_inv w → (length (ch w) <= cap w)%nat →
  ∃ w' st' acc,
    run store evs (w, st) = Some (w', st')
    ∧ open_inv w' ∧ cap w' = cap w ∧ (length (ch w') <= cap w)%nat
    ∧ acc `sublist_of` writes_of evs
    ∧ forward store (pending w') st' = forward store (pending w ++ acc) st.
Proof.
  induction evs as [|e evs IH]; intros w st Hinv Hfit.
  - exists w, st, []. simpl. by rewrite app_nil_r.
  - destruct e as [key value|].
    + destruct (open_write_any w key value Hinv) as (w1 & E & I1 & C1 & P1 & L1).
      simpl. rewrite E. simpl.
      destruct (IH w1 st I1) as (w' & st' & acc & R & I' & C' & L' & S' & F');
        [rewrite C1; auto|].
      rewrite C1 in *. destruct P1 as [P1|P1].
      * exists w', st', ((key, value) :: acc).
        rewrite R, F', P1, <- app_assoc. repeat split; try done; try apply I'.
        by apply sublist_skip.
      * exists w', st', acc.
        rewrite R, F', P1. repeat split; try done; try apply I'.
        by apply sublist_cons.
    + change (run store (EvWorker :: evs) (w, st))
        with (run store evs (worker_step store (w, st))).
      change (writes_of (EvWorker :: evs)) with (writes_of evs).
      pose proof (open_inv_worker store w st Hinv) as Hw.
      destruct (worker_step store (w, st)) as [w1 st1].
      destruct Hw as (I1 & C1 & F1 & L1).
      destruct (IH w1 st1 I1) as (w' & st' & acc & R & I' & C' & L' & S' & F');
        [lia|].
      exists w', st', acc. rewrite R, C', C1, F'. rewrite C1 in L'.
      repeat split; try done; try apply I'.
      by rewrite !(forward_app store), F1.
Qed.

(** X10.  Whatever the buffer size and the schedule of writes and worker
    steps: no write blocks or panics before [Close], the queue never
    holds more than the buffer size, and [Close] returns with the
    backing store having received, in the order they were issued and
    each at most once, a subsequence of the writes; the others were
    dropped. *)
Theorem WriteBack_forwards_a_subsequence (st0 : B) (buffer : Z) evs :
  match NewWriteBackPolicy buffer with
  | None => buffer < 0
  | Some w0 =>
      ∃ w1 st1 w2 st2 acc,
        run store evs (w0, st0) = Some (w1, st1)
        ∧ Z.of_nat (length (ch w1)) <= buffer
        ∧ Close store (w1, st1) = Some (w2, st2)
        ∧ acc `sublist_of` writes_of evs
        ∧ st2 = forward store acc st0
  end.
Proof.
  unfold NewWriteBackPolicy.
  destruct (Z.ltb_spec buffer 0) as [|Hb]; [done|].
  set (w0 := mkWB [] (Z.to_nat buffer) false Running).
  assert (open_inv w0) as I0 by done.
  destruct (run_keeps_some evs w0 st0 I0)
    as (w1 & st1 & acc & R & I1 & C1 & L1 & S1 & F1); [simpl; lia|].
  destruct (Close_drains store w1 st1 I1) as (w2 & st2 & Cl & _ & _ & _ & Hst).
  exists w1, st1, w2, st2, acc. repeat split; try done.
  - simpl in L1. lia.
  - by rewrite Hst, F1.
Qed.

Lemma only_writes (rs : list writepolicy.writeReq) : ∀ w st,
  closed w = false → wk w = Running → (length (ch w) <= cap w)%nat →
  run store (map (fun r => EvWrite r.1 r.2) rs) (w, st)
  = Some (mkWB (take (cap w) (ch w ++ rs)) (cap w) false Running, st).
Proof.
  induction rs as [|[k v] rs IH]; intros w st Hopen Hwk Hfit; simpl.
  - rewrite app_nil_r, take_ge by done.
    destruct w. simpl in *. by subst.
  - unfold OnWrite. rewrite Hopen, Hwk.
    destruct (Nat.ltb_spec (length (ch w)) (cap w)) as [Hlt|Hge]; simpl.
    + rewrite IH; simpl; try done.
      * by rewrite <- app_assoc.
      * rewrite length_app. simpl. lia.
    + rewrite IH by done.
      by rewrite !take_app_le by lia.
Qed.

(** X11.  Drop on full.  While the worker does not get to run, a new
    policy keeps the first [buffer] writes in its queue, in order, and
    drops every later one without blocking or failing. *)
Theorem WriteBack_keeps_first_writes (st0 : B) (buffer : Z)
    (rs : list writepolicy.writeReq) :
  match NewWriteBackPolicy buffer with
  | None => buffer < 0
  | Some w0 =>
      run store (map (fun r => EvWrite r.1 r.2) rs) (w0, st0)
      = Some (mkWB (take (Z.to_nat buffer) rs) (Z.to_nat buffer) false
                   Running, st0)
  end.
Proof.
  unfold NewWriteBackPolicy.
  destruct (Z.ltb_spec buffer 0) as [|Hb]; [done|].
  rewrite only_writes; simpl; try done. lia.
Qed.

Lemma exited_stays n w st :
  wk w = Exited → Nat.iter n (worker_step store) (w, st) = (w, st).
Proof.
  intros Hwk. induction n as [|n IH]; simpl; [done|].
  rewrite IH. unfold worker_step. by rewrite Hwk.
Qed.

Lemma closed_worker_exits n : ∀ w st,
  closed w = true → wk w ≠ Parked → (drain_steps w <= n)%nat →
  wk (Nat.iter n (worker_step store) (w, st)).1 = Exited
  ∧ closed (Nat.iter n (worker_step store) (w, st)).1 = true.
Proof.
  induction n as [|n IH]; intros w st Hcl Hpk Hn.
  - simpl. unfold drain_steps in Hn.
    destruct (wk w) eqn:Hwk; try lia; done.
  - rewrite Nat.iter_succ_r. unfold drain_steps in Hn.
    destruct (wk w) eqn:Hwk; [| done | |];
      [unfold worker_step at 2 4; rewrite Hwk ..|].
    + destruct (ch w) as [|r q] eqn:Hch.
      * rewrite Hcl. apply IH; try done. unfold drain_steps. simpl.
        rewrite Hch. simpl. lia.
      * apply IH; try done. unfold drain_steps. simpl. simpl in Hn. lia.
    + apply IH; try done. unfold drain_steps. simpl. lia.
    + replace (worker_step store (w, st)) with (w, st)
        by (unfold worker_step; by rewrite Hwk).
      by rewrite exited_stays.
Qed.

(** X12.  [Close] works once.  On a policy whose channel is open it
    returns, with the worker exited; on the policy it leaves, a second
    [Close] panics on the closed channel and so does every write.  On a
    policy whose channel is already closed it panics. *)
Theorem WriteBack_Close_only_once w st (key : string) (value : any) :
  match Close store (w, st) with
  | None => closed w = true
  | Some (w', st') =>
      closed w = false ∧ closed w' = true ∧ wk w' = Exited
      ∧ Close store (w', st') = None
      ∧ OnWrite w' key value = None
  end.
Proof.
  unfold Close at 1. unfold close_ch.
  destruct (closed w) eqn:Hcl; [done|]. simpl.
  set (w1 := mkWB (ch w) (cap w) true
                  (match wk w with Parked => Exited | k => k end)).
  destruct (closed_worker_exits (2 * length (ch w) + 2) w1 st) as [Hx Hc].
  - done.
  - unfold w1. simpl. by destruct (wk w).
  - unfold drain_steps, w1. simpl. destruct (wk w); lia.
  - destruct (Nat.iter _ _ _) as [w' st']. simpl in *. rewrite Hx.
    split; [done|]. split; [done|]. split; [done|].
    unfold Close, close_ch, OnWrite. by rewrite Hc.
Qed.

End write_back_drops.

(** * Further properties: the facade *)

Section facade_steps.
Context {B : Type}.
Implicit Types (c : cache.ShardedCache B) (sh : shard.Shard) (k : string).

Lemma entry_of_with_shard c i sh k :
  (i < length (cache.shards c))%nat →
  entry_of (cache.with_shard i sh c) k
  = if decide (shard.Select k (cache.shards c) = Some i)
    then shard.Get (shard.Store sh) k
    else entry_of c k.
Proof.
  intros Hi. unfold entry_of. simpl. rewrite Select_insert.
  destruct (shard.Select k (cache.shards c)) as [j|]; simpl.
  - destruct (decide (Some j = Some i)) as [[= ->]|Hne].
    + by rewrite list_lookup_insert_eq.
    + rewrite list_lookup_insert_ne; [done|]. by intros ->.
  - by destruct (decide (None = Some i)).
Qed.

Lemma entry_of_selected c i sh k :
  shard.Select k (cache.shards c) = Some i →
  cache.shards c !! i = Some sh →
  entry_of c k = shard.Get (shard.Store sh) k.
Proof. intros Hi Hsh. unfold entry_of. rewrite Hi. simpl. by rewrite Hsh. Qed.

Lemma Remove_inv c key c' :
  cache.Remove c key = Some c' →
  ∃ i sh,
    shard.Select key (cache.shards c) = Some i
    ∧ cache.shards c !! i = Some sh
    ∧ c' = cache.with_shard i
             (shard.mkShard (shard.Delete (shard.Store sh) key)
                            (eviction.Remove key (shard.Eviction sh))) c.
Proof.
  unfold cache.Remove.
  destruct (shard.Select key (cache.shards c)) as [i|] eqn:Hi; [|done].
  simpl. destruct (cache.shards c !! i) as [sh|] eqn:Hsh; [|done].
  simpl. intros [= <-]. eauto.
Qed.

Lemma Remove_entry c key c' k :
  cache.Remove c key = Some c' →
  entry_of c' k = if decide (k = key) then None else entry_of c k.
Proof.
  intros (i & sh & Hi & Hsh & ->)%Remove_inv.
  rewrite entry_of_with_shard by by eapply Select_lt.
  unfold shard.Get. cbn [shard.Store]. rewrite Delete_data.
  destruct (decide (k = key)) as [->|Hne].
  - rewrite decide_True by done. apply lookup_delete_eq.
  - destruct (decide (shard.Select k (cache.shards c) = Some i)) as [Hk|]; [|done].
    rewrite lookup_delete_ne by done.
    by rewrite (entry_of_selected c i sh k).
Qed.

Lemma policy_Remove_twice key (p : eviction.Policy) :
  eviction.Remove key (eviction.Remove key p) = eviction.Remove key p.
Proof.
  destruct p as [l|l|f]; simpl; f_equal.
  - unfold eviction.LRU.Remove at 1.
    destruct (eviction.LRU.nodes (eviction.LRU.Remove key l) !! key) as [n|] eqn:E;
      [|done].
    exfalso. apply elem_of_dom_2 in E.
    pose proof (tracked_after_call (eviction.PLRU l) key 0) as (_ & _ & Hr & _).
    simpl in Hr. rewrite Hr in E. set_solver.
  - unfold eviction.LFU.Remove at 1.
    destruct (eviction.LFU.nodes (eviction.LFU.Remove key l) !! key) as [n|] eqn:E;
      [|done].
    exfalso. apply elem_of_dom_2 in E.
    pose proof (tracked_after_call (eviction.PLFU l) key 0) as (_ & _ & Hr & _).
    simpl in Hr. rewrite Hr in E. set_solver.
  - unfold eviction.FIFO.Remove at 1.
    destruct (decide (key ∈ eviction.FIFO.set (eviction.FIFO.Remove key f)))
      as [E|]; [|done].
    exfalso.
    pose proof (tracked_after_call (eviction.PFIFO f) key 0) as (_ & _ & Hr & _).
    simpl in Hr. rewrite Hr in E. set_solver.
Qed.

Lemma Delete_twice (s : shard.cowStore) key :
  shard.Delete (shard.Delete s key) key = shard.Delete s key.
Proof.
  assert (shard.data (shard.Delete (shard.Delete s key) key)
          = shard.data (shard.Delete s key)) as Hd.
  { rewrite !Delete_data. apply delete_delete_eq. }
  pose proof (counted_Delete (shard.Delete s key) key) as H1.
  pose proof (counted_Delete s key) as H2.
  unfold counted, shard.Size in *. rewrite Hd, <- H2 in H1.
  destruct (shard.Delete (shard.Delete s key) key) as [d z].
  destruct (shard.Delete s key) as [d' z']. simpl in *. by subst.
Qed.

(** X13.  [Remove] empties the slot of its key and nothing else: the key
    is gone, every other key keeps its entry, the engine, and with it the
    backing store, is not touched, and removing the key again changes
    nothing.  It fails only where the selector does, on a cache without
    shards. *)
Theorem Remove_forgets_only_its_key c key :
  match cache.Remove c key with
  | None => cache.shards c = []
  | Some c' =>
      entry_of c' key = None
      ∧ (∀ k, k ≠ key → entry_of c' k = entry_of c k)
      ∧ cache.engine c' = cache.engine c
      ∧ cache.Remove c' key = Some c'
  end.
Proof.
  destruct (cache.Remove c key) as [c'|] eqn:E.
  - split; [|split; [|split]].
    + rewrite (Remove_entry c key c' key E). by rewrite decide_True.
    + intros k Hk. rewrite (Remove_entry c key c' k E). by rewrite decide_False.
    + apply Remove_inv in E as (i & sh & _ & _ & ->). done.
    + apply Remove_inv in E as (i & sh & Hi & Hsh & ->).
      pose proof (Select_lt _ _ _ Hi) as Hlt.
      unfold cache.Remove. simpl. rewrite Select_insert, Hi. simpl.
      rewrite list_lookup_insert_eq by done. simpl.
      rewrite Delete_twice, policy_Remove_twice.
      unfold cache.with_shard. simpl. by rewrite list_insert_insert_eq.
  - unfold cache.Remove in E.
    destruct (shard.Select key (cache.shards c)) as [i|] eqn:Hi.
    + simpl in E. pose proof (Select_lt _ _ _ Hi) as Hlt.
      destruct (lookup_lt_is_Some_2 _ _ Hlt) as [sh Hsh].
      by rewrite Hsh in E.
    + unfold shard.Select in Hi. by destruct (cache.shards c).
Qed.


Lemma entry_of_inv c key ent :
  entry_of c key = Some ent →
  ∃ i sh, shard.Select key (cache.shards c) = Some i
          ∧ cache.shards c !! i = Some sh
          ∧ shard.Get (shard.Store sh) key = Some ent.
Proof.
  unfold entry_of.
  destruct (shard.Select key (cache.shards c)) as [i|] eqn:Hi; [|done]. simpl.
  destruct (cache.shards c !! i) as [sh|] eqn:Hsh; [|done]. simpl. eauto.
Qed.

Lemma entry_of_None_inv c key :
  cache.shards c ≠ [] → entry_of c key = None →
  ∃ i sh, shard.Select key (cache.shards c) = Some i
          ∧ cache.shards c !! i = Some sh
          ∧ shard.Get (shard.Store sh) key = None.
Proof.
  intros Hne He. destruct (Select_is_Some key _ Hne) as (i & sh & Hi & Hsh).
  exists i, sh. rewrite (entry_of_selected c i sh key Hi Hsh) in He. done.
Qed.

Lemma TTL_entry c key now :
  cache.shards c ≠ [] →
  cache.TTL c key now = Some (ttl_answer (entry_of c key) now).
Proof.
  intros Hne. destruct (Select_is_Some key _ Hne) as (i & sh & Hi & Hsh).
  rewrite (entry_of_selected c i sh key Hi Hsh).
  unfold cache.TTL, ttl_answer. rewrite Hi. simpl. rewrite Hsh. simpl.
  destruct (shard.Get (shard.Store sh) key) as [ent|]; [|done].
  destruct (GoTime.IsZero (ExpireAt ent)); [done|].
  by destruct (GoTime.Until now (ExpireAt ent) <? 0).
Qed.

Lemma Until_Add now ttl :
  GoTime.Until now (GoTime.Add now ttl)
  = Z.max GoTime.minDuration (Z.min ttl GoTime.maxDuration).
Proof.
  unfold GoTime.Until, GoTime.Sub, GoTime.Add, GoTime.minDuration,
    GoTime.maxDuration.
  replace (now + ttl - now) with ttl by lia.
  destruct (Z.ltb_spec ttl (- 2 ^ 63)); [lia|].
  destruct (Z.ltb_spec (2 ^ 63 - 1) ttl); lia.
Qed.

Lemma ttl_answer_Add ent now ttl :
  ExpireAt ent = now + ttl → 0 < ttl → now + ttl ≠ 0 →
  ttl_answer (Some ent) now = Z.min ttl GoTime.maxDuration.
Proof.
  intros He Hpos Hnz. unfold ttl_answer. rewrite He.
  change (now + ttl) with (GoTime.Add now ttl). rewrite Until_Add.
  unfold GoTime.IsZero, GoTime.Add.
  apply Z.eqb_neq in Hnz. rewrite Hnz.
  unfold GoTime.minDuration, GoTime.maxDuration.
  destruct (Z.ltb_spec (Z.max (- 2 ^ 63) (Z.min ttl (2 ^ 63 - 1))) 0); lia.
Qed.

(** X14.  [Expire] on a key the cache does not hold returns false and
    leaves the cache as it was.  On a key it holds it returns true and
    sets that entry's expiry to [now + ttl], touching neither the value,
    nor another key, nor the engine; for a positive [ttl] a [TTL] call at
    the same instant then answers [ttl], capped at the largest
    duration. *)
Theorem Expire_sets_expiry_of_held_key c key ttl now :
  cache.shards c ≠ [] →
  match entry_of c key with
  | None => cache.Expire c key ttl now = Some (false, c)
  | Some ent =>
      ∃ c', cache.Expire c key ttl now = Some (true, c')
            ∧ entry_of c' key = Some (set_ExpireAt (now + ttl) ent)
            ∧ (∀ k, k ≠ key → entry_of c' k = entry_of c k)
            ∧ cache.engine c' = cache.engine c
            ∧ (0 < ttl → now + ttl ≠ 0 →
               cache.TTL c' key now = Some (Z.min ttl GoTime.maxDuration))
  end.
Proof.
  intros Hne. destruct (entry_of c key) as [ent|] eqn:He.
  - apply entry_of_inv in He as (i & sh & Hi & Hsh & Hg).
    pose proof (Select_lt _ _ _ Hi) as Hlt.
    unfold cache.Expire. rewrite Hi. simpl. rewrite Hsh. simpl. rewrite Hg.
    eexists. split; [done|].
    assert (entry_of
              (cache.with_shard i
                 (shard.mkShard
                    (shard.update_entry (shard.Store sh) key
                       (set_ExpireAt (GoTime.Add now ttl)))
                    (shard.Eviction sh)) c) key
            = Some (set_ExpireAt (now + ttl) ent)) as Hnew.
    { rewrite entry_of_with_shard, decide_True by done.
      unfold shard.Get, shard.update_entry. simpl.
      unfold shard.Get in Hg. by rewrite lookup_alter_eq, Hg. }
    split; [done|]. split; [|split; [done|]].
    + intros k Hk. rewrite entry_of_with_shard by done.
      destruct (decide (shard.Select k (cache.shards c) = Some i)) as [Hki|];
        [|done].
      rewrite (entry_of_selected c i sh k Hki Hsh).
      unfold shard.Get, shard.update_entry. simpl.
      by rewrite lookup_alter_ne.
    + intros Hpos Hnz. rewrite TTL_entry.
      * rewrite Hnew. f_equal. by apply ttl_answer_Add.
      * simpl. intros Hnil. apply (f_equal length) in Hnil.
        rewrite length_insert in Hnil. simpl in Hnil. lia.
  - apply (entry_of_None_inv c key Hne) in He as (i & sh & Hi & Hsh & Hg).
    unfold cache.Expire. rewrite Hi. simpl. rewrite Hsh. simpl. by rewrite Hg.
Qed.

End facade_steps.

(** The cache of the test suite after [Put("key1", ...)]: the key is
    held, and [Expire] gives it a window of five seconds. *)
Lemma Expire_sets_expiry_of_held_key_witness :
  match entry_of test_cache_put "key1" with
  | None => cache.Expire test_cache_put "key1" 5000000000 100
            = Some (false, test_cache_put)
  | Some ent =>
      ∃ c', cache.Expire test_cache_put "key1" 5000000000 100 = Some (true, c')
            ∧ entry_of c' "key1" = Some (set_ExpireAt (100 + 5000000000) ent)
            ∧ (∀ k, k ≠ "key1"%string → entry_of c' k = entry_of test_cache_put k)
            ∧ cache.engine c' = cache.engine test_cache_put
            ∧ (0 < 5000000000 → 100 + 5000000000 ≠ 0 →
               cache.TTL c' "key1" 100
               = Some (Z.min 5000000000 GoTime.maxDuration))
  end.
Proof.
  apply (Expire_sets_expiry_of_held_key test_cache_put "key1" 5000000000 100).
  by vm_compute.
Defined.

Section facade_paths.
Context {B : Type}.
Implicit Types (c : cache.ShardedCache B) (e : engine.CacheEngine B).

Lemma make_room_state c sh pick :
  engine.Backing (cache.make_room c sh pick).2 = engine.Backing (cache.engine c)
  ∧ engine.WritePolicy (cache.make_room c sh pick).2
    = engine.WritePolicy (cache.engine c)
  ∧ hits_and_misses (engine.Metrics (cache.make_room c sh pick).2)
    = hits_and_misses (engine.Metrics (cache.engine c)).
Proof.
  unfold cache.make_room. destruct (_ <=? _); [|done].
  destruct (eviction.Evict _ _) as [k ev]. by destruct (decide _).
Qed.

Lemma OnWrite_with_expiry e ent now r :
  engine.OnWrite e ent now = Some r →
  ExpireAt r.1 ≠ 0 → r.2 = e.
Proof.
  unfold engine.OnWrite. intros H Hnz.
  destruct (GoTime.IsZero _) eqn:Hz; simpl in H.
  - exfalso. apply Hnz.
    destruct (engine.WritePolicy e) as [p|].
    + destruct (writepolicy.OnWrite _ _ _ _ _) as [[p' st]|]; [|done].
      simpl in H. injection H as <-. simpl. unfold GoTime.IsZero in Hz. lia.
    + injection H as <-. simpl. unfold GoTime.IsZero in Hz. lia.
  - by injection H as <-.
Qed.

Lemma Put_entry_of c key ent i sh' e :
  shard.Select key (cache.shards c) = Some i →
  entry_of
    (cache.with_engine e
       (cache.with_shard i
          (shard.mkShard (shard.Put (shard.Store sh') key ent)
                         (eviction.OnPut key (shard.Eviction sh'))) c)) key
  = Some ent.
Proof.
  intros Hi. pose proof (Select_lt _ _ _ Hi) as Hlt.
  unfold entry_of. simpl. rewrite Select_insert, Hi. simpl.
  rewrite list_lookup_insert_eq by done. simpl.
  unfold shard.Get. cbn [shard.Store]. by rewrite Put_data, lookup_insert_eq.
Qed.

Lemma with_shard_nonempty c i sh e :
  cache.shards c ≠ [] →
  cache.shards (cache.with_engine e (cache.with_shard i sh c)) ≠ [].
Proof.
  simpl. intros Hne Hnil. apply (f_equal length) in Hnil.
  rewrite length_insert in Hnil. by destruct (cache.shards c).
Qed.

Lemma Select_nonempty key (l : list shard.Shard) i :
  shard.Select key l = Some i → l ≠ [].
Proof. unfold shard.Select. by destruct l. Qed.

(** X15.  [PutWithTTL] with a positive [ttl], under no strategy or the
    sliding one: the entry is stored with the expiry [now + ttl], which
    the write hook does not replace; a [TTL] call at the same instant
    answers [ttl], capped at the largest duration; and the write is not
    handed to the write policy, whose state and backing store stay as
    they were. *)
Theorem PutWithTTL_keeps_explicit_expiry c key value ttl now pick err c' :
  cache.PutWithTTL c key value ttl now pick = Some (err, c') →
  0 < ttl → now + ttl ≠ 0 →
  sliding_or_none (engine.Expiration (cache.engine c)) →
  entry_of c' key = Some (mkEntry key value now now (now + ttl))
  ∧ cache.TTL c' key now = Some (Z.min ttl GoTime.maxDuration)
  ∧ engine.WritePolicy (cache.engine c') = engine.WritePolicy (cache.engine c)
  ∧ engine.Backing (cache.engine c') = engine.Backing (cache.engine c).
Proof.
  intros HP Hpos Hnz Hexp.
  apply PutWithTTL_inv in HP as (i & sh & ent & e & Hi & Hsh & Hw & Hr).
  injection Hr as _ ->.
  pose proof (OnWrite_config _ _ _ _ _ Hw) as (_ & _ & _ & _ & Hent).
  destruct (make_room_config c sh pick) as (Hexp1 & _).
  destruct (make_room_state c sh pick) as (Hb1 & Hp1 & _).
  rewrite Hexp1 in Hent.
  assert (ent = mkEntry key value now now (now + ttl)) as ->.
  { rewrite Hent. unfold cache.new_entry.
    apply Z.ltb_lt in Hpos. rewrite Hpos.
    destruct Hexp as [->|(TTL & ->)]; [done|].
    simpl. unfold expiration.ExpireAfterAccess.OnWrite, GoTime.IsZero,
      GoTime.Add. simpl. apply Z.eqb_neq in Hnz. by rewrite Hnz. }
  pose proof (OnWrite_with_expiry _ _ _ _ Hw Hnz) as He. simpl in He. subst e.
  split; [by apply Put_entry_of|].
  split; [|by split].
  rewrite TTL_entry.
  - rewrite Put_entry_of by done. f_equal. by apply ttl_answer_Add.
  - apply with_shard_nonempty. by eapply Select_nonempty.
Qed.

Lemma Put_without_strategy c key value now pick err c' :
  cache.Put c key value now pick = Some (err, c') →
  engine.Expiration (cache.engine c) = None →
  entry_of c' key = Some (mkEntry key value now now 0)
  ∧ match engine.WritePolicy (cache.engine c) with
    | None =>
        engine.WritePolicy (cache.engine c') = None
        ∧ engine.Backing (cache.engine c') = engine.Backing (cache.engine c)
    | Some p =>
        writepolicy.OnWrite (engine.Loader (cache.engine c)) p
                            (engine.Backing (cache.engine c)) key value
        = Some (default p (engine.WritePolicy (cache.engine c')),
                engine.Backing (cache.engine c'))
    end.
Proof.
  intros HP Hs. unfold cache.Put in HP.
  apply PutWithTTL_inv in HP as (i & sh & ent & e & Hi & Hsh & Hw & Hr).
  injection Hr as _ ->.
  pose proof (OnWrite_config _ _ _ _ _ Hw) as (_ & _ & _ & _ & Hent).
  destruct (make_room_config c sh pick) as (Hexp1 & _ & Hld).
  destruct (make_room_state c sh pick) as (Hb1 & Hp1 & _).
  rewrite Hexp1, Hs in Hent. unfold cache.new_entry in Hent. simpl in Hent.
  subst ent. split; [by apply Put_entry_of|].
  unfold engine.OnWrite in Hw. rewrite Hexp1, Hs in Hw. simpl in Hw.
  rewrite Hp1, Hb1, Hld in Hw.
  destruct (engine.WritePolicy (cache.engine c)) as [p|].
  - destruct (writepolicy.OnWrite _ p _ key value) as [[p' st]|]; [|done].
    simpl in Hw. injection Hw as <-. done.
  - injection Hw as <-. simpl. by rewrite Hp1, Hb1.
Qed.

(** X16.  [Put] under the sliding strategy stores the entry with the
    expiry [now + TTL], and unless that instant is the zero time the
    write is not handed to the write policy: its state and the backing
    store stay as they were. *)
Theorem Put_under_sliding_is_not_forwarded c key value now pick err c' TTL :
  cache.Put c key value now pick = Some (err, c') →
  engine.Expiration (cache.engine c)
  = Some (expiration.ExpireAfterAccess TTL) →
  now + TTL ≠ 0 →
  entry_of c' key = Some (mkEntry key value now now (now + TTL))
  ∧ engine.WritePolicy (cache.engine c') = engine.WritePolicy (cache.engine c)
  ∧ engine.Backing (cache.engine c') = engine.Backing (cache.engine c).
Proof.
  intros HP Hs Hnz. unfold cache.Put in HP.
  apply PutWithTTL_inv in HP as (i & sh & ent & e & Hi & Hsh & Hw & Hr).
  injection Hr as _ ->.
  pose proof (OnWrite_config _ _ _ _ _ Hw) as (_ & _ & _ & _ & Hent).
  destruct (make_room_config c sh pick) as (Hexp1 & _ & Hld).
  destruct (make_room_state c sh pick) as (Hb1 & Hp1 & _).
  rewrite Hexp1, Hs in Hent. unfold cache.new_entry in Hent. simpl in Hent.
  assert (ent = mkEntry key value now now (now + TTL)) as -> by done.
  pose proof (OnWrite_with_expiry _ _ _ _ Hw Hnz) as He. simpl in He. subst e.
  split; [by apply Put_entry_of|]. by split.
Qed.

(** X17.  [Put] under no strategy stores the entry without expiry and
    hands key and value to the write policy, if there is one: the write
    policy and the backing store are afterwards what the policy's
    [OnWrite] made of them. *)
Theorem Put_without_strategy_is_forwarded c key value now pick err c' :
  cache.Put c key value now pick = Some (err, c') →
  engine.Expiration (cache.engine c) = None →
  entry_of c' key = Some (mkEntry key value now now 0)
  ∧ match engine.WritePolicy (cache.engine c) with
    | None =>
        engine.WritePolicy (cache.engine c') = None
        ∧ engine.Backing (cache.engine c') = engine.Backing (cache.engine c)
    | Some p =>
        writepolicy.OnWrite (engine.Loader (cache.engine c)) p
                            (engine.Backing (cache.engine c)) key value
        = Some (default p (engine.WritePolicy (cache.engine c')),
                engine.Backing (cache.engine c'))
    end.
Proof. apply Put_without_strategy. Qed.

Lemma Get_hit_inv c key now pick ent :
  entry_of c key = Some ent →
  engine.IsExpired (cache.engine c) ent now = false →
  ∃ c', cache.Get c key now pick
        = Some ((Value (engine.OnRead (engine.emit Hit (cache.engine c))
                                      key ent now).1, None), c')
        ∧ entry_of c' key
          = Some (engine.OnRead (engine.emit Hit (cache.engine c))
                                key ent now).1
        ∧ cache.engine c'
          = (engine.OnRead (engine.emit Hit (cache.engine c)) key ent now).2.
Proof.
  intros (i & sh & Hi & Hsh & Hg)%entry_of_inv Hx.
  pose proof (Select_lt _ _ _ Hi) as Hlt.
  unfold cache.Get. rewrite Hi. simpl. rewrite Hsh. simpl. rewrite Hg, Hx.
  destruct (engine.OnRead (engine.emit Hit (cache.engine c)) key ent now)
    as [ent' e'] eqn:Hr.
  eexists. split; [done|]. simpl. split; [|done].
  unfold entry_of. simpl. rewrite Select_insert, Hi. simpl.
  rewrite list_lookup_insert_eq by done. simpl.
  unfold shard.Get, shard.update_entry in *. simpl.
  by rewrite lookup_alter_eq, Hg.
Qed.

(** X18.  A hit under the sliding strategy returns the stored value
    without calling the loader and replaces the entry's expiry, also one
    given by [PutWithTTL] or [Expire], by [now + TTL]. *)
Theorem Get_hit_slides_the_window c key now pick ent TTL :
  entry_of c key = Some ent →
  engine.Expiration (cache.engine c)
  = Some (expiration.ExpireAfterAccess TTL) →
  ExpireAt ent = 0 ∨ now <= ExpireAt ent →
  ∃ c', cache.Get c key now pick = Some ((Value ent, None), c')
        ∧ entry_of c' key
          = Some (mkEntry (Key ent) (Value ent) (CreatedAt ent) now (now + TTL))
        ∧ engine.Backing (cache.engine c') = engine.Backing (cache.engine c).
Proof.
  intros He Hs Hfresh.
  destruct (Get_hit_inv c key now pick ent He) as (c' & HG & He' & Hen).
  - unfold engine.IsExpired. rewrite Hs. simpl.
    unfold expiration.ExpireAfterAccess.IsExpired, GoTime.IsZero, GoTime.After.
    destruct Hfresh as [->|Hle]; [done|].
    apply andb_false_iff. right. apply Z.ltb_ge. lia.
  - exists c'. unfold engine.OnRead in *. simpl in *. rewrite Hs in *.
    simpl in *. split; [done|]. split; [done|]. rewrite Hen.
    by destruct (engine.Refresh (cache.engine c)).
Qed.

(** X19.  Without an expiration strategy nothing expires on the read
    path.  For a held key whose expiry has passed, [TTL] answers [-2],
    and still [Get] returns the value, leaves the entry as it is and
    does not call the loader. *)
Theorem Get_ignores_expiry_without_strategy c key now pick ent :
  entry_of c key = Some ent →
  engine.Expiration (cache.engine c) = None →
  ExpireAt ent ≠ 0 → ExpireAt ent < now →
  (∃ c', cache.Get c key now pick = Some ((Value ent, None), c')
         ∧ entry_of c' key = Some ent
         ∧ engine.Backing (cache.engine c') = engine.Backing (cache.engine c))
  ∧ cache.TTL c key now = Some (-2).
Proof.
  intros He Hs Hnz Hlt. split.
  - destruct (Get_hit_inv c key now pick ent He) as (c' & HG & He' & Hen).
    { unfold engine.IsExpired. by rewrite Hs. }
    exists c'. unfold engine.OnRead in *. simpl in *. rewrite Hs in *.
    split; [done|]. split; [done|]. rewrite Hen.
    by destruct (engine.Refresh (cache.engine c)).
  - rewrite TTL_entry.
    + rewrite He. unfold ttl_answer, GoTime.IsZero, GoTime.Until, GoTime.Sub,
        GoTime.minDuration, GoTime.maxDuration.
      apply Z.eqb_neq in Hnz. rewrite Hnz.
      destruct (Z.ltb_spec (ExpireAt ent - now) (- 2 ^ 63)); [done|].
      destruct (Z.ltb_spec (2 ^ 63 - 1) (ExpireAt ent - now)); [lia|].
      destruct (Z.ltb_spec (ExpireAt ent - now) 0); [done|lia].
    + apply entry_of_inv in He as (i & sh & Hi & _). by eapply Select_nonempty.
Qed.

End facade_paths.

(** The cache of the test suite: [PutWithTTL("x", "temp", 1s)] at time
    100. *)
Lemma PutWithTTL_keeps_explicit_expiry_witness :
  entry_of test_cache_ttl "x"
  = Some (mkEntry "x" (astring "temp") 100 100 (100 + 1000000000))
  ∧ cache.TTL test_cache_ttl "x" 100
    = Some (Z.min 1000000000 GoTime.maxDuration)
  ∧ engine.WritePolicy (cache.engine test_cache_ttl)
    = engine.WritePolicy (cache.engine test_cache)
  ∧ engine.Backing (cache.engine test_cache_ttl)
    = engine.Backing (cache.engine test_cache).
Proof.
  apply (PutWithTTL_keeps_explicit_expiry test_cache "x" (astring "temp")
           1000000000 100 0 None test_cache_ttl).
  - by vm_compute.
  - lia.
  - lia.
  - right. by exists 10000000000.
Defined.

(** The cache of the test suite: [Put("key1", "value1")] at time 100. *)
Lemma Put_under_sliding_is_not_forwarded_witness :
  entry_of test_cache_put "key1"
  = Some (mkEntry "key1" (astring "value1") 100 100 (100 + 10000000000))
  ∧ engine.WritePolicy (cache.engine test_cache_put)
    = engine.WritePolicy (cache.engine test_cache)
  ∧ engine.Backing (cache.engine test_cache_put)
    = engine.Backing (cache.engine test_cache).
Proof.
  apply (Put_under_sliding_is_not_forwarded test_cache "key1"
           (astring "value1") 100 0 None test_cache_put 10000000000).
  - by vm_compute.
  - done.
  - lia.
Defined.

(** A write-through cache without strategy: [Put("k", "v")] at time 1. *)
Lemma Put_without_strategy_is_forwarded_witness :
  entry_of through_cache_put "k" = Some (mkEntry "k" (astring "v") 1 1 0)
  ∧ match engine.WritePolicy (cache.engine through_cache) with
    | None =>
        engine.WritePolicy (cache.engine through_cache_put) = None
        ∧ engine.Backing (cache.engine through_cache_put)
          = engine.Backing (cache.engine through_cache)
    | Some p =>
        writepolicy.OnWrite (engine.Loader (cache.engine through_cache)) p
          (engine.Backing (cache.engine through_cache)) "k" (astring "v")
        = Some (default p (engine.WritePolicy (cache.engine through_cache_put)),
                engine.Backing (cache.engine through_cache_put))
    end.
Proof.
  apply (Put_without_strategy_is_forwarded through_cache "k" (astring "v")
           1 0 None through_cache_put).
  - by vm_compute.
  - done.
Defined.

(** The cache of the test suite after [Put("key1", "value1")] at time
    100: a read at time 105. *)
Lemma Get_hit_slides_the_window_witness :
  ∃ c', cache.Get test_cache_put "key1" 105 0
        = Some ((astring "value1", None), c')
        ∧ entry_of c' "key1"
          = Some (mkEntry "key1" (astring "value1") 100 105 (105 + 10000000000))
        ∧ engine.Backing (cache.engine c')
          = engine.Backing (cache.engine test_cache_put).
Proof.
  apply (Get_hit_slides_the_window test_cache_put "key1" 105 0
           (mkEntry "key1" (astring "value1") 100 100 (100 + 10000000000))
           10000000000).
  - by vm_compute.
  - done.
  - right. simpl. lia.
Defined.

(** A cache without strategy that holds [x] with an expiry at time 6: a
    read at time 1000. *)
Lemma Get_ignores_expiry_without_strategy_witness :
  (∃ c', cache.Get plain_cache_ttl "x" 1000 0 = Some ((astring "temp", None), c')
         ∧ entry_of c' "x" = Some (mkEntry "x" (astring "temp") 1 1 6)
         ∧ engine.Backing (cache.engine c')
           = engine.Backing (cache.engine plain_cache_ttl))
  ∧ cache.TTL plain_cache_ttl "x" 1000 = Some (-2).
Proof.
  apply (Get_ignores_expiry_without_strategy plain_cache_ttl "x" 1000 0
           (mkEntry "x" (astring "temp") 1 1 6)).
  - by vm_compute.
  - done.
  - done.
  - simpl. lia.
Defined.

Section facade_loads.
Context {B : Type}.
Implicit Types (c : cache.ShardedCache B) (e : engine.CacheEngine B).

Lemma Get_miss_inv c key now pick :
  cache.shards c ≠ [] → entry_of c key = None →
  cache.Get c key now pick = cache.load_miss c key now pick.
Proof.
  intros Hne He.
  destruct (entry_of_None_inv c key Hne He) as (i & sh & Hi & Hsh & Hg).
  unfold cache.Get. rewrite Hi. simpl. rewrite Hsh. simpl. by rewrite Hg.
Qed.


Lemma PutWithTTL_metrics c key value ttl now pick r :
  cache.PutWithTTL c key value ttl now pick = Some r →
  hits_and_misses (engine.Metrics (cache.engine r.2))
  = hits_and_misses (engine.Metrics (cache.engine c)).
Proof.
  intros (i & sh & ent & e & Hi & Hsh & Hw & ->)%PutWithTTL_inv. simpl.
  apply OnWrite_config in Hw as (_ & _ & _ & -> & _).
  apply make_room_state.
Qed.

Lemma load_miss_metrics c key now pick r :
  cache.load_miss c key now pick = Some r →
  hits_and_misses (engine.Metrics (cache.engine r.2))
  = S (hits_and_misses (engine.Metrics (cache.engine c))).
Proof.
  unfold cache.load_miss, engine.Load. simpl.
  destruct (Load _ _ key) as [[val err] st]. simpl.
  destruct (bool_decide (err ≠ None) || is_nil val).
  - by intros [= <-].
  - unfold cache.Put.
    destruct (cache.PutWithTTL _ key val 0 now pick) as [[err' c']|] eqn:E;
      [|done].
    simpl. intros [= <-]. simpl.
    apply PutWithTTL_metrics in E. simpl in E. by rewrite E.
Qed.

(** X20.  Every [Get] that returns records exactly one hit or one miss
    in the metrics sink, whatever else it records on the way (an
    expiration, an eviction, a refresh); [Put] and [PutWithTTL] record
    neither. *)
Theorem Get_records_one_hit_or_miss c key value ttl now pick :
  match cache.Get c key now pick with
  | Some (_, c') =>
      hits_and_misses (engine.Metrics (cache.engine c'))
      = S (hits_and_misses (engine.Metrics (cache.engine c)))
  | None => True
  end
  ∧ match cache.PutWithTTL c key value ttl now pick with
    | Some (_, c') =>
        hits_and_misses (engine.Metrics (cache.engine c'))
        = hits_and_misses (engine.Metrics (cache.engine c))
    | None => True
    end.
Proof.
  split.
  - destruct (cache.Get c key now pick) as [[r c']|] eqn:E; [|done].
    unfold cache.Get in E.
    destruct (shard.Select key (cache.shards c)) as [i|] eqn:Hi; [|done].
    simpl in E. destruct (cache.shards c !! i) as [sh|] eqn:Hsh; [|done].
    simpl in E. destruct (shard.Get (shard.Store sh) key) as [ent|].
    + destruct (engine.IsExpired (cache.engine c) ent now).
      * destruct (cache.Remove _ key) as [c1|] eqn:ER; [|done]. simpl in E.
        apply load_miss_metrics in E. simpl in E. rewrite E.
        apply Remove_inv in ER as (? & ? & _ & _ & ->). done.
      * unfold engine.OnRead in E. injection E as _ <-. simpl.
        by destruct (engine.Refresh (cache.engine c)).
    + by apply load_miss_metrics in E.
  - destruct (cache.PutWithTTL c key value ttl now pick) as [[err c']|] eqn:E;
      [|done].
    by apply PutWithTTL_metrics in E.
Qed.


Lemma Put_succeeds_without_strategy c key value now pick :
  cache.shards c ≠ [] →
  engine.Expiration (cache.engine c) = None →
  engine.WritePolicy (cache.engine c) = Some writepolicy.PWriteThrough →
  ∃ c', cache.Put c key value now pick = Some (None, c').
Proof.
  intros Hne Hs Hp. destruct (Select_is_Some key _ Hne) as (i & sh & Hi & Hsh).
  unfold cache.Put, cache.PutWithTTL. rewrite Hi. simpl. rewrite Hsh. simpl.
  destruct (cache.make_room c sh pick) as [sh1 e1] eqn:M.
  pose proof (make_room_config c sh pick) as (Hexp1 & _).
  pose proof (make_room_state c sh pick) as (_ & Hp1 & _).
  rewrite M in Hexp1, Hp1. simpl in Hexp1, Hp1.
  unfold engine.OnWrite. rewrite Hexp1, Hs, Hp1, Hp. simpl. eauto.
Qed.

Lemma Remove_is_Some c key :
  cache.shards c ≠ [] → ∃ c', cache.Remove c key = Some c'.
Proof.
  intros Hne. destruct (Select_is_Some key _ Hne) as (i & sh & Hi & Hsh).
  unfold cache.Remove. rewrite Hi. simpl. rewrite Hsh. simpl. eauto.
Qed.

End facade_loads.

Section write_through_store.
Implicit Types (c : cache.ShardedCache (gmap string any)).

(** X22.  Write-through makes a value outlive the cache entry.  With no
    strategy, a write-through policy and the map-backed store of the
    test suite as loader and backing store: after [Put] of a value that
    is not nil and [Remove] of its key, [Get] reloads and returns that
    value, and none of the three calls can fail. *)
Theorem write_through_value_survives_Remove c key v now pick now' pick' :
  cache.shards c ≠ [] →
  engine.Expiration (cache.engine c) = None →
  engine.WritePolicy (cache.engine c) = Some writepolicy.PWriteThrough →
  engine.Loader (cache.engine c) = TestStore →
  is_nil v = false →
  ∃ c1 c2 c3,
    cache.Put c key v now pick = Some (None, c1)
    ∧ cache.Remove c1 key = Some c2
    ∧ entry_of c2 key = None
    ∧ cache.Get c2 key now' pick' = Some ((v, None), c3).
Proof.
  intros Hne Hs Hp HL Hv.
  destruct (Put_succeeds_without_strategy c key v now pick Hne Hs Hp)
    as (c1 & HP).
  pose proof (Put_without_strategy c key v now pick None c1 HP Hs) as [_ Hf].
  rewrite Hp, HL in Hf. simpl in Hf.
  unfold writepolicy.WriteThrough.OnWrite in Hf. simpl in Hf.
  injection Hf as Hpol Hback.
  pose proof HP as HP'. unfold cache.Put in HP'.
  apply PutWithTTL_inv in HP' as (i & sh & ent & e & Hi & Hsh & Hw & Hr).
  injection Hr as ->.
  pose proof (OnWrite_config _ _ _ _ _ Hw) as (Hexp & _ & Hld & _ & _).
  destruct (make_room_config c sh pick) as (Hexp1 & _ & Hld1).
  assert (cache.shards
            (cache.with_engine e
               (cache.with_shard i
                  (shard.mkShard
                     (shard.Put (shard.Store (cache.make_room c sh pick).1)
                                key ent)
                     (eviction.OnPut key
                        (shard.Eviction (cache.make_room c sh pick).1))) c))
          ≠ []) as Hne1 by by apply with_shard_nonempty.
  set (c1 := cache.with_engine e _) in *.
  assert (engine.Expiration (cache.engine c1) = None) as Hs1.
  { simpl. by rewrite Hexp, Hexp1. }
  assert (engine.Loader (cache.engine c1) = TestStore) as HL1.
  { simpl. by rewrite Hld, Hld1. }
  assert (engine.WritePolicy (cache.engine c1)
          = Some writepolicy.PWriteThrough) as Hp1.
  { destruct (engine.WritePolicy (cache.engine c1)) as [p|] eqn:Hq.
    - simpl in Hpol. by subst p.
    - clear -Hw Hp Hexp1 Hs Hq.
      pose proof (make_room_state c sh pick) as (_ & Hpm & _).
      unfold engine.OnWrite in Hw. rewrite Hexp1, Hs, Hpm, Hp in Hw.
      simpl in Hw. injection Hw as _ <-. done. }
  destruct (Remove_is_Some c1 key Hne1) as [c2 HR].
  pose proof (Remove_entry c1 key c2 key HR) as He2.
  rewrite decide_True in He2 by done.
  pose proof HR as HR'.
  apply Remove_inv in HR' as (i2 & sh2 & Hi2 & Hsh2 & Hc2).
  assert (cache.shards c2 ≠ []) as Hne2.
  { rewrite Hc2. simpl. intros Hnil. apply (f_equal length) in Hnil.
    rewrite length_insert in Hnil. by apply Hne1, nil_length_inv. }
  assert (cache.engine c2 = cache.engine c1) as He21 by (by subst c2).
  exists c1, c2.
  assert (∃ c3, cache.Get c2 key now' pick' = Some ((v, None), c3)) as [c3 HG].
  { rewrite Get_miss_inv by done.
    unfold cache.load_miss, engine.Load. simpl.
    rewrite He21, HL1. simpl. simpl in Hback.
    rewrite <- Hback, lookup_insert_eq. simpl. rewrite Hv. simpl.
    match goal with
    | |- context [cache.Put ?X key v now' pick'] =>
        destruct (Put_succeeds_without_strategy X key v now' pick')
          as (c3 & HP3)
    end.
    - done.
    - simpl. simpl in Hs1. by rewrite Hs1.
    - simpl. simpl in Hp1. by rewrite Hp1.
    - exists c3. by rewrite HP3. }
  exists c3. done.
Qed.

End write_through_store.


Lemma write_through_value_survives_Remove_witness :
  ∃ c1 c2 c3,
    cache.Put through_cache "k" (astring "v") 1 0 = Some (None, c1)
    ∧ cache.Remove c1 "k" = Some c2
    ∧ entry_of c2 "k" = None
    ∧ cache.Get c2 "k" 7 0 = Some ((astring "v", None), c3).
Proof.
  apply (write_through_value_survives_Remove through_cache "k" (astring "v")
           1 0 7 0); by vm_compute.
Defined.

Section shard_moves.
Context {B : Type}.
Implicit Types (c : cache.ShardedCache B) (sh : shard.Shard)
  (l : list shard.Shard).

Lemma touches_one b key l i sh sh' :
  shard.Select key l = Some i → l !! i = Some sh →
  rtc (shard_move b key) sh sh' → touches b key l (<[i := sh']> l).
Proof. intros. right. by exists i, sh, sh'. Qed.

Lemma touches_trans b key l1 l2 l3 :
  touches b key l1 l2 → touches b key l2 l3 → touches b key l1 l3.
Proof.
  intros [->|(i & sh & sh' & Hi & Hsh & Hm & ->)]; [done|].
  intros [->|(j & sh2 & sh3 & Hj & Hsh2 & Hm2 & ->)].
  - by apply (touches_one _ key l1 i sh sh').
  - rewrite Select_insert, Hi in Hj. injection Hj as <-.
    rewrite list_lookup_insert_eq in Hsh2 by by eapply Select_lt.
    injection Hsh2 as <-. rewrite list_insert_insert_eq.
    apply (touches_one _ key l1 i sh sh3); [done|done|].
    by etrans.
Qed.

Lemma make_room_moves b key c sh pick :
  rtc (shard_move b key) sh (cache.make_room c sh pick).1.
Proof.
  unfold cache.make_room. destruct (_ <=? _); [|done].
  destruct (eviction.Evict pick (shard.Eviction sh)) as [k ev] eqn:E.
  destruct (decide (k ≠ ""%string)) as [Hk|Hk]; simpl; apply rtc_once.
  - pose proof (mv_evict b key sh pick) as H. rewrite E in H. by apply H.
  - pose proof (mv_evict_none b key sh pick) as H. rewrite E in H.
    apply H. simpl. by destruct (decide (k = ""%string)).
Qed.

Lemma PutWithTTL_touches c key value ttl now pick r :
  cache.PutWithTTL c key value ttl now pick = Some r →
  touches true key (cache.shards c) (cache.shards r.2).
Proof.
  intros (i & sh & ent & e & Hi & Hsh & Hw & ->)%PutWithTTL_inv.
  simpl. apply (touches_one _ key _ i sh); [done|done|].
  eapply rtc_r; [apply make_room_moves|]. by apply mv_put.
Qed.

Lemma Remove_touches b c key c' :
  cache.Remove c key = Some c' →
  touches b key (cache.shards c) (cache.shards c').
Proof.
  intros (i & sh & Hi & Hsh & ->)%Remove_inv. simpl.
  apply (touches_one _ key _ i sh); [done|done|]. apply rtc_once, mv_remove.
Qed.

Lemma load_miss_touches c key now pick r :
  cache.load_miss c key now pick = Some r →
  touches true key (cache.shards c) (cache.shards r.2).
Proof.
  unfold cache.load_miss.
  destruct (engine.Load _ key) as [[val err] e].
  destruct (bool_decide (err ≠ None) || is_nil val).
  - intros [= <-]. by left.
  - unfold cache.Put.
    destruct (cache.PutWithTTL _ key val 0 now pick) as [[err' c']|] eqn:E;
      [|done].
    simpl. intros [= <-].
    by apply PutWithTTL_touches in E.
Qed.

Lemma Get_touches c key now pick r :
  cache.Get c key now pick = Some r →
  touches true key (cache.shards c) (cache.shards r.2).
Proof.
  unfold cache.Get.
  destruct (shard.Select key (cache.shards c)) as [i|] eqn:Hi; [|done]. simpl.
  destruct (cache.shards c !! i) as [sh|] eqn:Hsh; [|done]. simpl.
  destruct (shard.Get (shard.Store sh) key) as [ent|];
    [|by apply load_miss_touches].
  destruct (engine.IsExpired (cache.engine c) ent now).
  - destruct (cache.Remove _ key) as [c1|] eqn:E; [|done]. simpl.
    intros H. apply (Remove_touches true) in E.
    apply load_miss_touches in H.
    by eapply touches_trans.
  - destruct (engine.OnRead (engine.emit Hit (cache.engine c)) key ent now)
      as [ent' e].
    intros [= <-]. simpl.
    apply (touches_one _ key _ i sh); [done|done|]. apply rtc_once, mv_read.
Qed.

Lemma Expire_touches b c key ttl now r :
  cache.Expire c key ttl now = Some r →
  touches b key (cache.shards c) (cache.shards r.2).
Proof.
  unfold cache.Expire.
  destruct (shard.Select key (cache.shards c)) as [i|] eqn:Hi; [|done]. simpl.
  destruct (cache.shards c !! i) as [sh|] eqn:Hsh; [|done]. simpl.
  destruct (shard.Get (shard.Store sh) key) as [ent|].
  - intros [= <-]. simpl.
    apply (touches_one _ key _ i sh); [done|done|]. apply rtc_once, mv_expire.
  - intros [= <-]. by left.
Qed.

(** How one call of the facade changes the shards. *)
Lemma step_touches o c c' :
  cache_step o c = Some c' →
  match op_key o with
  | Some key => touches (op_stores o) key (cache.shards c) (cache.shards c')
  | None => cache.shards c' = cache.shards c
  end.
Proof.
  intros H. destruct o; simpl in *.
  - destruct (cache.Get c key now pick) as [r|] eqn:E; [|done].
    injection H as <-. by eapply Get_touches.
  - destruct (cache.Put c key value now pick) as [r|] eqn:E; [|done].
    injection H as <-. by eapply PutWithTTL_touches.
  - destruct (cache.PutWithTTL c key value ttl now pick) as [r|] eqn:E; [|done].
    injection H as <-. by eapply PutWithTTL_touches.
  - by apply Remove_touches.
  - destruct (cache.Expire c key ttl now) as [r|] eqn:E; [|done].
    injection H as <-. by eapply Expire_touches.
  - destruct (cache.TTL c key now); [|done]. injection H as <-. by left.
  - unfold cache.Close in H.
    destruct (engine.WritePolicy (cache.engine c)) as [p|].
    + destruct (writepolicy.Close _ p _) as [[p' st]|]; [|done].
      by injection H as <-.
    + by injection H as <-.
  - injection H as <-. unfold worker_tick.
    destruct (engine.WritePolicy (cache.engine c)) as [[|w]|]; try done.
    by destruct (writepolicy.WriteBack.worker_step _ _).
Qed.

Lemma mirrored_move b key sh sh' :
  (b = true → key ≠ ""%string) →
  shard_move b key sh sh' → mirrored sh → mirrored sh'.
Proof.
  intros Hb Hm (Hc & Hd & He). unfold mirrored, counted in *.
  pose proof (tracked_after_call (shard.Eviction sh) key 0)
    as (HP & HG & HR & _).
  destruct Hm as [sh|sh g|sh g|sh pick Hk|sh pick Hk|sh ent Hk];
    cbn [shard.Store shard.Eviction].
  - rewrite Delete_Size, Delete_data, dom_delete_L, HR, Hd.
    split; [done|]. split; [done|]. set_solver.
  - unfold shard.update_entry, shard.Size in *.
    cbn [shard.data shard.size]. rewrite dom_alter_L.
    split; [|done]. by rewrite Hc, <- !size_dom, dom_alter_L.
  - unfold shard.update_entry, shard.Size in *.
    cbn [shard.data shard.size]. rewrite dom_alter_L, HG.
    split; [|done]. by rewrite Hc, <- !size_dom, dom_alter_L.
  - pose proof (tracked_after_call (shard.Eviction sh) key pick)
      as (_ & _ & _ & [HE|HE]).
    + rewrite Delete_Size, Delete_data, dom_delete_L, HE, Hd.
      split; [done|]. split; [done|]. set_solver.
    + rewrite HE in Hk. done.
  - pose proof (tracked_after_call (shard.Eviction sh) key pick)
      as (_ & _ & _ & [HE|HE]).
    + rewrite HE, Hk. split; [done|]. split; set_solver.
    + by rewrite HE.
  - apply Hb in Hk.
    rewrite Put_Size, Put_data, dom_insert_L, HP, Hd.
    split; [done|]. split; [done|]. set_solver.
Qed.

Lemma mirrored_moves b key sh sh' :
  (b = true → key ≠ ""%string) →
  rtc (shard_move b key) sh sh' → mirrored sh → mirrored sh'.
Proof. intros Hb. induction 1; eauto using mirrored_move. Qed.

Lemma move_dom b key sh sh' :
  shard_move b key sh sh' →
  dom (shard.data (shard.Store sh'))
  ⊆ {[key]} ∪ dom (shard.data (shard.Store sh)).
Proof.
  intros [sh0|sh0 g|sh0 g|sh0 pick Hk|sh0 pick Hk|sh0 ent Hk];
    cbn [shard.Store]; rewrite ?Delete_data, ?Put_data;
    unfold shard.update_entry; cbn [shard.data];
    rewrite ?dom_delete_L, ?dom_alter_L, ?dom_insert_L; set_solver.
Qed.

Lemma moves_dom b key sh sh' :
  rtc (shard_move b key) sh sh' →
  dom (shard.data (shard.Store sh'))
  ⊆ {[key]} ∪ dom (shard.data (shard.Store sh)).
Proof.
  induction 1 as [|x y z Hxy _ IH]; [set_solver|].
  apply move_dom in Hxy. set_solver.
Qed.

Lemma touches_length b key l l' : touches b key l l' → length l' = length l.
Proof.
  intros [->|(i & sh & sh' & _ & _ & _ & ->)]; [done|]. apply length_insert.
Qed.

Lemma touches_Select b key l l' k :
  touches b key l l' → shard.Select k l' = shard.Select k l.
Proof.
  intros [->|(i & sh & sh' & _ & _ & _ & ->)]; [done|]. apply Select_insert.
Qed.

Lemma touches_mirrored b key l l' :
  (b = true → key ≠ ""%string) →
  touches b key l l' → Forall mirrored l → Forall mirrored l'.
Proof.
  intros Hb [->|(i & sh & sh' & Hi & Hsh & Hm & ->)] Hl; [done|].
  apply Forall_insert; [done|].
  eapply mirrored_moves; [done|done|]. by eapply Forall_lookup_1.
Qed.

Lemma named_key_of_storing o key :
  stores_named_key o → op_key o = Some key → op_stores o = true →
  key ≠ ""%string.
Proof. destruct o; simpl; intros H [= <-] Hs; done. Qed.

Lemma step_mirrored o c c' :
  stores_named_key o → cache_step o c = Some c' →
  Forall mirrored (cache.shards c) → Forall mirrored (cache.shards c').
Proof.
  intros Hkey H. apply step_touches in H.
  destruct (op_key o) as [key|] eqn:Hk; [|by rewrite H].
  eapply touches_mirrored; [|done]. by apply (named_key_of_storing o).
Qed.

Lemma run_mirrored ops c c' :
  Forall stores_named_key ops → cache_run ops c = Some c' →
  Forall mirrored (cache.shards c) → Forall mirrored (cache.shards c').
Proof.
  intros Hops. revert c. induction Hops as [|o ops Ho _ IH]; intros c.
  - by intros [= <-].
  - simpl. destruct (cache_step o c) as [c1|] eqn:E; [|done]. simpl.
    intros H Hc. apply (IH c1 H). by eapply step_mirrored.
Qed.

Lemma new_shards_mirrored n capacity ev (e : engine.CacheEngine B) c :
  cache.NewShardedCache n capacity ev e = Some c →
  Forall mirrored (cache.shards c)
  ∧ Forall (λ sh, shard.data (shard.Store sh) = ∅) (cache.shards c).
Proof.
  unfold cache.NewShardedCache.
  destruct (n <? 0); [done|]. destruct (n =? 0).
  { intros [= <-]. by split. }
  unfold eviction.NewEvictionPolicy.
  assert (∀ p, p ∈ new_policies → mirrored (shard.NewShard p)) as Hnew.
  { intros p Hp. unfold new_policies in Hp.
    repeat (apply elem_of_cons in Hp as [->|Hp]); [| | |by apply elem_of_nil in Hp];
      (split; [done|]; split; [|set_solver]); simpl;
      by rewrite dom_empty_L. }
  repeat case_decide; simpl; try done; intros [= <-]; simpl;
    (split; apply Forall_replicate; [apply Hnew; set_solver|done]).
Qed.

(** X23.  Under each of the three policies the store of a shard and the
    key index of its policy hold the same keys, and the size counter of
    the store is the number of these keys, after any sequence of calls on
    a cache the constructor built, as long as no call that can store a
    key uses the empty string. *)
Theorem store_and_policy_hold_the_same_keys n capacity ev
    (e : engine.CacheEngine B) c ops c' :
  cache.NewShardedCache n capacity ev e = Some c →
  Forall stores_named_key ops →
  cache_run ops c = Some c' →
  Forall (λ sh, tracked (shard.Eviction sh) = dom (shard.data (shard.Store sh))
                ∧ shard.Size (shard.Store sh)
                  = Z.of_nat (size (shard.data (shard.Store sh))))
         (cache.shards c').
Proof.
  intros Hnew Hops Hrun.
  apply new_shards_mirrored in Hnew as [Hm _].
  pose proof (run_mirrored ops c c' Hops Hrun Hm) as H.
  eapply Forall_impl; [exact H|]. by intros sh (? & ? & _).
Qed.

Lemma touches_resident b key l l' :
  touches b key l l' →
  (∀ j sh k, l !! j = Some sh → k ∈ dom (shard.data (shard.Store sh)) →
             shard.Select k l = Some j) →
  ∀ j sh k, l' !! j = Some sh → k ∈ dom (shard.data (shard.Store sh)) →
            shard.Select k l' = Some j.
Proof.
  intros [->|(i & sh0 & sh' & Hi & Hsh & Hm & ->)] Hl; [done|].
  intros j sh k Hj Hk. rewrite Select_insert.
  destruct (decide (i = j)) as [->|Hne].
  - rewrite list_lookup_insert_eq in Hj by by eapply Select_lt.
    injection Hj as <-. apply moves_dom in Hm.
    assert (k = key ∨ k ∈ dom (shard.data (shard.Store sh0))) as [->|Hin]
      by set_solver; [done|by eapply Hl].
  - rewrite list_lookup_insert_ne in Hj by done. by eapply Hl.
Qed.

Lemma run_resident ops c c' :
  cache_run ops c = Some c' → resident c → resident c'.
Proof.
  revert c. induction ops as [|o ops IH]; intros c.
  - by intros [= <-].
  - simpl. destruct (cache_step o c) as [c1|] eqn:E; [|done]. simpl.
    intros H Hc. apply (IH c1 H).
    apply step_touches in E. unfold resident in *.
    destruct (op_key o) as [key|]; [by eapply touches_resident|by rewrite E].
Qed.

(** X24.  A key is held only by the shard the selector names for it:
    after any sequence of calls on a cache the constructor built, every
    key in the store of a shard is a key [Select] sends to that shard. *)
Theorem keys_live_in_their_selected_shard n capacity ev
    (e : engine.CacheEngine B) c ops c' :
  cache.NewShardedCache n capacity ev e = Some c →
  cache_run ops c = Some c' →
  resident c'.
Proof.
  intros Hnew Hrun.
  apply new_shards_mirrored in Hnew as [_ He].
  apply (run_resident ops c c' Hrun).
  intros j sh k Hj Hk.
  apply (Forall_lookup_1 _ _ _ _ He) in Hj. simpl in Hj.
  rewrite Hj in Hk. set_solver.
Qed.

(** X25.  A call touches one shard at most.  A call of the facade never
    changes the number of shards, a call that names a key leaves every
    shard but the one the selector names for that key as it was, and
    [Close] and the write-back worker leave all of them as they were. *)
Theorem call_changes_only_the_selected_shard o c c' :
  cache_step o c = Some c' →
  length (cache.shards c') = length (cache.shards c)
  ∧ match op_key o with
    | Some key =>
        ∀ j, shard.Select key (cache.shards c) ≠ Some j →
             cache.shards c' !! j = cache.shards c !! j
    | None => cache.shards c' = cache.shards c
    end.
Proof.
  intros H. apply step_touches in H.
  destruct (op_key o) as [key|]; [|by rewrite H].
  split; [by eapply touches_length|].
  intros j Hj. destruct H as [->|(i & sh & sh' & Hi & _ & _ & ->)]; [done|].
  apply list_lookup_insert_ne. congruence.
Qed.

End shard_moves.

(** The LRU cache whose list the two reads of [a] have corrupted: store
    and key index still agree. *)
Lemma store_and_policy_hold_the_same_keys_witness :
  Forall (λ sh, tracked (shard.Eviction sh) = dom (shard.data (shard.Store sh))
                ∧ shard.Size (shard.Store sh)
                  = Z.of_nat (size (shard.data (shard.Store sh))))
         (cache.shards lru_cache_grown).
Proof.
  apply (store_and_policy_hold_the_same_keys 1 2 "LRU" plain_engine
           lru_cache reads_then_puts lru_cache_grown).
  - done.
  - unfold reads_then_puts. by repeat constructor.
  - by vm_compute.
Defined.

Lemma keys_live_in_their_selected_shard_witness : resident test_cache_put.
Proof.
  apply (keys_live_in_their_selected_shard 2 10 "LRU" test_engine test_cache
           [OpPut "key1" (astring "value1") 100 0] test_cache_put).
  - done.
  - by vm_compute.
Defined.

Lemma call_changes_only_the_selected_shard_witness :
  length (cache.shards test_cache_put) = length (cache.shards test_cache)
  ∧ ∀ j, shard.Select "key1" (cache.shards test_cache) ≠ Some j →
         cache.shards test_cache_put !! j = cache.shards test_cache !! j.
Proof.
  apply (call_changes_only_the_selected_shard
           (OpPut "key1" (astring "value1") 100 0) test_cache test_cache_put).
  by vm_compute.
Defined.

Section lru_list.
Import eviction.LRU.
Implicit Types (h : gmap nat lruNode) (cells : list (nat * string))
  (nx e : option nat) (l : lru).

Lemma first_or_app c1 c2 e :
  first_or (c1 ++ c2) e = first_or c1 (first_or c2 e).
Proof. by destruct c1. Qed.

Lemma last_or_app c1 c2 e :
  last_or (c1 ++ c2) e = last_or c2 (last_or c1 e).
Proof. revert e. induction c1 as [|c c1 IH]; intros e; simpl; [done|apply IH]. Qed.

Lemma last_or_cons c cells e : ∃ a, last_or (c :: cells) e = Some a.
Proof.
  revert c. induction cells as [|c' cells IH]; intros c; simpl; [eauto|].
  apply (IH c').
Qed.

Lemma last_or_elem cells e q :
  last_or cells e = Some q → e = Some q ∨ q ∈ cells.*1.
Proof.
  revert e. induction cells as [|c cells IH]; intros e; simpl; [by left|].
  intros [[= <-]|Hin]%IH; right; set_solver.
Qed.

Lemma chain_frame h h' nx cells e :
  (∀ a, a ∈ cells.*1 → h' !! a = h !! a) →
  chain h nx cells e → chain h' nx cells e.
Proof.
  revert nx. induction cells as [|c cells IH]; intros nx Hf; simpl; [done|].
  intros [Hc Hrest]. split.
  - rewrite Hf; [done|]. set_solver.
  - apply IH; [|done]. intros a Ha. apply Hf. set_solver.
Qed.

Lemma chain_app h nx c1 c2 e :
  chain h nx (c1 ++ c2) e
  ↔ chain h nx c1 (first_or c2 e) ∧ chain h (last_or c1 nx) c2 e.
Proof.
  revert nx. induction c1 as [|c c1 IH]; intros nx; simpl.
  - tauto.
  - rewrite first_or_app, IH. tauto.
Qed.

Lemma chain_set_start h nx nx' c cells e :
  c.1 ∉ cells.*1 →
  chain h nx (c :: cells) e →
  chain (store_next c.1 nx' h) nx' (c :: cells) e.
Proof.
  simpl. intros Hc [Ha Hrest]. split.
  - unfold store_next. by rewrite lookup_alter_eq, Ha.
  - eapply chain_frame; [|done]. intros a Hin. unfold store_next.
    apply lookup_alter_ne. by intros <-.
Qed.

Lemma chain_set_end h nx cells c e e' :
  c.1 ∉ cells.*1 →
  chain h nx (cells ++ [c]) e →
  chain (store_prev c.1 e' h) nx (cells ++ [c]) e'.
Proof.
  rewrite !chain_app. simpl. intros Hc (Hcells & Ha & _).
  split; [|split; [|done]].
  - eapply chain_frame; [|done]. intros a Hin. unfold store_prev.
    apply lookup_alter_ne. by intros <-.
  - unfold store_prev. by rewrite lookup_alter_eq, Ha.
Qed.

Lemma snoc_or_nil cells :
  cells = [] ∨ ∃ c1 c, cells = c1 ++ [c].
Proof. destruct cells as [|c cells] using rev_ind; eauto. Qed.

Lemma chain_unlink h nx c1 c c2 e :
  NoDup (c1 ++ c :: c2).*1 →
  chain h nx (c1 ++ c :: c2) e →
  chain (unlinked c1 c2 nx e h) nx (c1 ++ c2) e.
Proof.
  rewrite fmap_app, fmap_cons.
  intros (Hn1 & Hd & [Hc Hn2]%NoDup_cons)%NoDup_app.
  rewrite !chain_app. simpl. intros (H1 & Ha & H2). unfold unlinked.
  set (h1 := match c2 with
             | p :: _ => store_next p.1 (last_or c1 nx) h
             | [] => h
             end).
  assert (chain h1 nx c1 (Some c.1) ∧ chain h1 (last_or c1 nx) c2 e)
    as [H1' H2'].
  { subst h1. destruct c2 as [|p c2]; [done|]. split.
    - eapply chain_frame; [|done]. intros a Hin. unfold store_next.
      apply lookup_alter_ne. intros <-. apply (Hd p.1); set_solver.
    - apply (chain_set_start _ (Some c.1)); [|done].
      rewrite fmap_cons in Hn2. by apply NoDup_cons in Hn2 as [? _]. }
  clearbody h1.
  destruct (snoc_or_nil c1) as [->|(c1' & q & ->)]; [done|].
  rewrite !last_or_app. simpl. split.
  - apply (chain_set_end _ _ _ _ (Some c.1)); [|done].
    rewrite fmap_app in Hn1. apply NoDup_app in Hn1 as (_ & Hq & _).
    intros Hin. apply (Hq q.1); set_solver.
  - rewrite last_or_app in H2'. simpl in H2'.
    eapply chain_frame; [|done]. intros a Hin. unfold store_prev.
    apply lookup_alter_ne. intros <-. apply (Hd q.1); set_solver.
Qed.

(** What [remove] does to a list that holds its node. *)
Lemma remove_unlinks c1 c c2 l :
  NoDup (c1 ++ c :: c2).*1 →
  chain (heap l) None (c1 ++ c :: c2) None →
  tail l = first_or (c1 ++ c :: c2) None →
  head l = last_or (c1 ++ c :: c2) None →
  remove c.1 l
  = mkLRU (unlinked c1 c2 None None (heap l)) (brk l) (nodes l)
          (last_or (c1 ++ c2) None) (first_or (c1 ++ c2) None).
Proof.
  intros Hnd Hch Ht Hh. pose proof Hch as Hch'.
  apply chain_app in Hch' as (_ & Ha & _).
  rewrite fmap_app, fmap_cons in Hnd.
  apply NoDup_app in Hnd as (Hn1 & Hd & [Hc Hn2]%NoDup_cons).
  rewrite first_or_app in Ht. rewrite last_or_app in Hh. simpl in Hh.
  unfold remove, unlinked. rewrite Ha. cbn [prev next].
  rewrite first_or_app, last_or_app.
  destruct l as [h b m hd tl]. simpl in *. subst hd tl.
  destruct c2 as [|p c2]; simpl.
  - rewrite Ha. cbn [prev next].
    destruct (snoc_or_nil c1) as [->|(c1' & q & ->)]; [done|].
    rewrite !last_or_app. simpl. unfold with_heap, with_head. simpl.
    by rewrite !first_or_app.
  - assert (store_next p.1 (last_or c1 None) h !! c.1
            = Some (mkNode c.2 (Some p.1) (last_or c1 None))) as ->.
    { unfold store_next. rewrite lookup_alter_ne; [done|].
      intros Heq. rewrite fmap_cons in Hc. apply Hc. set_solver. }
    cbn [prev next].
    destruct (snoc_or_nil c1) as [->|(c1' & q & ->)]; [done|].
    rewrite !last_or_app. simpl. unfold with_heap. simpl.
    by rewrite !first_or_app.
Qed.

Lemma remove_cells c1 c c2 l :
  lru_cells (c1 ++ c :: c2) l →
  lru_cells (c1 ++ c2)
    (with_nodes (delete c.2 (nodes (remove c.1 l))) (remove c.1 l)).
Proof.
  intros (Hch & Ht & Hh & Hna & Hnk & Hbrk & Hidx).
  rewrite (remove_unlinks c1 c c2 l Hna Hch Ht Hh).
  unfold lru_cells, with_nodes. simpl.
  split; [by apply (chain_unlink _ _ c1 c c2)|]. split; [done|]. split; [done|].
  rewrite !fmap_app, !fmap_cons in *.
  apply NoDup_app in Hna as (Ha1 & Had & [Hac Ha2]%NoDup_cons).
  apply NoDup_app in Hnk as (Hk1 & Hkd & [Hkc Hk2]%NoDup_cons).
  split. { apply NoDup_app. set_solver. }
  split. { apply NoDup_app. set_solver. }
  split. { intros x Hx. apply Hbrk. set_solver. }
  intros k a. destruct (decide (k = c.2)) as [->|Hne].
  - rewrite lookup_delete_eq. split; [done|].
    intros [Hin|Hin]%elem_of_app; exfalso.
    + apply (Hkd c.2); [|set_solver].
      apply list_elem_of_fmap. by exists (a, c.2).
    + apply Hkc. apply list_elem_of_fmap. by exists (a, c.2).
  - rewrite lookup_delete_ne by done. rewrite Hidx.
    rewrite !elem_of_app, elem_of_cons. split; [|tauto].
    intros [?|[Heq|?]]; [tauto| |tauto]. by rewrite <- Heq in Hne.
Qed.

Lemma OnPut_cells cells l k :
  lru_cells cells l → nodes l !! k = None →
  lru_cells (cells ++ [(brk l, k)]) (OnPut k l).
Proof.
  intros (Hch & Ht & Hh & Hna & Hnk & Hbrk & Hidx) Hk.
  unfold OnPut. rewrite Hk.
  assert (brk l ∉ cells.*1) as Hfresh.
  { intros (x & Hx & Hin)%list_elem_of_fmap. apply Hbrk in Hin. lia. }
  assert (k ∉ cells.*2) as Hnew.
  { intros ([a k'] & Hx & Hin)%list_elem_of_fmap. simpl in Hx. subst k'.
    apply Hidx in Hin. congruence. }
  destruct l as [h b m hd tl]. simpl in *. subst hd tl.
  unfold addFront, lru_cells, with_nodes, with_heap, with_head, with_tail.
  cbn [heap brk nodes head tail].
  set (h1 := store_next b (last_or cells None)
               (<[b := mkNode k None None]> h)).
  assert (h1 !! b = Some (mkNode k None (last_or cells None))) as Hb.
  { subst h1. unfold store_next.
    by rewrite lookup_alter_eq, lookup_insert_eq. }
  assert (chain h1 None cells None) as Hch1.
  { eapply chain_frame; [|done]. intros a Hin. subst h1. unfold store_next.
    rewrite lookup_alter_ne, lookup_insert_ne; [done| |]; by intros <-. }
  assert (∀ c, c ∈ cells ++ [(b, k)] → (c.1 < S b)%nat) as Hbrk'.
  { intros c [Hin|Heq%list_elem_of_singleton]%elem_of_app.
    - apply Hbrk in Hin. lia.
    - subst c. simpl. lia. }
  assert (∀ k' a, <[k := b]> m !! k' = Some a ↔ (a, k') ∈ cells ++ [(b, k)])
    as Hidx'.
  { intros k' a. rewrite elem_of_app, list_elem_of_singleton.
    destruct (decide (k' = k)) as [->|Hne].
    - rewrite lookup_insert_eq. split.
      + intros [= <-]. by right.
      + intros [Hin|[= -> ]]; [|done]. exfalso. apply Hnew.
        apply list_elem_of_fmap. by exists (a, k).
    - rewrite lookup_insert_ne by done. rewrite Hidx. split; [tauto|].
      intros [?|[= _ ?]]; [done|congruence]. }
  assert (NoDup (cells ++ [(b, k)]).*1 ∧ NoDup (cells ++ [(b, k)]).*2)
    as [Hna' Hnk'].
  { rewrite !fmap_app. simpl.
    split; (apply NoDup_app; split; [done|]; split; [|apply NoDup_singleton]);
      intros x Hx Hin%list_elem_of_singleton; by subst x. }
  clearbody h1.
  destruct (snoc_or_nil cells) as [->|(c1 & q & ->)]; simpl in *.
  - repeat (split; [done|]). exact Hidx'.
  - rewrite !last_or_app in *. simpl in *. rewrite !first_or_app. simpl.
    destruct (first_or c1 (Some q.1)) as [t|] eqn:Hf; [|by destruct c1].
    simpl.
    split; [|repeat (split; [done|]); exact Hidx'].
    apply chain_app. simpl. split; [|split; [|done]].
    + apply (chain_set_end _ _ _ _ None); [|done].
      rewrite fmap_app in Hna. apply NoDup_app in Hna as (_ & Hq & _).
      intros Hin. apply (Hq q.1); set_solver.
    + rewrite last_or_app. simpl. unfold store_prev.
      rewrite lookup_alter_ne; [done|]. intros Heq. apply Hfresh.
      rewrite fmap_app. set_solver.
Qed.

Lemma cells_first cells l :
  lru_cells cells l →
  match cells with
  | [] => tail l = None
  | c :: _ => tail l = Some c.1 ∧ heap l !! c.1 ≫= (λ nd, Some (key nd))
                                   = Some c.2
  end.
Proof.
  intros (Hch & Ht & _). destruct cells as [|c rest]; [done|].
  split; [done|]. destruct Hch as [-> _]. done.
Qed.

Lemma cells_split cells a k :
  (a, k) ∈ cells → NoDup cells.*2 →
  ∃ c1 c2, cells = c1 ++ (a, k) :: c2 ∧ k ∉ c1.*2.
Proof.
  intros (c1 & c2 & ->)%list_elem_of_split Hnd. exists c1, c2.
  split; [done|]. rewrite fmap_app, fmap_cons in Hnd.
  apply NoDup_app in Hnd as (_ & Hd & _). intros Hin.
  apply (Hd k Hin). set_solver.
Qed.

Lemma remove_first_skip k (q1 q2 : list string) :
  k ∉ q1 →
  eviction.FIFO.remove_first k (q1 ++ k :: q2) = q1 ++ q2.
Proof.
  induction q1 as [|v q1 IH]; simpl; intros Hk.
  - by rewrite decide_True.
  - rewrite decide_False by set_solver. f_equal. apply IH. set_solver.
Qed.

(** One call that is not a read keeps the two policies in step and
    returns the same key from both. *)
Lemma lru_as_fifo_step o l f :
  lru_as_fifo l f → not_a_read o →
  ∃ l' f' out,
    policy_step o (eviction.PLRU l) = (out, eviction.PLRU l')
    ∧ policy_step o (eviction.PFIFO f) = (out, eviction.PFIFO f')
    ∧ lru_as_fifo l' f'.
Proof.
  intros (cells & Hc & Hq & Hs) Ho.
  pose proof Hc as (Hch & Ht & Hh & Hna & Hnk & Hbrk & Hidx).
  destruct o as [k|k|k|pick]; [done| | |]; simpl.
  - (* OnPut *)
    eexists _, _, _. split; [done|]. split; [done|].
    unfold eviction.FIFO.OnPut.
    destruct (nodes l !! k) as [a|] eqn:Hk.
    + unfold OnPut. rewrite Hk. rewrite decide_True.
      * by exists cells.
      * rewrite Hs. apply elem_of_list_to_set, list_elem_of_fmap.
        exists (a, k). split; [done|]. by apply Hidx.
    + rewrite decide_False.
      * exists (cells ++ [(brk l, k)]). split; [by apply OnPut_cells|].
        simpl. rewrite fmap_app, Hq, Hs. simpl. split; [done|].
        rewrite list_to_set_app_L. set_solver.
      * rewrite Hs. intros ([a k'] & Hx & Hin)%elem_of_list_to_set%list_elem_of_fmap.
        simpl in Hx. subst k'. apply Hidx in Hin. congruence.
  - (* Remove *)
    eexists _, _, _. split; [done|]. split; [done|].
    unfold eviction.FIFO.Remove, Remove.
    destruct (nodes l !! k) as [a|] eqn:Hk.
    + apply Hidx in Hk.
      destruct (cells_split cells a k Hk Hnk) as (c1 & c2 & -> & Hk1).
      rewrite decide_True.
      2:{ rewrite Hs. apply elem_of_list_to_set. rewrite fmap_app. set_solver. }
      exists (c1 ++ c2). split; [apply (remove_cells c1 (a, k) c2 l Hc)|].
      simpl. rewrite Hq, Hs, !fmap_app, fmap_cons. simpl.
      split; [by apply remove_first_skip|].
      rewrite fmap_app, fmap_cons in Hnk.
      apply NoDup_app in Hnk as (_ & _ & [Hk2 _]%NoDup_cons).
      rewrite !list_to_set_app_L, list_to_set_cons. set_solver.
    + rewrite decide_False; [by exists cells|].
      rewrite Hs. intros ([a k'] & Hx & Hin)%elem_of_list_to_set%list_elem_of_fmap.
      simpl in Hx. subst k'. apply Hidx in Hin. congruence.
  - (* Evict *)
    unfold eviction.FIFO.Evict, Evict. rewrite Hq, Ht.
    destruct cells as [|c rest]; simpl.
    + eexists _, _, _. split; [done|]. split; [done|]. by exists [].
    + destruct Hch as [Hc1 _]. rewrite Hc1. simpl.
      eexists _, _, _. split; [done|]. split; [done|].
      exists rest. split; [apply (remove_cells [] c rest l Hc)|].
      simpl. split; [done|]. rewrite Hs. simpl.
      rewrite fmap_cons in Hnk. apply NoDup_cons in Hnk as [Hk _].
      set_solver.
Qed.

Lemma lru_as_fifo_run ops l f :
  lru_as_fifo l f → Forall not_a_read ops →
  ∃ l' f' outs,
    policy_run ops (eviction.PLRU l) = (outs, eviction.PLRU l')
    ∧ policy_run ops (eviction.PFIFO f) = (outs, eviction.PFIFO f')
    ∧ lru_as_fifo l' f'.
Proof.
  intros Hsim Hops. revert l f Hsim.
  induction Hops as [|o ops Ho _ IH]; intros l f Hsim.
  - by exists l, f, [].
  - destruct (lru_as_fifo_step o l f Hsim Ho) as (l1 & f1 & out & H1 & H2 & Hs1).
    destruct (IH l1 f1 Hs1) as (l2 & f2 & outs & H3 & H4 & Hs2).
    exists l2, f2. eexists.
    cbn [policy_run]. rewrite H1, H2, H3, H4. done.
Qed.

Lemma lru_as_fifo_new : lru_as_fifo newLRU eviction.FIFO.newFIFO.
Proof.
  exists []. split; [|done].
  repeat split; simpl; try done; try apply NoDup_nil_2; set_solver.
Qed.

(** X26.  An LRU policy that is never read is a FIFO policy.  Over any
    sequence of [OnPut], [Remove] and [Evict] calls on new policies the
    two return the same keys from their [Evict] calls, in the same order,
    and track the same keys at the end. *)
Theorem LRU_without_reads_is_FIFO (ops : list policy_op) :
  Forall not_a_read ops →
  (policy_run ops (eviction.PLRU newLRU)).1
  = (policy_run ops (eviction.PFIFO eviction.FIFO.newFIFO)).1
  ∧ tracked (policy_run ops (eviction.PLRU newLRU)).2
    = tracked (policy_run ops (eviction.PFIFO eviction.FIFO.newFIFO)).2.
Proof.
  intros Hops.
  destruct (lru_as_fifo_run ops _ _ lru_as_fifo_new Hops)
    as (l & f & outs & -> & -> & cells & Hc & _ & Hs).
  split; [done|]. simpl. rewrite Hs.
  destruct Hc as (_ & _ & _ & _ & _ & _ & Hidx).
  apply set_eq. intros k.
  rewrite elem_of_dom, elem_of_list_to_set, list_elem_of_fmap. split.
  - intros [a Ha]. exists (a, k). split; [done|]. by apply Hidx.
  - intros ([a k'] & -> & Hin). exists a. by apply Hidx.
Qed.

End lru_list.

Lemma LRU_without_reads_is_FIFO_witness :
  (policy_run writes_only (eviction.PLRU eviction.LRU.newLRU)).1
  = (policy_run writes_only (eviction.PFIFO eviction.FIFO.newFIFO)).1
  ∧ tracked (policy_run writes_only (eviction.PLRU eviction.LRU.newLRU)).2
    = tracked (policy_run writes_only
                 (eviction.PFIFO eviction.FIFO.newFIFO)).2.
Proof.
  apply (LRU_without_reads_is_FIFO writes_only).
  unfold writes_only. repeat constructor.
Defined.
